(** * learnMSA: Viterbi decoding, emission matrices and chunked recursions

    A shallow embedding of the numerical kernels of [learnMSA.msa_hmm]:
    [Viterbi.py], [Emitter.py], and of [MsaHmmLayer.py] the reshaping prologue
    of the recursions and the posterior pass over an abstract cell.

    Tensors of floating point numbers are modelled over the real numbers
    (exact arithmetic): a rank-1 tensor is a [list R], a rank-2 tensor a list
    of rows.  One property of [float32] is kept in [safe_log], whose
    contract is about the value zero: TensorFlow reads a subnormal operand as
    zero, so [safe_log] takes every value of magnitude below [tiny] for zero.
    Every tensor operation of the decoder broadcasts over the two
    leading axes [(num_models, b)], so the kernels are given for one model and
    one batch element and lifted with [map] where the source needs the whole
    batch.  Operations that raise in TensorFlow or numpy return [None]. *)

From Stdlib Require Import Reals Lra Lia List Arith ZArith Bool.
From Stdlib Require String.
Import ListNotations.

Local Open Scope R_scope.

(** ** A small error monad for the operations that can raise *)

Definition bind {A B : Type} (c : option A) (k : A -> option B) : option B :=
  match c with
  | Some a => k a
  | None => None
  end.

Notation "x <- c ;; k" := (bind c (fun x => k))
  (at level 61, c at next level, right associativity).
Notation "' p <- c ;; k" := (bind c (fun x => match x with p => k end))
  (at level 61, p pattern, c at next level, right associativity).

(** [mapM] for [option]: the first failure aborts the whole traversal. *)
Fixpoint traverse {A B : Type} (f : A -> option B) (l : list A) : option (list B) :=
  match l with
  | [] => Some []
  | a :: t => b <- f a ;; r <- traverse f t ;; Some (b :: r)
  end.

(** ** Scaling arithmetic ([Viterbi.py], [safe_log]) *)

Module Scaling.

(** [np.finfo(np.float32).tiny]: the smallest positive normal float32, 2^-126. *)
Definition tiny : R := / (2 ^ 126).

(** The default of the keyword argument [log_zero_val]. *)
Definition log_zero_val_default : R := -1000.

(** TensorFlow runs its kernels with subnormal numbers treated as zero: an
    operation reads a [float32] operand of magnitude below [tiny] as [0]. *)
Definition flush_subnormal (x : R) : R :=
  if Rlt_dec (Rabs x) tiny then 0 else x.

(** [tf.cast(tf.equal(x, 0), dtype)] on one element. *)
Definition zero_mask (x : R) : R :=
  if Req_dec_T (flush_subnormal x) 0 then 1 else 0.

(** [safe_log] on one element: the clamped logarithm and the sentinel are
    blended arithmetically with the 0/1 mask, as in the source. *)
Definition safe_log_val (log_zero_val : R) (x : R) : R :=
  let epsilon := tiny in
  let log_x := ln (Rmax (flush_subnormal x) epsilon) in
  let zero_mask := zero_mask x in
  (1 - zero_mask) * log_x + zero_mask * log_zero_val.

Definition safe_log (x : R) : R := safe_log_val log_zero_val_default x.

(** The element-wise lifting to rank-1 and rank-2 tensors. *)
Definition safe_log_vec (v : list R) : list R := map safe_log v.
Definition safe_log_mat (m : list (list R)) : list (list R) := map safe_log_vec m.

End Scaling.

(** ** Tensor operations used by the kernels *)

Module Tensor.

Abbreviation vec := (list R).
Abbreviation mat := (list (list R)).

(** Element-wise combination of two tensors of the same shape.  TensorFlow
    raises on a shape mismatch; the theorems below assume well-shaped inputs. *)
Fixpoint zip_with {A B C : Type} (f : A -> B -> C) (u : list A) (v : list B) : list C :=
  match u, v with
  | a :: u', b :: v' => f a b :: zip_with f u' v'
  | _, _ => []
  end.

Definition vec_add (u v : vec) : vec := zip_with Rplus u v.
Definition mat_add (m n : mat) : mat := zip_with vec_add m n.

(** [tf.expand_dims(m, 1) + tf.expand_dims(g, -1)] on one slice:
    entry [(q', q)] is [m[q'][q] + g[q']]. *)
Definition add_col (m : mat) (g : vec) : mat :=
  zip_with (fun row x => map (fun a => a + x) row) m g.

(** [tf.reduce_max(a, axis=-2)]: the maximum of every column. *)
Definition reduce_max_axis0 (a : mat) : vec :=
  match a with
  | [] => []
  | r :: rs => fold_left (zip_with Rmax) rs r
  end.

(** The maximum of a non-empty vector ([max_q] of the specification). *)
Definition vec_maximum (v : vec) : R :=
  match v with
  | [] => 0
  | x :: t => fold_left Rmax t x
  end.

(** [tf.math.argmax(v, axis=-1)]: the smallest index holding the maximum. *)
Fixpoint argmax (v : vec) : nat :=
  match v with
  | [] => 0%nat
  | x :: t =>
      match t with
      | [] => 0%nat
      | _ :: _ =>
          let j := argmax t in
          if Rle_dec (nth j t 0) x then 0%nat else S j
      end
  end.

(** [tf.transpose] of a matrix with [n] columns. *)
Definition transpose (n : nat) (m : mat) : mat :=
  map (fun j => map (fun row => nth j row 0) m) (seq 0 n).

(** [tf.one_hot([i], depth)]: an index outside [0, depth) gives the zero row. *)
Definition one_hot (i depth : nat) : vec :=
  map (fun j => if Nat.eqb j i then 1 else 0) (seq 0 depth).

(** [tf.reduce_sum] of a vector. *)
Definition vec_sum (v : vec) : R := fold_right Rplus 0 v.

(** [tf.cast(x, tf.int16)] of a state index. *)
Definition cast_int16 (n : nat) : Z :=
  ((Z.of_nat n + 32768) mod 65536 - 32768)%Z.

(** Storing an integer into a numpy array of dtype [uint16]. *)
Definition to_uint16 (z : Z) : Z := (z mod 65536)%Z.

(** [a[i] = x]; an index outside the array raises. *)
Definition set_nth {A : Type} (i : nat) (x : A) (a : list A) : option (list A) :=
  if (i <? length a)%nat then Some (firstn i a ++ x :: skipn (S i) a) else None.

(** *** [tf.TensorArray] of a fixed size *)

Abbreviation TensorArray A := (list (option A)).

Definition ta_new {A : Type} (size : nat) : TensorArray A := repeat None size.

(** [ta.write(i, v)]; an index outside the array raises. *)
Definition ta_write {A : Type} (i : nat) (v : A) (ta : TensorArray A)
  : option (TensorArray A) :=
  if (i <? length ta)%nat
  then Some (firstn i ta ++ Some v :: skipn (S i) ta)
  else None.

(** [ta.stack()]; reading an element that was never written raises. *)
Definition ta_stack {A : Type} (ta : TensorArray A) : option (list A) :=
  traverse (fun x => x) ta.

End Tensor.

(** ** The Viterbi engine ([Viterbi.py]) *)

Module Viterbi.

Import Scaling Tensor.

(** What the decoder reads from an HMM cell, for one model.  The class
    [MsaHmmCell] itself is outside this development: its tensors are data and
    its method [emission_probs] is a function from the (one-hot) sequence to
    the [L x q] matrix of emission probabilities. *)
Record HmmCell := {
  max_num_states : nat;
  dim : nat;
  log_A_dense : mat;
  init_dist : vec;
  emission_probs : mat -> mat
}.

(** [hmm_cell.log_A_dense_t]: the transposed log transition matrix (the
    backtracking step gathers the column of the target state from it). *)
Definition log_A_dense_t (hmm_cell : HmmCell) : mat :=
  transpose (max_num_states hmm_cell) (log_A_dense hmm_cell).

(** A [non_homogeneous_mask_func]: it maps the position [i], the sequence
    length and the cell to a [q x q] mask of allowed transitions. *)
Definition MaskFunc := nat -> nat -> HmmCell -> mat.

Definition apply_mask_func (f : option MaskFunc) (i seq_lens : nat) (hmm_cell : HmmCell)
  : option mat :=
  match f with
  | Some g => Some (g i seq_lens hmm_cell)
  | None => None
  end.

Definition viterbi_step (gamma_prev emission_probs_i : vec) (hmm_cell : HmmCell)
    (non_homogeneous_mask : option mat) : vec :=
  let a := add_col (log_A_dense hmm_cell) gamma_prev in
  let a := match non_homogeneous_mask with
           | Some m => mat_add a (safe_log_mat m)
           | None => a
           end in
  let a := reduce_max_axis0 a in
  let b := safe_log_vec emission_probs_i in
  vec_add a b.

(** [tf.reduce_sum(tf.cast(sequences[..., -1] == 0, tf.int32), axis=-1)]:
    the number of positions whose last channel (the terminal symbol) is 0. *)
Definition seq_lens (sequences : mat) : nat :=
  length (filter (fun row => if Req_dec_T (last row 0) 0 then true else false) sequences).

(** One iteration of the loop of [viterbi_dyn_prog]. *)
Definition dyn_prog_body (hmm_cell : HmmCell) (emission_probs : mat)
    (non_homogeneous_mask_func : option MaskFunc) (seq_lens : nat)
    (st : option (vec * TensorArray vec)) (i : nat)
  : option (vec * TensorArray vec) :=
  '(gamma_val, gamma) <- st ;;
  emission_probs_i <- nth_error emission_probs i ;;
  let gamma_val :=
    viterbi_step gamma_val emission_probs_i hmm_cell
      (apply_mask_func non_homogeneous_mask_func i seq_lens hmm_cell) in
  gamma <- ta_write i gamma_val gamma ;;
  Some (gamma_val, gamma).

Definition viterbi_dyn_prog (sequences : mat) (hmm_cell : HmmCell)
    (non_homogeneous_mask_func : option MaskFunc) : option mat :=
  let init := init_dist hmm_cell in
  let emission_probs := emission_probs hmm_cell sequences in
  b0 <- nth_error emission_probs 0 ;;
  let gamma_val := vec_add (safe_log_vec init) (safe_log_vec b0) in
  let L := length sequences in
  let seq_lens := seq_lens sequences in
  gamma <- ta_write 0 gamma_val (ta_new L) ;;
  '(_, gamma) <- fold_left
                   (dyn_prog_body hmm_cell emission_probs non_homogeneous_mask_func seq_lens)
                   (seq 1 (L - 1)) (Some (gamma_val, gamma)) ;;
  ta_stack gamma.

Definition viterbi_backtracking_step (q : nat) (gamma_state : vec) (hmm_cell : HmmCell)
    (non_homogeneous_mask : option mat) : nat :=
  let A_q := match non_homogeneous_mask with
             | None => nth q (log_A_dense_t hmm_cell) []
             | Some m =>
                 nth q (mat_add (log_A_dense_t hmm_cell)
                          (safe_log_mat (transpose (max_num_states hmm_cell) m))) []
             end in
  argmax (vec_add A_q gamma_state).

(** One iteration of the loop of [viterbi_backtracking]. *)
Definition backtracking_body (hmm_cell : HmmCell) (gamma : mat)
    (non_homogeneous_mask_func : option MaskFunc) (seq_lens : nat)
    (st : option (nat * TensorArray nat)) (i : nat)
  : option (nat * TensorArray nat) :=
  '(q, state_seqs_max_lik) <- st ;;
  gamma_i <- nth_error gamma i ;;
  let q := viterbi_backtracking_step q gamma_i hmm_cell
             (apply_mask_func non_homogeneous_mask_func (i + 1) seq_lens hmm_cell) in
  state_seqs_max_lik <- ta_write i q state_seqs_max_lik ;;
  Some (q, state_seqs_max_lik).

Definition viterbi_backtracking (hmm_cell : HmmCell) (gamma : mat) (seq_lens : nat)
    (non_homogeneous_mask_func : option MaskFunc) : option (list Z) :=
  let L := length gamma in
  gamma_last <- nth_error gamma (L - 1) ;;
  let q := argmax gamma_last in
  state_seqs_max_lik <- ta_write (L - 1) q (ta_new L) ;;
  '(_, state_seqs_max_lik) <-
     fold_left (backtracking_body hmm_cell gamma non_homogeneous_mask_func seq_lens)
       (rev (seq 0 (L - 1))) (Some (q, state_seqs_max_lik)) ;;
  state_seqs_max_lik <- ta_stack state_seqs_max_lik ;;
  Some (map cast_int16 state_seqs_max_lik).

(** The two input formats of [viterbi]: symbol indices (rank 3 in the
    source) or already encoded sequences (rank 4). *)
Inductive SeqInput :=
| Indices (symbols : list nat)
| Encoded (sequences : mat).

Definition encode (input : SeqInput) (hmm_cell : HmmCell) : mat :=
  match input with
  | Indices symbols => map (fun c => one_hot c (dim hmm_cell)) symbols
  | Encoded sequences => sequences
  end.

Definition viterbi (input : SeqInput) (hmm_cell : HmmCell)
    (non_homogeneous_mask_func : option MaskFunc) : option (list Z) :=
  let sequences := encode input hmm_cell in
  gamma <- viterbi_dyn_prog sequences hmm_cell non_homogeneous_mask_func ;;
  let seq_lens := seq_lens sequences in
  viterbi_backtracking hmm_cell gamma seq_lens non_homogeneous_mask_func.

(** The batched call: one cell per model, [b] sequences per model. *)
Definition viterbi_batch (inputs : list (list SeqInput)) (hmm_cells : list HmmCell)
    (non_homogeneous_mask_func : option MaskFunc) : option (list (list (list Z))) :=
  if (length inputs =? length hmm_cells)%nat
  then traverse
         (fun '(per_model, hmm_cell) =>
            traverse (fun input => viterbi input hmm_cell non_homogeneous_mask_func) per_model)
         (combine inputs hmm_cells)
  else None.

End Viterbi.

(** ** The emission matrix ([Emitter.py]) *)

Module Emitter.

Import Tensor.

(** [tf.nn.softmax] of one row. *)
Definition softmax (row : vec) : vec :=
  let z := vec_sum (map exp row) in
  map (fun x => exp x / z) row.

(** All rows of [m] have width [w]: what [tf.concat] along axis 0 checks. *)
Definition same_width (w : nat) (m : mat) : bool :=
  forallb (fun row => (length row =? w)%nat) m.

(** [make_default_emission_matrix(em, ins, length)].  [s] is [em.shape[-1]],
    carried explicitly because the rows of an empty kernel do not determine
    it.  A [tf.concat] of blocks of different widths raises. *)
Definition make_default_emission_matrix (s : nat) (em : mat) (ins : vec) (length : nat)
  : option mat :=
  let emissions := [ins] ++ em ++ repeat ins (length + 1) in
  if negb (same_width s emissions) then None else
  let emissions := map softmax emissions in
  let emissions := map (fun row => row ++ map (fun _ => 0) (firstn 1 row)) emissions in
  let end_state_emission := [one_hot s (s + 1)] in
  if negb (same_width (s + 1) emissions) then None else
  Some (emissions ++ end_state_emission).

(** [tf.pad(m, [[0, padding], [0, 0]])]: zero rows appended below; a negative
    padding raises. *)
Definition pad_rows (width : nat) (m : mat) (padding : Z) : option mat :=
  if (padding <? 0)%Z then None
  else Some (m ++ repeat (repeat 0 width) (Z.to_nat padding)).

(** The attributes of [ProfileHMMEmitter] that [make_B] reads. *)
Record ProfileHMMEmitter := {
  alphabet_size : nat;
  emission_kernel : list mat;
  insertion_kernel : list vec;
  length : list nat;
  max_num_states : nat
}.

Definition make_B (self : ProfileHMMEmitter) : option (list mat) :=
  traverse
    (fun '(em, ins, length) =>
       em_mat <- make_default_emission_matrix (alphabet_size self) em ins length ;;
       let padding := (Z.of_nat (max_num_states self) - Z.of_nat (List.length em_mat))%Z in
       pad_rows (alphabet_size self + 1) em_mat padding)
    (combine (combine (emission_kernel self) (insertion_kernel self)) (length self)).

(** [ProfileHMMEmitter.call] for one model: [tf.matmul(inputs, B_transposed)],
    the emission probability of every input row under every state. *)
Definition call (B : mat) (inputs : mat) : mat :=
  map (fun x => map (fun row => vec_sum (zip_with Rmult x row)) B) inputs.

End Emitter.

(** ** The chunking prologue of the recursions ([MsaHmmLayer.py]) *)

Module Layer.

Import Tensor.

Inductive error :=
| DivisionByZero
| ShapeError.

Inductive result (A : Type) :=
| Ok (a : A)
| Raise (e : error).

Arguments Ok {A} a.
Arguments Raise {A} e.

Definition rbind {A B : Type} (c : result A) (k : A -> result B) : result B :=
  match c with
  | Ok a => k a
  | Raise e => Raise e
  end.

(** A dense tensor: its shape and its entries in row-major order. *)
Record Tensor := {
  shape : list nat;
  data : list R
}.

Definition numel (shape : list nat) : nat := fold_right Nat.mul 1%nat shape.

(** [tf.reshape]: the entries are kept in order, and the call raises unless
    the new shape holds exactly as many entries as the tensor has. *)
Definition tf_reshape (t : Tensor) (new_shape : list nat) : result Tensor :=
  if (numel new_shape =? List.length (data t))%nat
  then Ok {| shape := new_shape; data := data t |}
  else Raise ShapeError.

(** Integer floor division of tensors; a zero divisor raises. *)
Definition floordiv (a b : nat) : result nat :=
  if (b =? 0)%nat then Raise DivisionByZero else Ok (a / b)%nat.

Section Recursions.

(** The layer's cell and what runs after the reshape are outside this
    development: [cell_emission_probs] is [cell.emission_probs], and the three
    continuations stand for the recurrent passes over the chunked tensor. *)
Variable Out : Type.
Variable max_num_states : nat.
Variable parallel_factor : nat.
Variable cell_emission_probs : Tensor -> Tensor.
Variable reverse_cell_emission_probs : Tensor -> Tensor.
Variable run_forward : Tensor -> result Out.
Variable run_backward : Tensor -> result Out.
Variable run_posterior : Tensor -> result Out.

(** The lines shared by the three methods: unstack the input shape, compute
    the emissions, and reshape them into [parallel_factor] chunks. *)
Definition chunk_emission_probs (emission_probs_of : Tensor -> Tensor) (inputs : Tensor)
  : result Tensor :=
  match shape inputs with
  | [num_model; b; seq_len; s] =>
      let q := max_num_states in
      let emission_probs := emission_probs_of inputs in
      rbind (floordiv seq_len parallel_factor) (fun chunk_size =>
      tf_reshape emission_probs
        [(num_model * b * parallel_factor)%nat; chunk_size; q])
  | _ => Raise ShapeError
  end.

Definition forward_recursion (inputs : Tensor) : result Out :=
  rbind (chunk_emission_probs cell_emission_probs inputs) run_forward.

Definition backward_recursion (inputs : Tensor) : result Out :=
  rbind (chunk_emission_probs reverse_cell_emission_probs inputs) run_backward.

Definition state_posterior_log_probs (inputs : Tensor) : result Out :=
  rbind (chunk_emission_probs cell_emission_probs inputs) run_posterior.

End Recursions.

(** [tf.reshape(t, (seq_len, -1))] on the entries of one batch row: the row is
    cut into [seq_len] pieces of the same width, and the call raises when the
    entries cannot be divided evenly. *)
Fixpoint chunk_rows (n width : nat) (flat : vec) : list vec :=
  match n with
  | O => []
  | S n' => firstn width flat :: chunk_rows n' width (skipn width flat)
  end.

Definition reshape_rows (flat : vec) (seq_len : nat) : result (list vec) :=
  if (seq_len =? 0)%nat then Raise ShapeError
  else if (List.length flat mod seq_len =? 0)%nat
       then Ok (chunk_rows seq_len (List.length flat / seq_len) flat)
       else Raise ShapeError.

Section Posterior.

(** The cell and its reversed offspring are outside this development.  A
    call takes the emissions of one position, the recurrent state and the
    [init] flag, and returns the output of the step (for [parallel_factor = 1]
    the scaled variables followed by one scaling factor) and the next state.
    The definitions below follow one batch row through
    [state_posterior_log_probs] for [parallel_factor = 1]. *)
Variables FState BState : Type.
Variable cell : vec -> FState -> bool -> vec * FState.
Variable reverse_cell : vec -> BState -> bool -> vec * BState.
Variable initial_state : FState.
Variable rev_initial_state : BState.

(** [final_state[1]], the log-likelihood kept in the forward state. *)
Variable loglik_of : FState -> R.

(** [tf.keras.layers.RNN(..., return_sequences=True, return_state=True)]. *)
Fixpoint rnn {S : Type} (step : vec -> S -> bool -> vec * S)
    (inputs : list vec) (state : S) : list vec * S :=
  match inputs with
  | [] => ([], state)
  | x :: rest =>
      let (out, state') := step x state false in
      let (outs, final) := rnn step rest state' in
      (out :: outs, final)
  end.

(** [tf.keras.layers.Bidirectional] with [merge_mode="sum"]: the backward
    layer reads the inputs from the last to the first, its outputs are put
    back into the order of the inputs and added to the forward outputs. *)
Definition bidirectional_rnn (inputs : list vec) (fstate : FState) (bstate : BState)
  : list vec * FState * BState :=
  let (y, fstate') := rnn cell inputs fstate in
  let (y_rev, bstate') := rnn reverse_cell (rev inputs) bstate in
  (zip_with vec_add y (rev y_rev), fstate', bstate').

(** The body of [state_posterior_log_probs] after the reshape, for
    [parallel_factor = 1], on the [chunk_size = seq_len] positions of one
    batch row. *)
Definition state_posterior_row (emission_probs : list vec) (no_loglik : bool)
  : result (list vec) :=
  let seq_len := List.length emission_probs in
  match emission_probs with
  | [] => Raise ShapeError
  | first :: _ =>
      let last_pos := last emission_probs first in
      let (forward_1, forward_step_1_state) := cell first initial_state true in
      let (backward_1, backward_step_1_state) :=
        reverse_cell last_pos rev_initial_state true in
      let '(posterior, fstate, bstate) :=
        if (2 <? seq_len)%nat
        then bidirectional_rnn (removelast (tl emission_probs))
               forward_step_1_state backward_step_1_state
        else ([], forward_step_1_state, backward_step_1_state) in
      let (forward_last, final_state) := cell last_pos fstate false in
      let (backward_last, _) := reverse_cell first bstate false in
      let posterior_1 := vec_add forward_1 backward_last in
      let posterior_last := vec_add forward_last backward_1 in
      let posterior := posterior_1 :: posterior ++ [posterior_last] in
      rbind (reshape_rows (concat posterior) seq_len) (fun posterior =>
      let loglik := loglik_of final_state in
      let posterior :=
        map (fun row => map (fun x => x + last row 0) (removelast row)) posterior in
      Ok (if no_loglik then posterior
          else map (map (fun x => x - loglik)) posterior))
  end.

End Posterior.

Arguments bidirectional_rnn {FState BState} cell reverse_cell inputs fstate bstate.
Arguments state_posterior_row {FState BState} cell reverse_cell initial_state
  rev_initial_state loglik_of emission_probs no_loglik.

End Layer.

(** ** Reference recursions and shape predicates used by the statements *)

Import Scaling Tensor.

(** Entry [(i, j)] of a matrix. *)
Definition entry (m : mat) (i j : nat) : R := nth j (nth i m []) 0.

(** [m] has [r] rows of [c] entries each. *)
Definition is_mat (r c : nat) (m : mat) : Prop :=
  length m = r /\ Forall (fun row => length row = c) m.

(** The specification's reading of [safe_log]: the sentinel at zero and the
    true logarithm at every other input. *)
Definition safe_log_spec : Prop :=
  forall x : R, (x = 0 -> safe_log x = -1000) /\ (x <> 0 -> safe_log x = ln x).

(** *** The Viterbi recursion written over positions *)

Section ViterbiReference.

Import Viterbi.

Variable hmm_cell : HmmCell.
Variable sequences : mat.
Variable non_homogeneous_mask_func : option MaskFunc.

(** The score rows of positions [i, i+1, ..., i+n-1], from the row before. *)
Fixpoint gamma_steps (gamma_val : vec) (i n : nat) : list vec :=
  match n with
  | O => []
  | S n' =>
      let gamma_val' :=
        viterbi_step gamma_val (nth i (emission_probs hmm_cell sequences) []) hmm_cell
          (apply_mask_func non_homogeneous_mask_func i (seq_lens sequences) hmm_cell) in
      gamma_val' :: gamma_steps gamma_val' (S i) n'
  end.

Definition gamma_init : vec :=
  vec_add (safe_log_vec (init_dist hmm_cell))
          (safe_log_vec (nth 0 (emission_probs hmm_cell sequences) [])).

Definition gamma_table : mat :=
  gamma_init :: gamma_steps gamma_init 1 (length sequences - 1).

(** The states chosen for positions [0 .. i-1] when position [i] holds [q]. *)
Fixpoint backtrack (gamma : mat) (q i : nat) : list nat :=
  match i with
  | O => []
  | S i' =>
      let q' := viterbi_backtracking_step q (nth i' gamma []) hmm_cell
                  (apply_mask_func non_homogeneous_mask_func (i' + 1)
                     (seq_lens sequences) hmm_cell) in
      backtrack gamma q' i' ++ [q']
  end.

(** The decoded path as the recursion gives it: the arg-max of the last row
    and its chain of predecessors. *)
Definition decoded_path : list nat :=
  let gamma := gamma_table in
  let q := argmax (nth (length sequences - 1) gamma []) in
  backtrack gamma q (length sequences - 1) ++ [q].

(** The logarithm of the mask entry of a transition into position [i]
    (nothing is added when no mask function is supplied). *)
Definition mask_term (i q' q : nat) : R :=
  match non_homogeneous_mask_func with
  | None => 0
  | Some f => safe_log (entry (f i (seq_lens sequences) hmm_cell) q' q)
  end.

(** The candidates of the maximisation at position [i] for target state [q]:
    one term per predecessor [q']. *)
Definition trans_terms (i : nat) (gamma_prev : vec) (q : nat) : vec :=
  map (fun q' => entry (log_A_dense hmm_cell) q' q + mask_term i q' q + nth q' gamma_prev 0)
      (seq 0 (max_num_states hmm_cell)).

(** The log-probability of entering state [q] at position [i] from [prev]. *)
Definition step_score (i prev q : nat) : R :=
  entry (log_A_dense hmm_cell) prev q + mask_term i prev q
  + safe_log (entry (emission_probs hmm_cell sequences) i q).

Fixpoint path_score_from (prev i : nat) (rest : list nat) : R :=
  match rest with
  | [] => 0
  | q :: rest' => step_score i prev q + path_score_from q (S i) rest'
  end.

(** The log-probability of a state path: initial, transition and emission
    log-probabilities summed along it. *)
Definition path_score (path : list nat) : R :=
  match path with
  | [] => 0
  | q0 :: rest =>
      safe_log (nth q0 (init_dist hmm_cell) 0)
      + safe_log (entry (emission_probs hmm_cell sequences) 0 q0)
      + path_score_from q0 1 rest
  end.

(** The log-probability of the first [i + 1] states of a path. *)
Fixpoint prefix_score (path : list nat) (i : nat) : R :=
  match i with
  | O =>
      safe_log (nth (nth 0 path 0%nat) (init_dist hmm_cell) 0)
      + safe_log (entry (emission_probs hmm_cell sequences) 0 (nth 0 path 0%nat))
  | S i' =>
      prefix_score path i' + step_score (S i') (nth i' path 0%nat) (nth (S i') path 0%nat)
  end.

(** Shapes the decoder relies on. *)
Definition cell_wf : Prop :=
  (1 <= max_num_states hmm_cell)%nat
  /\ (Z.of_nat (max_num_states hmm_cell) <= 32768)%Z
  /\ is_mat (max_num_states hmm_cell) (max_num_states hmm_cell) (log_A_dense hmm_cell)
  /\ length (init_dist hmm_cell) = max_num_states hmm_cell.

Definition input_wf : Prop :=
  (1 <= length sequences)%nat
  /\ is_mat (length sequences) (max_num_states hmm_cell)
       (emission_probs hmm_cell sequences).

Definition mask_wf : Prop :=
  match non_homogeneous_mask_func with
  | None => True
  | Some f =>
      forall i sl, is_mat (max_num_states hmm_cell) (max_num_states hmm_cell) (f i sl hmm_cell)
  end.

End ViterbiReference.

(** *** The emission matrix *)

(** The kernels of an emitter have the shapes that [build] gives them: one
    [length x s] emission kernel and one insertion kernel of width [s] per
    model, over a non-empty alphabet, and [max_num_states] is at least the
    number [2 * length + 3] of states of every model. *)
Definition emitter_wf (self : Emitter.ProfileHMMEmitter) : Prop :=
  (1 <= Emitter.alphabet_size self)%nat
  /\ length (Emitter.emission_kernel self) = length (Emitter.length self)
  /\ length (Emitter.insertion_kernel self) = length (Emitter.length self)
  /\ forall k, (k < length (Emitter.length self))%nat ->
       length (nth k (Emitter.emission_kernel self) []) = nth k (Emitter.length self) 0%nat
       /\ Forall (fun row => length row = Emitter.alphabet_size self)
                 (nth k (Emitter.emission_kernel self) [])
       /\ length (nth k (Emitter.insertion_kernel self) []) = Emitter.alphabet_size self
       /\ (2 * nth k (Emitter.length self) 0%nat + 3 <= Emitter.max_num_states self)%nat.

(** The matrix that [make_B] builds for one model: the softmax rows with a
    zero for the terminal symbol, the end-state row, and the zero padding. *)
Definition padded_emission_matrix (s max_num_states : nat) (em : mat) (ins : vec)
    (length : nat) : mat :=
  (map (fun row => Emitter.softmax row ++ [0]) ([ins] ++ em ++ repeat ins (length + 1))
   ++ [one_hot s (s + 1)])
  ++ repeat (repeat 0 (s + 1)) (max_num_states - (List.length em + length + 3)).

(** Two models over a two-letter alphabet, of lengths 1 and 0, padded to
    five states. *)
Definition example_emitter : Emitter.ProfileHMMEmitter :=
  {| Emitter.alphabet_size := 2;
     Emitter.emission_kernel := [[[0; 1]]; []];
     Emitter.insertion_kernel := [[0; 0]; [1; 0]];
     Emitter.length := [1%nat; 0%nat];
     Emitter.max_num_states := 5 |}.

(** *** Small concrete models *)

(** A two-state model over the alphabet [{0, terminal}]: state 0 emits the
    symbol 0 and never leaves, state 1 is the end state and emits the
    terminal symbol.  The emission probabilities come from the emitter's
    matrix product with [B = [[1, 0], [0, 1]]]; zero transition
    probabilities carry the logarithm [-1000]. *)
Definition absorbing_cell : Viterbi.HmmCell :=
  {| Viterbi.max_num_states := 2;
     Viterbi.dim := 2;
     Viterbi.log_A_dense := [[0; -1000]; [-1000; 0]];
     Viterbi.init_dist := [1; 0];
     Viterbi.emission_probs := Emitter.call [[1; 0]; [0; 1]] |}.

(** A two-state model with uniform initial and transition probabilities
    and the same emissions. *)
Definition uniform_cell : Viterbi.HmmCell :=
  {| Viterbi.max_num_states := 2;
     Viterbi.dim := 2;
     Viterbi.log_A_dense := [[ln (/ 2); ln (/ 2)]; [ln (/ 2); ln (/ 2)]];
     Viterbi.init_dist := [/ 2; / 2];
     Viterbi.emission_probs := Emitter.call [[1; 0]; [0; 1]] |}.

(** The mask produced by [f] allows exactly the transitions of [path]:
    at every position [i >= 1] the entry of [(path[i-1], path[i])] is 1 and
    every other entry is 0. *)
Definition mask_only_path (hmm_cell : Viterbi.HmmCell) (sequences : mat)
    (f : Viterbi.MaskFunc) (path : list nat) : Prop :=
  forall i q' q : nat,
    (1 <= i < length sequences)%nat ->
    (q' < Viterbi.max_num_states hmm_cell)%nat ->
    (q < Viterbi.max_num_states hmm_cell)%nat ->
    entry (f i (Viterbi.seq_lens sequences) hmm_cell) q' q =
      if (Nat.eqb q' (nth (i - 1) path 0%nat) && Nat.eqb q (nth i path 0%nat))%bool
      then 1 else 0.

(** A state path over the positions of [sequences]. *)
Definition valid_path (hmm_cell : Viterbi.HmmCell) (sequences : mat) (path : list nat) : Prop :=
  length path = length sequences
  /\ Forall (fun q => (q < Viterbi.max_num_states hmm_cell)%nat) path.

(** The states [r, r+1, ...] of the cell are padding: they carry no initial,
    emission or transition mass, so the logarithm of each of their transition
    entries is at most the sentinel [-1000], which no entry of the log
    transition matrix goes below. *)
Definition padding_from (hmm_cell : Viterbi.HmmCell) (sequences : mat) (r : nat) : Prop :=
  (1 <= r <= Viterbi.max_num_states hmm_cell)%nat
  /\ (forall q' q, (q' < Viterbi.max_num_states hmm_cell)%nat ->
                   (q < Viterbi.max_num_states hmm_cell)%nat ->
                   -1000 <= entry (Viterbi.log_A_dense hmm_cell) q' q)
  /\ (forall q' p, (q' < Viterbi.max_num_states hmm_cell)%nat ->
                   (r <= p < Viterbi.max_num_states hmm_cell)%nat ->
                   entry (Viterbi.log_A_dense hmm_cell) q' p <= -1000)
  /\ (forall p q, (r <= p < Viterbi.max_num_states hmm_cell)%nat ->
                  (q < Viterbi.max_num_states hmm_cell)%nat ->
                  entry (Viterbi.log_A_dense hmm_cell) p q <= -1000)
  /\ (forall p, (r <= p < Viterbi.max_num_states hmm_cell)%nat ->
                nth p (Viterbi.init_dist hmm_cell) 0 = 0)
  /\ (forall i p, (i < length sequences)%nat ->
                  (r <= p < Viterbi.max_num_states hmm_cell)%nat ->
                  entry (Viterbi.emission_probs hmm_cell sequences) i p = 0).

(** Modelled from the spec: the cell that pads a model to a larger state
    bound is not part of the sources.  Following the data model of the
    specification (padding states carry zero probability mass: the initial
    distribution is zero on padding, the padded rows and columns of the
    transition operator leave no mass, the emitter pads with zero rows),
    [pad_cell hmm_cell k] appends [k] states with initial and emission
    probability 0 and log transition entries [safe_log 0 = -1000]. *)
Definition pad_cell (hmm_cell : Viterbi.HmmCell) (k : nat) : Viterbi.HmmCell :=
  {| Viterbi.max_num_states := Viterbi.max_num_states hmm_cell + k;
     Viterbi.dim := Viterbi.dim hmm_cell;
     Viterbi.log_A_dense :=
       map (fun row => row ++ repeat (-1000) k) (Viterbi.log_A_dense hmm_cell)
       ++ repeat (repeat (-1000) (Viterbi.max_num_states hmm_cell + k)) k;
     Viterbi.init_dist := Viterbi.init_dist hmm_cell ++ repeat 0 k;
     Viterbi.emission_probs :=
       fun sequences =>
         map (fun row => row ++ repeat 0 k) (Viterbi.emission_probs hmm_cell sequences) |}.

(** A one-state model padded to two states. *)
Definition padded_cell : Viterbi.HmmCell :=
  {| Viterbi.max_num_states := 2;
     Viterbi.dim := 1;
     Viterbi.log_A_dense := [[0; -1000]; [-1000; -1000]];
     Viterbi.init_dist := [1; 0];
     Viterbi.emission_probs := Emitter.call [[1]; [0]] |}.

(** *** The forward and backward recursions on probabilities *)

(** Modelled from the spec: the recurrent cell that owns the transition
    operator and computes the forward and backward variables is not part of
    the sources.  Following the data model of the specification, a model owns
    a dense transition operator [A] next to the initial distribution and the
    emissions that the decoder reads; the cell holds the safe logarithm of
    [A] as [log_A_dense]. *)
Record Model := {
  model_cell : Viterbi.HmmCell;
  model_A : mat
}.

Definition num_states (m : Model) : nat := Viterbi.max_num_states (model_cell m).

Definition emissions (m : Model) (sequences : mat) : mat :=
  Viterbi.emission_probs (model_cell m) sequences.

Definition model_wf (m : Model) : Prop :=
  cell_wf (model_cell m)
  /\ is_mat (num_states m) (num_states m) (model_A m)
  /\ Viterbi.log_A_dense (model_cell m) = safe_log_mat (model_A m).

(** Modelled from the spec: the construction that pads a model to a larger
    state bound is not part of the sources.  The padded rows and columns of
    the transition operator are zero, and the cell is padded by [pad_cell]. *)
Definition pad_model (m : Model) (k : nat) : Model :=
  {| model_cell := pad_cell (model_cell m) k;
     model_A :=
       map (fun row => row ++ repeat 0 k) (model_A m)
       ++ repeat (repeat 0 (num_states m + k)) k |}.

(** The sum of [f 0], ..., [f (n - 1)]. *)
Definition sum_states (n : nat) (f : nat -> R) : R := vec_sum (map f (seq 0 n)).

(** Modelled from the spec: the forward recursion of the cell is not part of
    the sources.  The forward variable of position [i] is the joint
    probability of the state at [i] and the observed prefix up to [i]
    (section 3); the recursion of section 4.2 is written on the probabilities
    themselves, the exponentials of its log values, where a zero mass needs no
    logarithm: [alpha_0(q) = init(q) * emission_0(q)] and
    [alpha_i(q) = (sum over q' of alpha_(i-1)(q') * A(q', q)) * emission_i(q)]. *)
Fixpoint forward_var (m : Model) (sequences : mat) (i : nat) : vec :=
  match i with
  | O =>
      map (fun q => nth q (Viterbi.init_dist (model_cell m)) 0
                    * entry (emissions m sequences) 0 q)
          (seq 0 (num_states m))
  | S i' =>
      let alpha := forward_var m sequences i' in
      map (fun q => sum_states (num_states m)
                      (fun q' => nth q' alpha 0 * entry (model_A m) q' q)
                    * entry (emissions m sequences) (S i') q)
          (seq 0 (num_states m))
  end.

(** Modelled from the spec: the likelihood is read from the forward pass of
    the cell, which is not part of the sources.  By the invariant of section
    3 it is the sum of the forward variable over the [r] real states at the
    final position. *)
Definition likelihood (m : Model) (sequences : mat) (r : nat) : R :=
  vec_sum (firstn r (forward_var m sequences (length sequences - 1))).

(** Modelled from the spec: the backward recursion of the reversed cell is
    not part of the sources.  [backward_from_end m sequences n] is the
    backward variable of position [length sequences - 1 - n]: one at the last
    position, and before it
    [beta_i(q) = sum over q' of A(q, q') * emission_(i+1)(q') * beta_(i+1)(q')]. *)
Fixpoint backward_from_end (m : Model) (sequences : mat) (n : nat) : vec :=
  match n with
  | O => repeat 1 (num_states m)
  | S n' =>
      let beta := backward_from_end m sequences n' in
      let next := (length sequences - 1 - n')%nat in
      map (fun q => sum_states (num_states m)
                      (fun q' => entry (model_A m) q q'
                                 * entry (emissions m sequences) next q'
                                 * nth q' beta 0))
          (seq 0 (num_states m))
  end.

Definition backward_var (m : Model) (sequences : mat) (i : nat) : vec :=
  backward_from_end m sequences (length sequences - 1 - i).

(** Modelled from the spec: the posterior of section 4.5,
    [exp(forward(i, q) + backward(i, q) - loglik)], on probabilities. *)
Definition posterior (m : Model) (sequences : mat) (r i q : nat) : R :=
  nth q (forward_var m sequences i) 0 * nth q (backward_var m sequences i) 0
  / likelihood m sequences r.

(** The absorbing model with its transition operator. *)
Definition absorbing_model : Model :=
  {| model_cell := absorbing_cell; model_A := [[1; 0]; [0; 1]] |}.

(** The mask that allows the transition from state 1 to state 1 only. *)
Definition only_1_to_1 : Viterbi.MaskFunc := fun _ _ _ => [[0; 0]; [0; 1]].

(** The mask that allows the transition from state 0 to state 0 only. *)
Definition only_0_to_0 : Viterbi.MaskFunc := fun _ _ _ => [[1; 0]; [0; 0]].

(** The specification's mask enforcement: whenever the mask allows only the
    transitions of a designated path, decoding returns that path. *)
Definition mask_enforcement_spec : Prop :=
  forall (hmm_cell : Viterbi.HmmCell) (input : Viterbi.SeqInput)
         (f : Viterbi.MaskFunc) (path : list nat),
    let sequences := Viterbi.encode input hmm_cell in
    cell_wf hmm_cell ->
    input_wf hmm_cell sequences ->
    mask_wf hmm_cell (Some f) ->
    valid_path hmm_cell sequences path ->
    mask_only_path hmm_cell sequences f path ->
    Viterbi.viterbi input hmm_cell (Some f) = Some (map Z.of_nat path).

(** *** The posterior pass *)

(** A stateless cell whose step returns its emissions as the scaled variables
    and a zero scaling factor. *)
Definition copy_cell (x : vec) (s : unit) (init : bool) : vec * unit :=
  (x ++ [0], s).

(** *** Masks of the decoder *)

(** The mask that allows every transition of the cell. *)
Definition all_allowed : Viterbi.MaskFunc :=
  fun _ _ hmm_cell =>
    repeat (repeat 1 (Viterbi.max_num_states hmm_cell)) (Viterbi.max_num_states hmm_cell).

(** *** Transitions that a mask forbids *)

(** The number of transitions of [rest], entered from [prev] at position
    [i], that are not the transition of [path] at their position. *)
Fixpoint forbidden_from (path : list nat) (prev i : nat) (rest : list nat) : nat :=
  match rest with
  | [] => 0
  | q :: rest' =>
      (if (Nat.eqb prev (nth (i - 1) path 0%nat) && Nat.eqb q (nth i path 0%nat))%bool
       then 0 else 1)
      + forbidden_from path q (S i) rest'
  end.

(** The number of transitions of the path [other] that a mask allowing only
    the transitions of [path] forbids: the positions [i >= 1] at which
    [(other[i-1], other[i])] differs from [(path[i-1], path[i])]. *)
Definition forbidden_steps (path other : list nat) : nat :=
  match other with
  | [] => 0
  | q0 :: rest => forbidden_from path q0 1 rest
  end.

(** A two-state model over the alphabet [{0, terminal}] in which the states
    cannot be told apart: uniform initial and transition probabilities, and
    both states emit either symbol with probability 1/2. *)
Definition fair_cell : Viterbi.HmmCell :=
  {| Viterbi.max_num_states := 2;
     Viterbi.dim := 2;
     Viterbi.log_A_dense := [[ln (/ 2); ln (/ 2)]; [ln (/ 2); ln (/ 2)]];
     Viterbi.init_dist := [/ 2; / 2];
     Viterbi.emission_probs := Emitter.call [[/ 2; / 2]; [/ 2; / 2]] |}.

(** *** Kernels that differ by a constant per row *)

(** [row'] is [row] with one constant added to every logit. *)
Definition shifted (row row' : vec) : Prop :=
  exists c : R, row' = map (fun x => x + c) row.

(** ** The loss of the layer ([MsaHmmLayer.py], [apply_sequence_weights]) *)

Module LayerLoss.

Import Tensor.

(** [tf.gather(params, indices)] on a rank-1 tensor; an index outside the
    tensor raises (the behaviour on CPU). *)
Definition tf_gather (params : vec) (indices : list nat) : option vec :=
  traverse (nth_error params) indices.

(** An element-wise operation on two rank-1 tensors with broadcasting: the
    lengths agree, or one of them is 1; other shapes raise. *)
Definition broadcast_vec (f : R -> R -> R) (u v : vec) : option vec :=
  if (length u =? length v)%nat then Some (zip_with f u v)
  else match u, v with
       | [a], _ => Some (map (fun b => f a b) v)
       | _, [b] => Some (map (fun a => f a b) u)
       | _, _ => None
       end.

(** The same on rank-2 tensors, axis by axis. *)
Definition broadcast_mat (f : R -> R -> R) (m n : mat) : option mat :=
  if (length m =? length n)%nat
  then traverse (fun '(u, v) => broadcast_vec f u v) (combine m n)
  else match m, n with
       | [u], _ => traverse (fun v => broadcast_vec f u v) n
       | _, [v] => traverse (fun u => broadcast_vec f u v) m
       | _, _ => None
       end.

(** [tf.reduce_mean] over all entries of a rank-1 tensor. *)
Definition reduce_mean (v : vec) : R := vec_sum v / INR (length v).

(** What [apply_sequence_weights] returns: the log-likelihoods per model and
    sequence, or a single number when [aggregate] is set. *)
Inductive Loglik :=
| PerSequence (loglik : mat)
| Aggregated (loglik : R).

(** [apply_sequence_weights(loglik, indices, aggregate)]; [sequence_weights]
    is the attribute of the layer, and [indices = None] is the default of
    [call], which [tf.gather] does not accept. *)
Definition apply_sequence_weights (sequence_weights : option vec) (loglik : mat)
    (indices : option (list (list nat))) (aggregate : bool) : option Loglik :=
  match sequence_weights with
  | Some sequence_weights =>
      idx <- indices ;;
      weights <- traverse (tf_gather sequence_weights) idx ;;
      loglik <- broadcast_mat Rmult loglik weights ;;
      if aggregate
      then
        loglik <- broadcast_vec Rdiv (map vec_sum loglik) (map vec_sum weights) ;;
        Some (Aggregated (reduce_mean loglik))
      else Some (PerSequence loglik)
  | None =>
      if aggregate
      then Some (Aggregated (reduce_mean (concat loglik)))
      else Some (PerSequence loglik)
  end.

End LayerLoss.

(** ** The forward and backward passes on one batch row ([MsaHmmLayer.py]) *)

Module LayerRows.

Import Tensor Layer.

Section Passes.

(** The cells are the parameters of [Layer.state_posterior_row]: a call is a
    function of the emissions of one position, the recurrent state and the
    [init] flag.  The definitions follow one batch row through
    [forward_recursion] and [backward_recursion] for [parallel_factor = 1],
    after the reshape of the emissions. *)
Variables FState BState : Type.
Variable cell : vec -> FState -> bool -> vec * FState.
Variable reverse_cell : vec -> BState -> bool -> vec * BState.
Variable initial_state : FState.
Variable rev_initial_state : BState.
Variable loglik_of : FState -> R.

(** [t[..., :-1] + t[..., -1:]]: the scaled values plus the scaling factor. *)
Definition unscale (row : vec) : vec :=
  map (fun x => x + last row 0) (removelast row).

(** A call of a [tf.keras.layers.RNN] layer: Keras reads the first time step
    of its input before it enters the loop, so an empty time axis raises. *)
Definition keras_rnn {S : Type} (step : vec -> S -> bool -> vec * S)
    (inputs : list vec) (state : S) : result (list vec * S) :=
  match inputs with
  | [] => Raise ShapeError
  | _ :: _ => Ok (rnn step inputs state)
  end.

(** The body of [forward_recursion]: the forward variables of every position
    and the log-likelihood kept in the final state. *)
Definition forward_row (emission_probs : list vec) : result (list vec * R) :=
  let seq_len := List.length emission_probs in
  match emission_probs with
  | [] => Raise ShapeError
  | first :: rest =>
      let (forward_1, step_1_state) := cell first initial_state true in
      rbind (keras_rnn cell rest step_1_state) (fun '(forward, final_state) =>
      let forward := forward_1 :: forward in
      rbind (reshape_rows (concat forward) seq_len) (fun forward =>
      let forward_result := map unscale forward in
      Ok (forward_result, loglik_of final_state)))
  end.

(** The body of [backward_recursion]: the layer [rnn_backward] reads the
    positions before the last one from the last to the first
    ([go_backwards=True]) and returns its outputs in that order; the result
    is put back into the order of the positions by [tf.reverse]. *)
Definition backward_row (emission_probs : list vec) : result (list vec) :=
  let seq_len := List.length emission_probs in
  match emission_probs with
  | [] => Raise ShapeError
  | first :: _ =>
      let last_pos := last emission_probs first in
      let (backward_1, step_1_state) := reverse_cell last_pos rev_initial_state true in
      rbind (keras_rnn reverse_cell (rev (removelast emission_probs)) step_1_state)
        (fun '(backward, _) =>
      let backward := backward_1 :: backward in
      rbind (reshape_rows (concat backward) seq_len) (fun backward =>
      let backward_result := map unscale backward in
      Ok (rev backward_result)))
  end.

End Passes.

Arguments forward_row {FState} cell initial_state loglik_of emission_probs.
Arguments backward_row {BState} reverse_cell rev_initial_state emission_probs.

End LayerRows.

(** ** Calls with keyword arguments *)

Module Python.

Import String.

(** The parameters of a [def] that has neither [*args] nor [**kwargs], in
    their order; the first [required] of them have no default. *)
Record Signature := {
  params : list string;
  required : nat
}.

(** Python binds the arguments of a call before the body runs: the
    positional arguments to the first parameters, every keyword to a
    parameter of that name that is not bound yet.  The call raises
    [TypeError] when there are too many positional arguments, when a keyword
    names no such parameter, or when a parameter without a default is left
    unbound. *)
Definition accepts (sig : Signature) (positional : nat) (keywords : list string) : bool :=
  (positional <=? List.length (params sig))%nat
  && forallb (fun k => existsb (String.eqb k) (skipn positional (params sig))) keywords
  && forallb (fun p => existsb (String.eqb p) keywords)
       (skipn positional (firstn (required sig) (params sig))).

End Python.

(** ** Batches and datasets ([Training.py]) *)

Module Training.

(** What the batch generators read from the dataset (the class
    [SequenceDataset] is outside this development): the length of every
    sequence and the symbols of a sequence. *)
Record FastaFile := {
  seq_lens : list nat;
  get_raw_seq : nat -> list nat
}.

(** Storing an integer into a numpy array of dtype [uint8]. *)
Definition to_uint8 (x : nat) : nat := x mod 256.

(** [a[indices]] with a list of indices; an index outside the array raises. *)
Definition fancy_index {A : Type} (a : list A) (indices : list nat) : option (list A) :=
  traverse (nth_error a) indices.

(** [np.max] of a rank-1 array; the empty array raises. *)
Definition np_max (l : list nat) : option nat :=
  match l with
  | [] => None
  | _ :: _ => Some (list_max l)
  end.

(** [row[:n] = values] on a [uint8] row: the values have the length of the
    slice, or there is one value, which is broadcast; other lengths raise. *)
Definition assign_slice (row : list nat) (n : nat) (values : list nat)
  : option (list nat) :=
  let n := Nat.min n (length row) in
  if (length values =? n)%nat
  then Some (map to_uint8 values ++ skipn n row)
  else match values with
       | [v] => Some (repeat (to_uint8 v) n ++ skipn n row)
       | _ => None
       end.

(** The loop [for i, j in enumerate(indices)] of the batch generators. *)
Fixpoint fill_rows (fasta_file : FastaFile) (batch : list (list nat)) (i : nat)
    (indices : list nat) : option (list (list nat)) :=
  match indices with
  | [] => Some batch
  | j :: rest =>
      len <- nth_error (seq_lens fasta_file) j ;;
      row <- nth_error batch i ;;
      row <- assign_slice row len (get_raw_seq fasta_file j) ;;
      batch <- Tensor.set_nth i row batch ;;
      fill_rows fasta_file batch (S i) rest
  end.

(** [DefaultBatchGenerator.__call__]: every row holds a sequence followed by
    the terminal symbol [alphabet_size] up to the width [max_len + 1].  The
    array has dtype [uint8]; an [alphabet_size] that does not fit it is
    refused (by NumPy 2; earlier versions promote the array instead, which is
    not followed here). *)
Definition DefaultBatchGenerator (fasta_file : FastaFile) (alphabet_size : nat)
    (indices : list nat) : option (list (list nat) * list nat) :=
  lens <- fancy_index (seq_lens fasta_file) indices ;;
  max_len <- np_max lens ;;
  if (255 <? alphabet_size)%nat then None
  else
    let batch := repeat (repeat alphabet_size (max_len + 1)) (length indices) in
    batch <- fill_rows fasta_file batch 0 indices ;;
    Some (batch, indices).

(** [ds.batch(batch_size)] on a finite dataset: consecutive groups of
    [batch_size] elements, the last one possibly smaller.  Every group takes
    at least one element, so [fuel = length l] groups suffice. *)
Fixpoint batch_loop {A : Type} (fuel batch_size : nat) (l : list A) : list (list A) :=
  match fuel with
  | O => []
  | S fuel' =>
      match l with
      | [] => []
      | _ :: _ => firstn batch_size l :: batch_loop fuel' batch_size (skipn batch_size l)
      end
  end.

Definition ds_batch {A : Type} (batch_size : nat) (l : list A) : option (list (list A)) :=
  if (batch_size =? 0)%nat then None else Some (batch_loop (length l) batch_size l).

(** [make_dataset(indices, batch_generator, batch_size, shuffle=False)], as
    the list of elements that iterating over the dataset yields: the
    generator applied to every batch of indices, paired with the batch
    [[0.]] of the endless dataset [ds_y].  With [shuffle=True] the dataset is
    random and endless and is not given here. *)
Definition make_dataset {X : Type} (indices : list nat)
    (batch_generator : list nat -> option X) (batch_size : nat)
  : option (list (X * list R)) :=
  ds <- ds_batch batch_size indices ;;
  traverse (fun i => x <- batch_generator i ;; Some (x, [0])) ds.

Import String.

(** [def make_dataset(indices, batch_generator, batch_size=512, shuffle=True)]. *)
Definition make_dataset_signature : Python.Signature :=
  {| Python.params := ["indices"; "batch_generator"; "batch_size"; "shuffle"]%string;
     Python.required := 2 |}.

(** The keyword argument of the call [make_dataset(indices, batch_generator,
    batch_size, shuffle=True)] in [fit_model], behind three positional
    arguments. *)
Definition fit_model_keywords : list string := ["shuffle"]%string.

End Training.

(** ** Decoding a whole dataset ([Viterbi.py], [get_state_seqs_max_lik]) *)

Module Decode.

Import Tensor Viterbi String.

(** The exceptions that end a call of [get_state_seqs_max_lik];
    [OtherError] stands for every exception raised by the dataset or by the
    decoding loop (a bad index, shapes that do not fit, an unbound name). *)
Inductive exception :=
| AttributeError
| TypeError
| OtherError.

Inductive outcome (A : Type) :=
| Returns (a : A)
| Raises (e : exception).

Arguments Returns {A} a.
Arguments Raises {A} e.

(** One element of the dataset [ds]: the symbol indices of the batch, of
    shape [(b, num_models, l)], and the rows of the output they belong to. *)
Record Batch := {
  inputs : list (list (list nat));
  batch_indices : list nat
}.

(** [crop_long_seqs]: a length, or [math.inf]. *)
Inductive CropLength :=
| crop_at (n : nat)
| math_inf.

(** What the function uses of the batch generator object: the attribute
    [crop_long_seqs] and the attribute [return_only_sequences], each absent
    ([None]) when the object has no attribute of that name, and [__call__],
    which may read [crop_long_seqs]. *)
Record BatchGenerator := {
  crop_long_seqs : option CropLength;
  return_only_sequences : option bool;
  call : option CropLength -> list nat -> option Batch
}.

(** [batch_generator.crop_long_seqs = c]. *)
Definition set_crop_long_seqs (g : BatchGenerator) (c : CropLength) : BatchGenerator :=
  {| crop_long_seqs := Some c;
     return_only_sequences := return_only_sequences g;
     call := call g |}.

(** [tf.transpose(inputs, [1,0,2])] followed by
    [tf.gather(seq, model_ids, axis=0)]; an id outside the models raises. *)
Definition gather_models (num_models : nat) (model_ids : list nat)
    (inputs : list (list (list nat))) : option (list (list SeqInput)) :=
  let seq := map (fun k => map (fun per_seq => Indices (nth k per_seq [])) inputs)
                 (List.seq 0 num_models) in
  traverse (fun m => nth_error seq m) model_ids.

(** [call_viterbi_single] with [encoder = None]. *)
Definition call_viterbi_single (hmm_cells : list HmmCell) (model_ids : list nat)
    (non_homogeneous_mask_func : option MaskFunc) (inputs : list (list (list nat)))
  : option (list (list (list Z))) :=
  seq <- gather_models (List.length hmm_cells) model_ids inputs ;;
  viterbi_batch seq hmm_cells non_homogeneous_mask_func.

(** [row[:l] = values] on a [uint16] row. *)
Definition assign_prefix (row values : list Z) : list Z :=
  map to_uint16 values ++ skipn (List.length values) row.

(** [plane[batch_indices, :l] = values] for the plane of one model. *)
Fixpoint assign_rows (plane : list (list Z)) (batch_indices : list nat)
    (values : list (list Z)) : option (list (list Z)) :=
  match batch_indices, values with
  | idx :: batch_indices', v :: values' =>
      row <- nth_error plane idx ;;
      plane <- set_nth idx (assign_prefix row v) plane ;;
      assign_rows plane batch_indices' values'
  | _, _ => Some plane
  end.

(** [state_seqs_max_lik[:, batch_indices, :l] = state_seqs_max_lik_batch]:
    the shapes must agree ([l] may not exceed the width of the output). *)
Definition assign_batch (seq_len : nat) (state_seqs_max_lik : list (list (list Z)))
    (batch_indices : list nat) (state_seqs_max_lik_batch : list (list (list Z)))
  : option (list (list (list Z))) :=
  if negb ((List.length state_seqs_max_lik_batch =? List.length state_seqs_max_lik)%nat
           && forallb (fun plane =>
                 (List.length plane =? List.length batch_indices)%nat
                 && forallb (fun row => (List.length row <=? seq_len)%nat) plane)
               state_seqs_max_lik_batch)
  then None
  else traverse (fun '(plane, values) => assign_rows plane batch_indices values)
         (combine state_seqs_max_lik state_seqs_max_lik_batch).

(** The loop [for i, q in enumerate(hmm_cell.num_states)]. *)
Fixpoint fill_terminal (state_seqs_max_lik : list (list (list Z))) (i : nat)
    (num_states : list nat) : option (list (list (list Z))) :=
  match num_states with
  | [] => Some state_seqs_max_lik
  | q :: rest =>
      plane <- nth_error state_seqs_max_lik i ;;
      state_seqs_max_lik <-
        set_nth i (map (map (fun _ => to_uint16 (Z.of_nat q - 1))) plane) state_seqs_max_lik ;;
      fill_terminal state_seqs_max_lik (S i) rest
  end.

(** The loop over the dataset, without an encoder.  [call_viterbi] is defined
    only under [if encoder:], so the branch of a generator that does not
    return only sequences raises (the name is not bound). *)
Fixpoint decode_batches (only_sequences : bool) (hmm_cells : list HmmCell)
    (model_ids : list nat) (non_homogeneous_mask_func : option MaskFunc) (seq_len : nat)
    (state_seqs_max_lik : list (list (list Z))) (ds : list Batch)
  : option (list (list (list Z))) :=
  match ds with
  | [] => Some state_seqs_max_lik
  | batch :: ds' =>
      state_seqs_max_lik_batch <-
        (if only_sequences
         then call_viterbi_single hmm_cells model_ids non_homogeneous_mask_func
                (inputs batch)
         else None) ;;
      state_seqs_max_lik <-
        assign_batch seq_len state_seqs_max_lik (batch_indices batch)
          state_seqs_max_lik_batch ;;
      decode_batches only_sequences hmm_cells model_ids non_homogeneous_mask_func seq_len
        state_seqs_max_lik ds'
  end.

(** The body of [get_state_seqs_max_lik] below the call of [make_dataset],
    on the dataset [ds] that the call returns. *)
Definition decode_dataset (data_seq_lens : list nat) (batch_generator : BatchGenerator)
    (indices : list nat) (hmm_cells : list HmmCell) (num_states model_ids : list nat)
    (non_homogeneous_mask_func : option MaskFunc) (ds : list (Batch * list R))
  : option (list (list (list Z))) :=
  lens <- Training.fancy_index data_seq_lens indices ;;
  seq_len <- Training.np_max (map (fun n => n + 1)%nat lens) ;;
  let state_seqs_max_lik :=
    repeat (repeat (repeat 0%Z seq_len) (List.length indices)) (List.length hmm_cells) in
  state_seqs_max_lik <- fill_terminal state_seqs_max_lik 0 num_states ;;
  let only_sequences :=
    match return_only_sequences batch_generator with
    | Some b => b
    | None => false
    end in
  decode_batches only_sequences hmm_cells model_ids non_homogeneous_mask_func seq_len
    state_seqs_max_lik (map fst ds).

(** The keyword arguments of the call [train.make_dataset(indices,
    batch_generator, batch_size, shuffle=False, bucket_by_seq_length=True,
    model_lengths=hmm_cell.length)], behind three positional arguments. *)
Definition make_dataset_keywords : list string :=
  ["shuffle"; "bucket_by_seq_length"; "model_lengths"]%string.

(** [get_state_seqs_max_lik] without an encoder, with the batch generator it
    leaves behind.  [data_seq_lens] is [data.seq_lens], [num_states] is
    [hmm_cell.num_states], [num_gpu] the number of logical GPU devices.
    The cell is outside this development; [hmm_cell.recurrent_init()] only
    prepares its tables and is taken to return.

    The function reads the attribute [crop_long_seqs] of the batch generator,
    sets it to [math.inf], and then calls
    [train.make_dataset(indices, batch_generator, batch_size, shuffle=False,
    bucket_by_seq_length=True, model_lengths=hmm_cell.length)].  The
    arguments are bound to the parameters of [make_dataset] in [Training.py]
    before its body runs; a call that is not accepted raises [TypeError], and
    nothing below it runs, the restoring of [crop_long_seqs] included. *)
Definition get_state_seqs_max_lik (data_seq_lens : list nat)
    (batch_generator : BatchGenerator) (indices : list nat) (batch_size num_gpu : nat)
    (hmm_cells : list HmmCell) (num_states model_ids : list nat)
    (non_homogeneous_mask_func : option MaskFunc)
  : BatchGenerator * outcome (list (list (list Z))) :=
  let num_devices := (num_gpu + (if (num_gpu =? 0)%nat then 1 else 0))%nat in
  let batch_size := (batch_size / num_devices)%nat in
  match crop_long_seqs batch_generator with
  | None => (batch_generator, Raises AttributeError)
  | Some old_crop_long_seqs =>
      let batch_generator := set_crop_long_seqs batch_generator math_inf in
      if negb (Python.accepts Training.make_dataset_signature 3 make_dataset_keywords)
      then (batch_generator, Raises TypeError)
      else
        match
          ds <- Training.make_dataset indices
                  (call batch_generator (crop_long_seqs batch_generator)) batch_size ;;
          decode_dataset data_seq_lens batch_generator indices hmm_cells num_states
            model_ids non_homogeneous_mask_func ds
        with
        | None => (batch_generator, Raises OtherError)
        | Some state_seqs_max_lik =>
            (set_crop_long_seqs batch_generator old_crop_long_seqs,
             Returns state_seqs_max_lik)
        end
  end.

(** The generators of [Training.py] as objects: neither
    [DefaultBatchGenerator] nor [OnlySequencesBatchGenerator] has an
    attribute [crop_long_seqs] or [return_only_sequences]. *)
Definition generator_object (call : list nat -> option Batch) : BatchGenerator :=
  {| crop_long_seqs := None;
     return_only_sequences := None;
     call := fun _ => call |}.

End Decode.

(** ** The frames of the logo animation ([Visualize.py], [make_logo_gif]) *)

Module Visualize.

(** [l[::step]]: the elements at the positions [0], [step], [2 * step], ...
    Every round takes one element, so [fuel = length l] rounds suffice. *)
Fixpoint every_nth {A : Type} (fuel step : nat) (l : list A) : list A :=
  match fuel with
  | O => []
  | S fuel' =>
      match l with
      | [] => []
      | x :: _ => x :: every_nth fuel' step (skipn step l)
      end
  end.

(** [l[:stop:step]] for a positive [step]; a zero step raises. *)
Definition slice_step {A : Type} (l : list A) (stop step : nat) : option (list A) :=
  if (step =? 0)%nat then None
  else Some (every_nth (length (firstn stop l)) step (firstn stop l)).

(** The choice of frames in [make_logo_gif], on the list of frames sorted by
    their number: with more than 201 frames, only frames of the first half
    are kept, at a regular step. *)
Definition select_frames {A : Type} (filenames : list A) : option (list A) :=
  if (100 <? length filenames / 2)%nat
  then slice_step filenames (length filenames / 2) (length filenames / 200)
  else Some filenames.

End Visualize.

(** ** The leaves of the ancestral tree ([TreeEmitter.py], [get_aux_loss]) *)

Module TreeEmitter.

Import Tensor.

(** The guard of the re-normalisation, [1e-16]. *)
Definition min_mass : R := / 10 ^ 16.

(** [leaves[..., :20]] divided by [tf.math.maximum(tf.reduce_sum(leaves,
    axis=-1, keepdims=True), 1e-16)], on the row of one state. *)
Definition renormalize (row : vec) : vec :=
  let leaves := firstn 20 row in
  map (fun x => x / Rmax (vec_sum leaves) min_mass) leaves.

End TreeEmitter.

(** ** Facts about [safe_log] *)

Section SafeLogFacts.

Lemma tiny_pos : 0 < tiny.
Proof.
  unfold tiny. apply Rinv_0_lt_compat. apply pow_lt. lra.
Qed.

Lemma pow2_gt_1 : 1 < 2 ^ 126.
Proof.
  apply Rlt_pow_R1; [lra | lia].
Qed.

Lemma tiny_lt_1 : tiny < 1.
Proof.
  unfold tiny. pose proof pow2_gt_1 as H.
  rewrite <- Rinv_1. apply Rinv_lt_contravar; lra.
Qed.

Lemma flush_subnormal_small x : Rabs x < tiny -> flush_subnormal x = 0.
Proof.
  intros H. unfold flush_subnormal. destruct (Rlt_dec (Rabs x) tiny); [reflexivity | contradiction].
Qed.

Lemma flush_subnormal_normal x : tiny <= Rabs x -> flush_subnormal x = x.
Proof.
  intros H. unfold flush_subnormal. destruct (Rlt_dec (Rabs x) tiny); [lra | reflexivity].
Qed.

Lemma zero_mask_0 : zero_mask 0 = 1.
Proof.
  unfold zero_mask. rewrite flush_subnormal_small by (rewrite Rabs_R0; apply tiny_pos).
  destruct (Req_dec_T 0 0); [reflexivity | contradiction].
Qed.

Lemma zero_mask_small x : Rabs x < tiny -> zero_mask x = 1.
Proof.
  intros H. unfold zero_mask. rewrite flush_subnormal_small by exact H.
  destruct (Req_dec_T 0 0); [reflexivity | contradiction].
Qed.

Lemma zero_mask_normal x : tiny <= Rabs x -> zero_mask x = 0.
Proof.
  intros H. unfold zero_mask. rewrite flush_subnormal_normal by exact H.
  pose proof tiny_pos as Hp.
  destruct (Req_dec_T x 0) as [-> | _]; [rewrite Rabs_R0 in H; lra | reflexivity].
Qed.

Lemma safe_log_zero : safe_log 0 = -1000.
Proof.
  unfold safe_log, safe_log_val, log_zero_val_default.
  rewrite zero_mask_0. ring.
Qed.

(** A subnormal input is read as zero. *)
Lemma safe_log_subnormal x : Rabs x < tiny -> safe_log x = -1000.
Proof.
  intros H. unfold safe_log, safe_log_val, log_zero_val_default.
  rewrite (zero_mask_small x H). ring.
Qed.

Lemma safe_log_unflushed x : tiny <= Rabs x -> safe_log x = ln (Rmax x tiny).
Proof.
  intros Hx. unfold safe_log, safe_log_val.
  rewrite (zero_mask_normal x Hx), (flush_subnormal_normal x Hx). ring.
Qed.

Lemma safe_log_normal x : tiny <= x -> safe_log x = ln x.
Proof.
  intros Hx. pose proof tiny_pos.
  rewrite safe_log_unflushed by (rewrite Rabs_right; lra).
  rewrite Rmax_left by lra. reflexivity.
Qed.

(** A negative input is clamped to [tiny] before the logarithm. *)
Lemma safe_log_clamped x : x <= - tiny -> safe_log x = ln tiny.
Proof.
  intros Hx. pose proof tiny_pos.
  rewrite safe_log_unflushed by (rewrite Rabs_left; lra).
  rewrite Rmax_right by lra. reflexivity.
Qed.

(** Every input is zero or subnormal, at least [tiny], or at most [- tiny]. *)
Lemma float_cases x : Rabs x < tiny \/ tiny <= x \/ x <= - tiny.
Proof.
  unfold Rabs. destruct (Rcase_abs x); destruct (Rlt_dec (- x) tiny);
    destruct (Rlt_dec x tiny); lra.
Qed.

Lemma safe_log_1 : safe_log 1 = 0.
Proof.
  pose proof tiny_lt_1.
  rewrite safe_log_normal by lra. apply ln_1.
Qed.

(** The clamp keeps every logarithm above the sentinel: [ln tiny > -1000]. *)
Lemma ln_tiny_bound : -1000 < ln tiny.
Proof.
  unfold tiny. rewrite ln_Rinv by (apply pow_lt; lra).
  rewrite ln_pow by lra.
  assert (Hln2 : ln 2 < 1).
  { rewrite <- ln_exp. apply ln_increasing; [lra |].
    pose proof (exp_ineq1 1). lra. }
  change (INR 126) with (IZR (Z.of_nat 126)) || rewrite INR_IZR_INZ.
  simpl. lra.
Qed.

(** [ln tiny = - 126 * ln 2] stays above [-126]. *)
Lemma ln_tiny_above : -126 < ln tiny.
Proof.
  unfold tiny. rewrite ln_Rinv by (apply pow_lt; lra).
  rewrite ln_pow by lra.
  assert (Hln2 : ln 2 < 1).
  { rewrite <- ln_exp. apply ln_increasing; [lra |].
    pose proof (exp_ineq1 1). lra. }
  change (INR 126) with (IZR (Z.of_nat 126)) || rewrite INR_IZR_INZ.
  simpl. lra.
Qed.

Lemma safe_log_lower x : -1000 <= safe_log x.
Proof.
  pose proof ln_tiny_bound. pose proof tiny_pos.
  destruct (float_cases x) as [Hs | [Hn | Hneg]].
  - rewrite safe_log_subnormal by exact Hs. lra.
  - rewrite safe_log_normal by exact Hn.
    destruct (Rle_lt_or_eq_dec _ _ Hn) as [Hlt | <-]; [| lra].
    pose proof (ln_increasing tiny x). lra.
  - rewrite safe_log_clamped by exact Hneg. lra.
Qed.

(** Probabilities (values in [0, 1]) have a non-positive safe logarithm. *)
Lemma safe_log_nonpos x : 0 <= x <= 1 -> safe_log x <= 0.
Proof.
  intros [H0 H1]. pose proof tiny_pos.
  destruct (float_cases x) as [Hs | [Hn | Hneg]].
  - rewrite safe_log_subnormal by exact Hs. lra.
  - rewrite safe_log_normal by exact Hn.
    destruct (Req_dec_T x 1) as [-> | Hne].
    + rewrite ln_1. lra.
    + pose proof (ln_increasing x 1). rewrite ln_1 in *. lra.
  - lra.
Qed.

Lemma safe_log_vec_nth v i : nth i (safe_log_vec v) (safe_log 0) = safe_log (nth i v 0).
Proof.
  unfold safe_log_vec. apply map_nth.
Qed.

End SafeLogFacts.

(** ** C4: what [safe_log] returns *)

(** C4 (as stated, refuted): [safe_log] does not return the true logarithm at
    every nonzero input.  The subnormal value [tiny / 2] is read as zero, so
    [safe_log] returns the sentinel [-1000] there, far below
    [ln (tiny / 2)]. *)
Lemma safe_log_spec_fails : ~ safe_log_spec.
Proof.
  intros H. destruct (H (tiny / 2)) as [_ Hnz].
  pose proof tiny_pos as Hp.
  assert (Hx : tiny / 2 <> 0) by lra.
  specialize (Hnz Hx).
  rewrite safe_log_subnormal in Hnz by (rewrite Rabs_right; lra).
  pose proof ln_tiny_bound as Hb.
  assert (Hhalf : ln (tiny / 2) = ln tiny - ln 2).
  { unfold Rdiv. rewrite ln_mult by lra. rewrite ln_Rinv by lra. ring. }
  assert (Hln2 : ln 2 < 1).
  { rewrite <- ln_exp. apply ln_increasing; [lra |].
    pose proof (exp_ineq1 1). lra. }
  pose proof ln_tiny_above as Ha. lra.
Qed.

(** C4 (amended): for every element [x], [safe_log] returns the finite
    sentinel [-1000] when [x] is zero or subnormal (of magnitude below
    [tiny], the smallest normal float32, and so read as zero), the true
    logarithm [ln x] when [x] is at least [tiny], and the clamped value
    [ln tiny] when [x] is at most [- tiny]; the result is the arithmetic
    blend [(1 - mask) * log + mask * sentinel] of the source, and on a
    tensor it is applied entry by entry. *)
Theorem safe_log_cases :
  forall x : R,
    (x = 0 -> safe_log x = -1000)
    /\ (Rabs x < tiny -> safe_log x = -1000)
    /\ (tiny <= x -> safe_log x = ln x)
    /\ (x <= - tiny -> safe_log x = ln tiny)
    /\ safe_log x = (1 - zero_mask x) * ln (Rmax x tiny) + zero_mask x * -1000
    /\ (forall (v : vec) (i : nat),
          (i < length v)%nat -> nth i (safe_log_vec v) 0 = safe_log (nth i v 0)).
Proof.
  intros x. repeat split.
  - intros ->. apply safe_log_zero.
  - apply safe_log_subnormal.
  - apply safe_log_normal.
  - apply safe_log_clamped.
  - destruct (Rlt_dec (Rabs x) tiny) as [Hs | Hn].
    + rewrite safe_log_subnormal, zero_mask_small by exact Hs. ring.
    + rewrite safe_log_unflushed, zero_mask_normal by lra. ring.
  - intros v i Hi. unfold safe_log_vec.
    rewrite (nth_indep _ 0 (safe_log 0)) by (rewrite length_map; exact Hi).
    apply map_nth.
Qed.

(** ** Lists, maxima and arg-maxima *)

Section ListFacts.

Lemma zip_with_length {A B C : Type} (f : A -> B -> C) u v :
  length (zip_with f u v) = Nat.min (length u) (length v).
Proof.
  revert v. induction u as [| a u IH]; intros [| b v]; simpl; auto.
Qed.

Lemma zip_with_nth {A B C : Type} (f : A -> B -> C) u v i da db dc :
  (i < length u)%nat -> (i < length v)%nat ->
  nth i (zip_with f u v) dc = f (nth i u da) (nth i v db).
Proof.
  revert v i. induction u as [| a u IH]; intros [| b v] [| i]; simpl; intros; try lia; auto.
  apply IH; lia.
Qed.

Lemma vec_add_length u v : length u = length v -> length (vec_add u v) = length u.
Proof.
  intros H. unfold vec_add. rewrite zip_with_length, H. apply Nat.min_id.
Qed.

Lemma vec_add_nth u v i :
  (i < length u)%nat -> (i < length v)%nat ->
  nth i (vec_add u v) 0 = nth i u 0 + nth i v 0.
Proof.
  intros. unfold vec_add. apply zip_with_nth; assumption.
Qed.

Lemma fold_max_ge_init l x : x <= fold_left Rmax l x.
Proof.
  revert x. induction l as [| a l IH]; intros x; simpl; [lra |].
  eapply Rle_trans; [apply (Rmax_l x a) | apply IH].
Qed.

Lemma fold_max_ge_elem l x a : In a l -> a <= fold_left Rmax l x.
Proof.
  revert x. induction l as [| b l IH]; intros x; simpl; [tauto |].
  intros [-> | Hin].
  - eapply Rle_trans; [apply (Rmax_r x a) | apply fold_max_ge_init].
  - apply IH; assumption.
Qed.

Lemma fold_max_attained l x : In (fold_left Rmax l x) (x :: l).
Proof.
  revert x. induction l as [| a l IH]; intros x; simpl; [auto |].
  destruct (IH (Rmax x a)) as [H | H].
  - unfold Rmax in H at 1. destruct (Rle_dec x a); rewrite <- H; auto.
  - right. right. exact H.
Qed.

Lemma fold_max_le l x c : x <= c -> (forall a, In a l -> a <= c) -> fold_left Rmax l x <= c.
Proof.
  intros Hx Hl. destruct (fold_max_attained l x) as [<- | H]; auto.
Qed.

Lemma vec_maximum_ge v i : (i < length v)%nat -> nth i v 0 <= vec_maximum v.
Proof.
  destruct v as [| x t]; simpl; [lia |].
  destruct i as [| i]; intros Hi.
  - apply fold_max_ge_init.
  - apply fold_max_ge_elem. apply nth_In. lia.
Qed.

Lemma vec_maximum_le v c :
  v <> [] -> (forall i, (i < length v)%nat -> nth i v 0 <= c) -> vec_maximum v <= c.
Proof.
  destruct v as [| x t]; [congruence |]. intros _ H. simpl.
  apply fold_max_le.
  - apply (H 0%nat). simpl. lia.
  - intros a Ha. destruct (In_nth _ _ 0 Ha) as [j [Hj <-]].
    apply (H (S j)). simpl. lia.
Qed.

Lemma vec_maximum_cons x y t : vec_maximum (x :: y :: t) = Rmax x (vec_maximum (y :: t)).
Proof.
  simpl. revert x y. induction t as [| z t IH]; intros x y; simpl; [reflexivity |].
  rewrite (IH (Rmax x y) z). rewrite (IH y z).
  rewrite Rmax_assoc. reflexivity.
Qed.

Lemma argmax_lt v : v <> [] -> (argmax v < length v)%nat.
Proof.
  induction v as [| x t IH]; [congruence |]. intros _.
  destruct t as [| y t]; [simpl; lia |].
  change (argmax (x :: y :: t)) with
    (if Rle_dec (nth (argmax (y :: t)) (y :: t) 0) x then 0%nat else S (argmax (y :: t))).
  destruct (Rle_dec _ x); [simpl; lia |].
  assert (argmax (y :: t) < length (y :: t))%nat by (apply IH; congruence).
  simpl in *. lia.
Qed.

Lemma argmax_maximum v : v <> [] -> nth (argmax v) v 0 = vec_maximum v.
Proof.
  induction v as [| x t IH]; [congruence |]. intros _.
  destruct t as [| y t]; [reflexivity |].
  rewrite vec_maximum_cons.
  change (argmax (x :: y :: t)) with
    (if Rle_dec (nth (argmax (y :: t)) (y :: t) 0) x then 0%nat else S (argmax (y :: t))).
  rewrite <- IH by congruence.
  destruct (Rle_dec _ x) as [Hle | Hgt].
  - change (nth 0 (x :: y :: t) 0) with x. rewrite Rmax_left; [reflexivity | exact Hle].
  - change (nth (S (argmax (y :: t))) (x :: y :: t) 0) with (nth (argmax (y :: t)) (y :: t) 0).
    rewrite Rmax_right; [reflexivity | lra].
Qed.

(** Ties go to the smallest index: every earlier entry is strictly smaller. *)
Lemma argmax_first v j : (j < argmax v)%nat -> nth j v 0 < nth (argmax v) v 0.
Proof.
  revert j. induction v as [| x t IH]; intros j; [simpl; lia |].
  destruct t as [| y t]; [simpl; lia |].
  change (argmax (x :: y :: t)) with
    (if Rle_dec (nth (argmax (y :: t)) (y :: t) 0) x then 0%nat else S (argmax (y :: t))).
  destruct (Rle_dec _ x) as [Hle | Hgt]; [lia |].
  intros Hj.
  change (nth (S (argmax (y :: t))) (x :: y :: t) 0) with (nth (argmax (y :: t)) (y :: t) 0).
  destruct j as [| j].
  - simpl nth at 1. lra.
  - change (nth (S j) (x :: y :: t) 0) with (nth j (y :: t) 0).
    apply IH. lia.
Qed.

Lemma argmax_unique v p :
  (p < length v)%nat ->
  (forall j, (j < length v)%nat -> j <> p -> nth j v 0 < nth p v 0) ->
  argmax v = p.
Proof.
  intros Hp Hstrict.
  assert (Hne : v <> []) by (destruct v; simpl in *; [lia | congruence]).
  pose proof (argmax_lt v Hne) as Hlt.
  destruct (Nat.eq_dec (argmax v) p) as [| Hneq]; [assumption | exfalso].
  specialize (Hstrict _ Hlt Hneq).
  rewrite argmax_maximum in Hstrict by assumption.
  pose proof (vec_maximum_ge v p Hp). lra.
Qed.

Lemma traverse_id_map_Some {A : Type} (l : list A) :
  traverse (fun x => x) (map Some l) = Some l.
Proof.
  induction l as [| a l IH]; simpl; [reflexivity |].
  rewrite IH. reflexivity.
Qed.

Lemma ta_stack_written {A : Type} (l : list A) : ta_stack (map Some l) = Some l.
Proof.
  apply traverse_id_map_Some.
Qed.

(** Writing the first free slot of an array filled from the left. *)
Lemma ta_write_next {A : Type} (pre : list A) (v : A) (k : nat) :
  ta_write (length pre) v (map Some pre ++ repeat None (S k))
  = Some (map Some (pre ++ [v]) ++ repeat None k).
Proof.
  unfold ta_write.
  rewrite length_app, length_map, repeat_length.
  replace (length pre <? length pre + S k)%nat with true
    by (symmetry; apply Nat.ltb_lt; lia).
  f_equal.
  rewrite <- (length_map Some pre) at 1.
  rewrite firstn_app, firstn_all, Nat.sub_diag. simpl firstn. rewrite app_nil_r.
  replace (S (length pre)) with (length (map Some pre) + 1)%nat
    by (rewrite length_map; lia).
  rewrite skipn_app, skipn_all2 by lia.
  replace (length (map Some pre) + 1 - length (map Some pre))%nat with 1%nat by lia.
  simpl. rewrite map_app. simpl. rewrite <- app_assoc. reflexivity.
Qed.

Lemma firstn_repeat_more {A : Type} (x : A) (n : nat) (l : list A) :
  firstn n (repeat x (S n) ++ l) = repeat x n.
Proof.
  induction n as [| n IH]; [reflexivity |].
  change (firstn (S n) (repeat x (S (S n)) ++ l))
    with (x :: firstn n (repeat x (S n) ++ l)).
  rewrite IH. reflexivity.
Qed.

Lemma skipn_repeat_all {A : Type} (x : A) (n : nat) (l : list A) :
  skipn n (repeat x n ++ l) = l.
Proof.
  induction n as [| n IH]; [reflexivity | exact IH].
Qed.

(** Writing the last free slot of an array filled from the right. *)
Lemma ta_write_prev {A : Type} (suf : list A) (v : A) (n : nat) :
  ta_write n v (repeat None (S n) ++ map Some suf)
  = Some (repeat None n ++ map Some (v :: suf)).
Proof.
  unfold ta_write.
  rewrite length_app, repeat_length.
  replace (n <? S n + length (map Some suf))%nat with true
    by (symmetry; apply Nat.ltb_lt; lia).
  f_equal.
  rewrite firstn_repeat_more, skipn_repeat_all. reflexivity.
Qed.

Lemma nth_map_lt {A B : Type} (f : A -> B) l i d d' :
  (i < length l)%nat -> nth i (map f l) d' = f (nth i l d).
Proof.
  intros Hi. rewrite (nth_indep _ d' (f d)) by (rewrite length_map; exact Hi).
  apply map_nth.
Qed.

Lemma map_nth_seq {A B : Type} (f : A -> B) (l : list A) (d : A) :
  map f l = map (fun i => f (nth i l d)) (seq 0 (length l)).
Proof.
  apply (nth_ext _ _ (f d) (f d)).
  - rewrite !length_map, length_seq. reflexivity.
  - intros i Hi. rewrite length_map in Hi.
    rewrite map_nth.
    rewrite (nth_map_lt (fun i => f (nth i l d)) (seq 0 (length l)) i 0%nat)
      by (rewrite length_seq; exact Hi).
    rewrite seq_nth by exact Hi. reflexivity.
Qed.

Lemma is_mat_row r c m i : is_mat r c m -> (i < r)%nat -> length (nth i m []) = c.
Proof.
  intros [Hlen Hrows] Hi. rewrite Forall_forall in Hrows.
  apply Hrows. apply nth_In. lia.
Qed.

Lemma fold_zip_max_length rs r n :
  length r = n -> Forall (fun row : vec => length row = n) rs ->
  length (fold_left (zip_with Rmax) rs r) = n.
Proof.
  revert r. induction rs as [| x rs IH]; intros r Hr Hrs; simpl; [exact Hr |].
  inversion Hrs; subst. apply IH; [| assumption].
  rewrite zip_with_length. lia.
Qed.

Lemma fold_zip_max_nth rs r n q :
  length r = n -> Forall (fun row : vec => length row = n) rs -> (q < n)%nat ->
  nth q (fold_left (zip_with Rmax) rs r) 0
  = fold_left Rmax (map (fun row => nth q row 0) rs) (nth q r 0).
Proof.
  revert r. induction rs as [| x rs IH]; intros r Hr Hrs Hq; simpl; [reflexivity |].
  inversion Hrs; subst.
  rewrite IH; [| rewrite zip_with_length; lia | assumption | assumption].
  rewrite (zip_with_nth Rmax r x q 0 0 0) by lia. reflexivity.
Qed.

Lemma reduce_max_axis0_length a n :
  a <> [] -> Forall (fun row : vec => length row = n) a -> length (reduce_max_axis0 a) = n.
Proof.
  destruct a as [| r rs]; [congruence |]. intros _ H. inversion H; subst.
  simpl. apply fold_zip_max_length; auto.
Qed.

Lemma reduce_max_axis0_nth a n q :
  a <> [] -> Forall (fun row : vec => length row = n) a -> (q < n)%nat ->
  nth q (reduce_max_axis0 a) 0 = vec_maximum (map (fun row => nth q row 0) a).
Proof.
  destruct a as [| r rs]; [congruence |]. intros _ H Hq. inversion H; subst.
  simpl. apply fold_zip_max_nth with (n := length r); auto.
Qed.

Lemma transpose_length n m : length (transpose n m) = n.
Proof.
  unfold transpose. rewrite length_map, length_seq. reflexivity.
Qed.

Lemma transpose_row n m j :
  (j < n)%nat -> nth j (transpose n m) [] = map (fun row => nth j row 0) m.
Proof.
  intros Hj. unfold transpose.
  rewrite (nth_map_lt _ _ _ 0%nat) by (rewrite length_seq; exact Hj).
  rewrite seq_nth by exact Hj. reflexivity.
Qed.

Lemma entry_transpose n m i j :
  (j < n)%nat -> (i < length m)%nat -> entry (transpose n m) j i = entry m i j.
Proof.
  intros Hj Hi. unfold entry. rewrite transpose_row by exact Hj.
  apply (nth_map_lt (fun row : vec => nth j row 0) m i []). exact Hi.
Qed.

Lemma transpose_is_mat r c m : length m = r -> is_mat c r (transpose c m).
Proof.
  intros Hr. split; [apply transpose_length |].
  unfold transpose. apply Forall_forall. intros row Hin.
  apply in_map_iff in Hin. destruct Hin as [j [<- _]].
  rewrite length_map. exact Hr.
Qed.

Lemma safe_log_mat_is_mat r c m : is_mat r c m -> is_mat r c (safe_log_mat m).
Proof.
  intros [Hr Hc]. split.
  - unfold safe_log_mat. rewrite length_map. exact Hr.
  - unfold safe_log_mat. apply Forall_forall. intros row Hin.
    apply in_map_iff in Hin. destruct Hin as [x [<- Hx]].
    unfold safe_log_vec. rewrite length_map.
    rewrite Forall_forall in Hc. apply Hc. exact Hx.
Qed.

Lemma entry_safe_log_mat r c m i j :
  is_mat r c m -> (i < r)%nat -> (j < c)%nat ->
  entry (safe_log_mat m) i j = safe_log (entry m i j).
Proof.
  intros Hm Hi Hj. unfold entry, safe_log_mat.
  rewrite (nth_map_lt safe_log_vec m i []) by (destruct Hm; lia).
  unfold safe_log_vec. apply nth_map_lt.
  rewrite (is_mat_row r c m i Hm Hi). exact Hj.
Qed.

Lemma mat_add_row r c m n i :
  is_mat r c m -> is_mat r c n -> (i < r)%nat ->
  nth i (mat_add m n) [] = vec_add (nth i m []) (nth i n []).
Proof.
  intros [Hm _] [Hn _] Hi. unfold mat_add.
  apply zip_with_nth; lia.
Qed.

Lemma mat_add_is_mat r c m n : is_mat r c m -> is_mat r c n -> is_mat r c (mat_add m n).
Proof.
  intros Hm Hn. split.
  - unfold mat_add. rewrite zip_with_length. destruct Hm, Hn. lia.
  - apply Forall_forall. intros row Hin.
    destruct (In_nth _ _ [] Hin) as [i [Hi <-]].
    assert (Hir : (i < r)%nat).
    { unfold mat_add in Hi. rewrite zip_with_length in Hi. destruct Hm, Hn. lia. }
    rewrite (mat_add_row r c) by assumption.
    rewrite vec_add_length; rewrite !(is_mat_row r c) by assumption; reflexivity.
Qed.

Lemma entry_mat_add r c m n i j :
  is_mat r c m -> is_mat r c n -> (i < r)%nat -> (j < c)%nat ->
  entry (mat_add m n) i j = entry m i j + entry n i j.
Proof.
  intros Hm Hn Hi Hj. unfold entry.
  rewrite (mat_add_row r c) by assumption.
  apply vec_add_nth; rewrite (is_mat_row r c) by assumption; exact Hj.
Qed.

Lemma add_col_row r c m g i :
  is_mat r c m -> length g = r -> (i < r)%nat ->
  nth i (add_col m g) [] = map (fun a => a + nth i g 0) (nth i m []).
Proof.
  intros [Hm _] Hg Hi. unfold add_col.
  apply (zip_with_nth (fun (row : vec) x => map (fun a => a + x) row)); lia.
Qed.

Lemma add_col_is_mat r c m g : is_mat r c m -> length g = r -> is_mat r c (add_col m g).
Proof.
  intros Hm Hg. split.
  - unfold add_col. rewrite zip_with_length. destruct Hm. lia.
  - apply Forall_forall. intros row Hin.
    destruct (In_nth _ _ [] Hin) as [i [Hi <-]].
    assert (Hir : (i < r)%nat).
    { unfold add_col in Hi. rewrite zip_with_length in Hi. destruct Hm. lia. }
    rewrite (add_col_row r c) by assumption.
    rewrite length_map. apply (is_mat_row r c); assumption.
Qed.

Lemma entry_add_col r c m g i j :
  is_mat r c m -> length g = r -> (i < r)%nat -> (j < c)%nat ->
  entry (add_col m g) i j = entry m i j + nth i g 0.
Proof.
  intros Hm Hg Hi Hj. unfold entry.
  rewrite (add_col_row r c) by assumption.
  rewrite (nth_map_lt (fun a => a + nth i g 0) _ j 0); [reflexivity |].
  rewrite (is_mat_row r c) by assumption. exact Hj.
Qed.

(** The column [j] of a matrix, read through its entries. *)
Lemma column_entries r c m j :
  is_mat r c m -> map (fun row => nth j row 0) m = map (fun i => entry m i j) (seq 0 r).
Proof.
  intros [Hr _]. rewrite (map_nth_seq (fun row => nth j row 0) m []).
  rewrite Hr. reflexivity.
Qed.

End ListFacts.

(** ** The loops of the decoder against the recursion over positions *)

Lemma ta_write_first {A : Type} (v : A) (n : nat) :
  (1 <= n)%nat -> ta_write 0 v (ta_new n) = Some (map Some [v] ++ repeat None (n - 1)).
Proof.
  destruct n as [| n]; [lia |]. intros _.
  unfold ta_new. replace (S n - 1)%nat with n by lia.
  apply (ta_write_next (@nil A) v n).
Qed.

Lemma ta_write_last {A : Type} (v : A) (n : nat) :
  (1 <= n)%nat -> ta_write (n - 1) v (ta_new n) = Some (repeat None (n - 1) ++ map Some [v]).
Proof.
  destruct n as [| n]; [lia |]. intros _.
  unfold ta_new. replace (S n - 1)%nat with n by lia.
  rewrite <- (app_nil_r (repeat None (S n))).
  apply (ta_write_prev (@nil A) v n).
Qed.

Section ViterbiLoops.

Import Viterbi.

Variable hmm_cell : HmmCell.
Variable sequences : mat.
Variable mask : option MaskFunc.

Let Q := max_num_states hmm_cell.
Let ems := emission_probs hmm_cell sequences.
Let sl := seq_lens sequences.

Lemma gamma_steps_length g i n : length (gamma_steps hmm_cell sequences mask g i n) = n.
Proof.
  revert g i. induction n as [| n IH]; intros g i; simpl; [reflexivity |].
  rewrite IH. reflexivity.
Qed.

Lemma dyn_prog_body_step g ta i e ta' :
  nth_error ems i = Some e ->
  ta_write i (viterbi_step g e hmm_cell (apply_mask_func mask i sl hmm_cell)) ta = Some ta' ->
  dyn_prog_body hmm_cell ems mask sl (Some (g, ta)) i
  = Some (viterbi_step g e hmm_cell (apply_mask_func mask i sl hmm_cell), ta').
Proof.
  intros He Hw. unfold dyn_prog_body. simpl. rewrite He. simpl. rewrite Hw. reflexivity.
Qed.

Lemma backtracking_body_step gamma q ta i g ta' :
  nth_error gamma i = Some g ->
  ta_write i (viterbi_backtracking_step q g hmm_cell
                (apply_mask_func mask (i + 1) sl hmm_cell)) ta = Some ta' ->
  backtracking_body hmm_cell gamma mask sl (Some (q, ta)) i
  = Some (viterbi_backtracking_step q g hmm_cell
            (apply_mask_func mask (i + 1) sl hmm_cell), ta').
Proof.
  intros Hg Hw. unfold backtracking_body. simpl. rewrite Hg. simpl. rewrite Hw. reflexivity.
Qed.

(** The forward loop fills the array from the left with [gamma_steps]. *)
Lemma dyn_prog_loop n : forall (pre : list vec) (g : vec) (k : nat),
  (length pre + n <= length ems)%nat ->
  exists g',
    fold_left (dyn_prog_body hmm_cell ems mask sl) (seq (length pre) n)
      (Some (g, map Some pre ++ repeat None (n + k)))
    = Some (g', map Some (pre ++ gamma_steps hmm_cell sequences mask g (length pre) n)
                 ++ repeat None k).
Proof.
  induction n as [| n IH]; intros pre g k Hlen.
  - simpl. exists g. rewrite app_nil_r. reflexivity.
  - destruct (nth_error ems (length pre)) as [e |] eqn:He;
      [| apply nth_error_None in He; lia].
    set (g1 := viterbi_step g e hmm_cell (apply_mask_func mask (length pre) sl hmm_cell)).
    cbn [seq fold_left]. change (S n + k)%nat with (S (n + k)).
    rewrite (dyn_prog_body_step g _ (length pre) e _ He (ta_write_next pre g1 (n + k))).
    fold g1.
    specialize (IH (pre ++ [g1]) g1 k).
    rewrite length_app in IH. simpl length in IH.
    replace (length pre + 1)%nat with (S (length pre)) in IH by lia.
    destruct IH as [g' IH]; [lia |].
    exists g'. rewrite IH. f_equal. f_equal. f_equal.
    rewrite <- app_assoc. simpl app. f_equal.
    simpl gamma_steps. fold ems sl.
    rewrite (nth_error_nth ems (length pre) [] He). reflexivity.
Qed.

(** [viterbi_dyn_prog] returns the table of the recursion over positions. *)
Lemma viterbi_dyn_prog_table :
  (1 <= length sequences)%nat -> length ems = length sequences ->
  viterbi_dyn_prog sequences hmm_cell mask = Some (gamma_table hmm_cell sequences mask).
Proof.
  intros HL Hems. unfold viterbi_dyn_prog. fold ems sl.
  destruct (nth_error ems 0) as [b0 |] eqn:Hb0;
    [| apply nth_error_None in Hb0; lia].
  simpl bind.
  assert (Hg0 : vec_add (safe_log_vec (init_dist hmm_cell)) (safe_log_vec b0)
                = gamma_init hmm_cell sequences).
  { unfold gamma_init. fold ems. rewrite (nth_error_nth ems 0 [] Hb0). reflexivity. }
  rewrite Hg0.
  rewrite (ta_write_first (gamma_init hmm_cell sequences) (length sequences) HL).
  simpl bind.
  destruct (dyn_prog_loop (length sequences - 1) [gamma_init hmm_cell sequences]
              (gamma_init hmm_cell sequences) 0) as [g' Hloop].
  { simpl length. lia. }
  simpl length in Hloop. rewrite Nat.add_0_r in Hloop.
  cbn [map app] in Hloop. cbn [map app].
  rewrite Hloop. simpl bind. simpl repeat. rewrite app_nil_r.
  apply (ta_stack_written (gamma_table hmm_cell sequences mask)).
Qed.

Lemma backtrack_length gamma q i : length (backtrack hmm_cell sequences mask gamma q i) = i.
Proof.
  revert q. induction i as [| i IH]; intros q; simpl; [reflexivity |].
  rewrite length_app, IH. simpl. lia.
Qed.

(** The backward loop fills the array from the right with [backtrack]. *)
Lemma backtracking_loop gamma n : forall (suf : list nat) (q : nat),
  (n <= length gamma)%nat ->
  exists q',
    fold_left (backtracking_body hmm_cell gamma mask sl) (rev (seq 0 n))
      (Some (q, repeat None n ++ map Some suf))
    = Some (q', map Some (backtrack hmm_cell sequences mask gamma q n ++ suf)).
Proof.
  induction n as [| n IH]; intros suf q Hlen.
  - simpl. exists q. reflexivity.
  - destruct (nth_error gamma n) as [g |] eqn:Hg;
      [| apply nth_error_None in Hg; lia].
    set (q1 := viterbi_backtracking_step q g hmm_cell
                 (apply_mask_func mask (n + 1) sl hmm_cell)).
    rewrite seq_S, rev_app_distr. cbn [rev app fold_left Nat.add].
    rewrite (backtracking_body_step gamma q _ n g _ Hg (ta_write_prev suf q1 n)).
    fold q1.
    destruct (IH (q1 :: suf) q1) as [q' IHq]; [lia |].
    exists q'. rewrite IHq. f_equal. f_equal. f_equal.
    simpl backtrack. fold sl.
    rewrite (nth_error_nth gamma n [] Hg). fold q1.
    rewrite <- app_assoc. reflexivity.
Qed.

(** [viterbi_backtracking] returns the path of the recursion. *)
Lemma viterbi_backtracking_path gamma :
  (1 <= length gamma)%nat ->
  let q := argmax (nth (length gamma - 1) gamma []) in
  viterbi_backtracking hmm_cell gamma sl mask
  = Some (map cast_int16
            (backtrack hmm_cell sequences mask gamma q (length gamma - 1) ++ [q])).
Proof.
  intros HL q. unfold viterbi_backtracking.
  destruct (nth_error gamma (length gamma - 1)) as [gl |] eqn:Hgl;
    [| apply nth_error_None in Hgl; lia].
  simpl bind.
  assert (Hq : argmax gl = q).
  { unfold q. rewrite (nth_error_nth gamma _ [] Hgl). reflexivity. }
  rewrite Hq.
  rewrite (ta_write_last q (length gamma) HL). simpl bind.
  destruct (backtracking_loop gamma (length gamma - 1) [q] q) as [q' Hloop]; [lia |].
  cbn [map] in Hloop. cbn [map].
  rewrite Hloop. simpl bind.
  rewrite ta_stack_written. reflexivity.
Qed.

End ViterbiLoops.

(** ** One step of the recursion, entry by entry *)

Section ViterbiSteps.

Import Viterbi.

Variable hmm_cell : HmmCell.
Variable sequences : mat.
Variable mask : option MaskFunc.

Let Q := max_num_states hmm_cell.
Let ems := emission_probs hmm_cell sequences.
Let sl := seq_lens sequences.

Hypothesis Hcell : cell_wf hmm_cell.
Hypothesis Hmask : mask_wf hmm_cell mask.

Lemma cell_wf_A : is_mat Q Q (log_A_dense hmm_cell).
Proof. destruct Hcell as (_ & _ & H & _). exact H. Qed.

Lemma cell_wf_pos : (1 <= Q)%nat.
Proof. destruct Hcell as (H & _). exact H. Qed.

Lemma mask_term_entry i f q' q :
  mask = Some f ->
  mask_term hmm_cell sequences mask i q' q = safe_log (entry (f i sl hmm_cell) q' q).
Proof.
  intros ->. reflexivity.
Qed.

(** The matrix maximised column by column in [viterbi_step]. *)
Lemma forward_matrix i g :
  length g = Q ->
  let a0 := add_col (log_A_dense hmm_cell) g in
  let a := match apply_mask_func mask i sl hmm_cell with
           | Some m => mat_add a0 (safe_log_mat m)
           | None => a0
           end in
  is_mat Q Q a
  /\ forall q' q, (q' < Q)%nat -> (q < Q)%nat ->
       entry a q' q
       = entry (log_A_dense hmm_cell) q' q + mask_term hmm_cell sequences mask i q' q
         + nth q' g 0.
Proof.
  intros Hg a0 a.
  assert (Ha0 : is_mat Q Q a0) by (apply add_col_is_mat; [apply cell_wf_A | exact Hg]).
  assert (Ha0e : forall q' q, (q' < Q)%nat -> (q < Q)%nat ->
                   entry a0 q' q = entry (log_A_dense hmm_cell) q' q + nth q' g 0).
  { intros q' q Hq' Hq. apply (entry_add_col Q Q); auto. apply cell_wf_A. }
  subst a. unfold mask_term, mask_wf in *. destruct mask as [f |]; simpl.
  - specialize (Hmask i sl). fold Q in Hmask. fold sl.
    split.
    + apply mat_add_is_mat; [exact Ha0 | apply safe_log_mat_is_mat; exact Hmask].
    + intros q' q Hq' Hq.
      rewrite (entry_mat_add Q Q) by (auto; apply safe_log_mat_is_mat; exact Hmask).
      rewrite Ha0e by assumption.
      rewrite (entry_safe_log_mat Q Q) by assumption. ring.
  - split; [exact Ha0 |]. intros q' q Hq' Hq. rewrite Ha0e by assumption. ring.
Qed.

Lemma viterbi_step_length i g e :
  length g = Q -> length e = Q ->
  length (viterbi_step g e hmm_cell (apply_mask_func mask i sl hmm_cell)) = Q.
Proof.
  intros Hg He. unfold viterbi_step.
  destruct (forward_matrix i g Hg) as [[Hrows Hcols] _].
  cbv zeta in Hrows, Hcols.
  rewrite vec_add_length.
  - apply reduce_max_axis0_length; [| exact Hcols].
    intros Hnil. rewrite Hnil in Hrows. simpl in Hrows. pose proof cell_wf_pos. lia.
  - rewrite (reduce_max_axis0_length _ Q); [| | exact Hcols].
    + unfold safe_log_vec. rewrite length_map. congruence.
    + intros Hnil. rewrite Hnil in Hrows. simpl in Hrows. pose proof cell_wf_pos. lia.
Qed.

(** Entry [q] of the next score row: the best predecessor term plus the
    emission term. *)
Lemma viterbi_step_nth i g e q :
  length g = Q -> length e = Q -> (q < Q)%nat ->
  nth q (viterbi_step g e hmm_cell (apply_mask_func mask i sl hmm_cell)) 0
  = vec_maximum (trans_terms hmm_cell sequences mask i g q) + safe_log (nth q e 0).
Proof.
  intros Hg He Hq. unfold viterbi_step.
  destruct (forward_matrix i g Hg) as [Hmat Hentry].
  cbv zeta in Hmat, Hentry.
  set (a := match apply_mask_func mask i sl hmm_cell with
            | Some m => mat_add (add_col (log_A_dense hmm_cell) g) (safe_log_mat m)
            | None => add_col (log_A_dense hmm_cell) g
            end) in *.
  assert (Hne : a <> []).
  { intros Hnil. destruct Hmat as [Hrows _]. rewrite Hnil in Hrows. simpl in Hrows.
    pose proof cell_wf_pos. lia. }
  rewrite vec_add_nth.
  - rewrite (reduce_max_axis0_nth a Q q Hne) by (destruct Hmat; assumption).
    rewrite (column_entries Q Q a q Hmat).
    f_equal.
    + f_equal. unfold trans_terms. fold Q. apply map_ext_in.
      intros q' Hin. apply in_seq in Hin. apply Hentry; lia.
    + unfold safe_log_vec. apply nth_map_lt. lia.
  - rewrite (reduce_max_axis0_length a Q Hne) by (destruct Hmat; assumption). exact Hq.
  - unfold safe_log_vec. rewrite length_map. lia.
Qed.

Lemma trans_terms_length i g q : length (trans_terms hmm_cell sequences mask i g q) = Q.
Proof.
  unfold trans_terms. rewrite length_map, length_seq. reflexivity.
Qed.

Lemma trans_terms_nth i g q q' :
  (q' < Q)%nat ->
  nth q' (trans_terms hmm_cell sequences mask i g q) 0
  = entry (log_A_dense hmm_cell) q' q + mask_term hmm_cell sequences mask i q' q
    + nth q' g 0.
Proof.
  intros Hq'. unfold trans_terms. fold Q.
  rewrite (nth_map_lt _ _ _ 0%nat) by (rewrite length_seq; exact Hq').
  rewrite seq_nth by exact Hq'. reflexivity.
Qed.

(** The matrix whose row [q] the backtracking step gathers. *)
Lemma backward_matrix i :
  let a := match apply_mask_func mask i sl hmm_cell with
           | None => log_A_dense_t hmm_cell
           | Some m => mat_add (log_A_dense_t hmm_cell)
                         (safe_log_mat (transpose (max_num_states hmm_cell) m))
           end in
  is_mat Q Q a
  /\ forall q q', (q < Q)%nat -> (q' < Q)%nat ->
       entry a q q'
       = entry (log_A_dense hmm_cell) q' q + mask_term hmm_cell sequences mask i q' q.
Proof.
  intros a.
  pose proof cell_wf_A as HA.
  assert (Ht : is_mat Q Q (log_A_dense_t hmm_cell)).
  { unfold log_A_dense_t. fold Q. apply transpose_is_mat. destruct HA; assumption. }
  assert (Hte : forall q q', (q < Q)%nat -> (q' < Q)%nat ->
                  entry (log_A_dense_t hmm_cell) q q' = entry (log_A_dense hmm_cell) q' q).
  { intros q q' Hq Hq'. unfold log_A_dense_t. fold Q.
    apply entry_transpose; [exact Hq | destruct HA; lia]. }
  subst a. unfold mask_term, mask_wf in *. destruct mask as [f |]; simpl.
  - specialize (Hmask i sl). fold Q in Hmask. fold Q. fold sl.
    assert (Hf : length (f i sl hmm_cell) = Q) by (destruct Hmask; assumption).
    assert (Hmt : is_mat Q Q (transpose Q (f i sl hmm_cell)))
      by (apply transpose_is_mat; exact Hf).
    split.
    + apply mat_add_is_mat; [exact Ht | apply safe_log_mat_is_mat; exact Hmt].
    + intros q q' Hq Hq'.
      rewrite (entry_mat_add Q Q); auto; [| apply safe_log_mat_is_mat; exact Hmt].
      rewrite Hte by assumption.
      rewrite (entry_safe_log_mat Q Q) by assumption.
      rewrite entry_transpose by lia.
      reflexivity.
  - split; [exact Ht |]. intros q q' Hq Hq'. rewrite Hte by assumption. ring.
Qed.

(** The backtracking step maximises the same terms as the forward step. *)
Lemma viterbi_backtracking_step_argmax i q g :
  length g = Q -> (q < Q)%nat ->
  viterbi_backtracking_step q g hmm_cell (apply_mask_func mask i sl hmm_cell)
  = argmax (trans_terms hmm_cell sequences mask i g q).
Proof.
  intros Hg Hq.
  destruct (backward_matrix i) as [Hmat Hentry]. cbv zeta in Hmat, Hentry.
  set (a := match apply_mask_func mask i sl hmm_cell with
            | None => log_A_dense_t hmm_cell
            | Some m => mat_add (log_A_dense_t hmm_cell)
                          (safe_log_mat (transpose (max_num_states hmm_cell) m))
            end) in *.
  assert (Hstep : viterbi_backtracking_step q g hmm_cell (apply_mask_func mask i sl hmm_cell)
                  = argmax (vec_add (nth q a []) g)).
  { unfold viterbi_backtracking_step, a.
    destruct (apply_mask_func mask i sl hmm_cell); reflexivity. }
  rewrite Hstep. f_equal.
  assert (Hrow : length (nth q a []) = Q) by (apply (is_mat_row Q Q); assumption).
  apply (nth_ext _ _ 0 0).
  - rewrite trans_terms_length, vec_add_length; congruence.
  - intros q' Hlen.
    assert (Hq' : (q' < Q)%nat).
    { unfold vec_add in Hlen. rewrite zip_with_length in Hlen. lia. }
    rewrite trans_terms_nth by exact Hq'.
    rewrite vec_add_nth by lia.
    change (nth q' (nth q a []) 0) with (entry a q q').
    rewrite Hentry by assumption. reflexivity.
Qed.

Lemma viterbi_backtracking_step_lt i q g :
  length g = Q -> (q < Q)%nat ->
  (viterbi_backtracking_step q g hmm_cell (apply_mask_func mask i sl hmm_cell) < Q)%nat.
Proof.
  intros Hg Hq. rewrite viterbi_backtracking_step_argmax by assumption.
  assert (Hne : trans_terms hmm_cell sequences mask i g q <> []).
  { intros Hnil. pose proof (trans_terms_length i g q) as Hl.
    rewrite Hnil in Hl. simpl in Hl. pose proof cell_wf_pos. lia. }
  pose proof (argmax_lt _ Hne) as H. rewrite trans_terms_length in H. exact H.
Qed.

End ViterbiSteps.

(** ** The score table and the decoded path *)

Section ViterbiTable.

Import Viterbi.

Variable hmm_cell : HmmCell.
Variable sequences : mat.
Variable mask : option MaskFunc.

Let Q := max_num_states hmm_cell.
Let L := length sequences.
Let ems := emission_probs hmm_cell sequences.
Let sl := seq_lens sequences.
Let gamma := gamma_table hmm_cell sequences mask.

Hypothesis Hcell : cell_wf hmm_cell.
Hypothesis Hin : input_wf hmm_cell sequences.
Hypothesis Hmask : mask_wf hmm_cell mask.

Lemma input_wf_len : (1 <= L)%nat.
Proof. destruct Hin as [H _]. exact H. Qed.

Lemma input_wf_ems : is_mat L Q ems.
Proof. destruct Hin as [_ H]. exact H. Qed.

Lemma ems_row_length i : (i < L)%nat -> length (nth i ems []) = Q.
Proof. intros Hi. apply (is_mat_row L Q); [apply input_wf_ems | exact Hi]. Qed.

Lemma gamma_init_length : length (gamma_init hmm_cell sequences) = Q.
Proof.
  unfold gamma_init. fold ems.
  rewrite vec_add_length; unfold safe_log_vec; rewrite !length_map.
  - destruct Hcell as (_ & _ & _ & H). exact H.
  - destruct Hcell as (_ & _ & _ & H). rewrite H.
    symmetry. apply ems_row_length. pose proof input_wf_len. lia.
Qed.

Lemma gamma_steps_rows n : forall g i,
  length g = Q -> (i + n <= L)%nat ->
  Forall (fun row => length row = Q) (gamma_steps hmm_cell sequences mask g i n).
Proof.
  induction n as [| n IH]; intros g i Hg Hi; simpl; constructor.
  - apply viterbi_step_length; auto. apply ems_row_length. lia.
  - apply IH; [| lia]. apply viterbi_step_length; auto. apply ems_row_length. lia.
Qed.

Lemma gamma_steps_nth n : forall g i j,
  (j < n)%nat ->
  nth (S j) (g :: gamma_steps hmm_cell sequences mask g i n) []
  = viterbi_step (nth j (g :: gamma_steps hmm_cell sequences mask g i n) [])
      (nth (i + j) ems []) hmm_cell (apply_mask_func mask (i + j) sl hmm_cell).
Proof.
  induction n as [| n IH]; intros g i j Hj; [lia |].
  destruct j as [| j].
  - simpl. rewrite Nat.add_0_r. reflexivity.
  - cbn [gamma_steps].
    change (nth (S (S j)) (g :: ?x :: ?r) []) with (nth (S j) (x :: r) []).
    change (nth (S j) (g :: ?x :: ?r) []) with (nth j (x :: r) []).
    rewrite IH by lia. replace (S i + j)%nat with (i + S j)%nat by lia. reflexivity.
Qed.

Lemma gamma_table_length : length gamma = L.
Proof.
  unfold gamma, gamma_table. simpl. rewrite gamma_steps_length.
  pose proof input_wf_len. fold L. lia.
Qed.

Lemma gamma_table_rows : Forall (fun row => length row = Q) gamma.
Proof.
  unfold gamma, gamma_table. constructor.
  - apply gamma_init_length.
  - apply gamma_steps_rows; [apply gamma_init_length |].
    pose proof input_wf_len. fold L. lia.
Qed.

Lemma gamma_row_length i : (i < L)%nat -> length (nth i gamma []) = Q.
Proof.
  intros Hi. apply (is_mat_row L Q); [| exact Hi].
  split; [apply gamma_table_length | apply gamma_table_rows].
Qed.

Lemma gamma_table_0 : nth 0 gamma [] = gamma_init hmm_cell sequences.
Proof. reflexivity. Qed.

Lemma gamma_table_S i :
  (S i < L)%nat ->
  nth (S i) gamma []
  = viterbi_step (nth i gamma []) (nth (S i) ems []) hmm_cell
      (apply_mask_func mask (S i) sl hmm_cell).
Proof.
  intros Hi. unfold gamma, gamma_table.
  rewrite gamma_steps_nth by (fold L; lia). reflexivity.
Qed.

(** Entries of the first row. *)
Lemma gamma_entry_0 q :
  (q < Q)%nat ->
  entry gamma 0 q
  = safe_log (nth q (init_dist hmm_cell) 0) + safe_log (entry ems 0 q).
Proof.
  intros Hq. unfold entry. rewrite gamma_table_0. unfold gamma_init. fold ems.
  assert (Hi : length (init_dist hmm_cell) = Q) by (destruct Hcell as (_ & _ & _ & H); exact H).
  assert (He : length (nth 0 ems []) = Q) by (apply ems_row_length; pose proof input_wf_len; lia).
  rewrite vec_add_nth by (unfold safe_log_vec; rewrite length_map; lia).
  unfold safe_log_vec. rewrite !(nth_map_lt safe_log _ q 0) by lia. reflexivity.
Qed.

(** Entries of the later rows. *)
Lemma gamma_entry_S i q :
  (S i < L)%nat -> (q < Q)%nat ->
  entry gamma (S i) q
  = vec_maximum (trans_terms hmm_cell sequences mask (S i) (nth i gamma []) q)
    + safe_log (entry ems (S i) q).
Proof.
  intros Hi Hq. unfold entry at 1. rewrite gamma_table_S by exact Hi.
  apply viterbi_step_nth; auto.
  - apply gamma_row_length. lia.
  - apply ems_row_length. lia.
Qed.

Lemma backtrack_valid i : forall q,
  (i < L)%nat -> (q < Q)%nat ->
  Forall (fun s => (s < Q)%nat) (backtrack hmm_cell sequences mask gamma q i).
Proof.
  induction i as [| i IH]; intros q Hi Hq; simpl; [constructor |].
  assert (Hq' : (viterbi_backtracking_step q (nth i gamma []) hmm_cell
                   (apply_mask_func mask (i + 1) (seq_lens sequences) hmm_cell) < Q)%nat).
  { apply viterbi_backtracking_step_lt; auto. apply gamma_row_length. lia. }
  apply Forall_app. split; [apply IH; [lia | exact Hq'] |].
  constructor; [exact Hq' | constructor].
Qed.

Lemma last_cons_default {A : Type} (a : A) (l : list A) (d : A) : last (a :: l) d = last l a.
Proof.
  revert a d. induction l as [| b l IH]; intros a d; [reflexivity |].
  change (last (a :: b :: l) d) with (last (b :: l) d).
  rewrite (IH b d), (IH b a). reflexivity.
Qed.

Lemma path_score_from_snoc l : forall prev i b,
  path_score_from hmm_cell sequences mask prev i (l ++ [b])
  = path_score_from hmm_cell sequences mask prev i l
    + step_score hmm_cell sequences mask (i + length l) (last l prev) b.
Proof.
  induction l as [| a l IH]; intros prev i b.
  - simpl. rewrite Nat.add_0_r. ring.
  - cbn [app path_score_from]. rewrite IH. rewrite last_cons_default.
    cbn [length]. replace (S i + length l)%nat with (i + S (length l))%nat by lia. ring.
Qed.

Lemma path_score_snoc p b :
  p <> [] ->
  path_score hmm_cell sequences mask (p ++ [b])
  = path_score hmm_cell sequences mask p
    + step_score hmm_cell sequences mask (length p) (last p 0%nat) b.
Proof.
  destruct p as [| q0 rest]; [congruence |]. intros _.
  cbn [app path_score]. rewrite path_score_from_snoc.
  rewrite last_cons_default. cbn [length]. change (1 + length rest)%nat with (S (length rest)). ring.
Qed.

(** Along the decoded path the accumulated score is the table entry:
    every predecessor is the arg-max of the terms maximised going forward. *)
Lemma backtrack_score i : forall q,
  (i < L)%nat -> (q < Q)%nat ->
  path_score hmm_cell sequences mask (backtrack hmm_cell sequences mask gamma q i ++ [q])
  = entry gamma i q.
Proof.
  induction i as [| i IH]; intros q Hi Hq.
  - simpl. rewrite gamma_entry_0 by exact Hq. fold ems. ring.
  - cbn [backtrack]. fold sl. rewrite Nat.add_1_r.
    set (q' := viterbi_backtracking_step q (nth i gamma []) hmm_cell
                 (apply_mask_func mask (S i) sl hmm_cell)).
    assert (Hg : length (nth i gamma []) = Q) by (apply gamma_row_length; lia).
    assert (Hq' : (q' < Q)%nat) by (apply viterbi_backtracking_step_lt; auto).
    rewrite path_score_snoc by (intros H; apply app_eq_nil in H; destruct H; discriminate).
    rewrite IH by (auto; lia).
    rewrite length_app, backtrack_length, last_last. simpl length.
    rewrite Nat.add_1_r.
    rewrite gamma_entry_S by assumption.
    unfold step_score. fold ems.
    assert (Hmax : vec_maximum (trans_terms hmm_cell sequences mask (S i) (nth i gamma []) q)
                   = entry (log_A_dense hmm_cell) q' q
                     + mask_term hmm_cell sequences mask (S i) q' q + entry gamma i q').
    { rewrite <- argmax_maximum.
      - rewrite <- (viterbi_backtracking_step_argmax hmm_cell sequences mask Hcell Hmask
                      (S i) q (nth i gamma [])) by assumption.
        fold sl. fold q'. rewrite (trans_terms_nth hmm_cell sequences mask) by exact Hq'.
        reflexivity.
      - intros Hnil.
        pose proof (trans_terms_length hmm_cell sequences mask (S i) (nth i gamma []) q) as Hl.
        rewrite Hnil in Hl. simpl in Hl. pose proof (cell_wf_pos hmm_cell Hcell). lia. }
    rewrite Hmax. ring.
Qed.

Lemma cast_int16_small n : (Z.of_nat n < 32768)%Z -> cast_int16 n = Z.of_nat n.
Proof.
  intros Hn. unfold cast_int16.
  rewrite Z.mod_small by lia. lia.
Qed.

Lemma cast_int16_path p :
  Forall (fun s => (s < Q)%nat) p -> map cast_int16 p = map Z.of_nat p.
Proof.
  intros Hp. apply map_ext_in. intros s Hs.
  rewrite Forall_forall in Hp. specialize (Hp s Hs).
  apply cast_int16_small. destruct Hcell as (_ & Hb & _). fold Q in Hb. lia.
Qed.

Lemma decoded_last_lt : (argmax (nth (L - 1) gamma []) < Q)%nat.
Proof.
  pose proof input_wf_len.
  assert (Hl : length (nth (L - 1) gamma []) = Q) by (apply gamma_row_length; lia).
  rewrite <- Hl. apply argmax_lt. intros Hnil. rewrite Hnil in Hl. simpl in Hl.
  pose proof (cell_wf_pos hmm_cell Hcell). unfold Q in *. lia.
Qed.

Lemma decoded_path_valid : Forall (fun s => (s < Q)%nat) (decoded_path hmm_cell sequences mask).
Proof.
  pose proof input_wf_len. unfold decoded_path. cbv zeta.
  apply Forall_app. split.
  - apply backtrack_valid; [lia | apply decoded_last_lt].
  - constructor; [apply decoded_last_lt | constructor].
Qed.

Lemma decoded_path_length : length (decoded_path hmm_cell sequences mask) = L.
Proof.
  pose proof input_wf_len. unfold decoded_path. cbv zeta.
  rewrite length_app, backtrack_length. simpl. lia.
Qed.

Lemma viterbi_dyn_prog_returns :
  viterbi_dyn_prog sequences hmm_cell mask = Some gamma.
Proof.
  apply viterbi_dyn_prog_table; [apply input_wf_len |].
  destruct input_wf_ems as [H _]. exact H.
Qed.

Lemma viterbi_backtracking_returns :
  viterbi_backtracking hmm_cell gamma sl mask = Some (map Z.of_nat (decoded_path hmm_cell sequences mask)).
Proof.
  pose proof input_wf_len. unfold sl.
  rewrite (viterbi_backtracking_path hmm_cell sequences mask gamma)
    by (rewrite gamma_table_length; lia).
  cbv zeta. rewrite gamma_table_length.
  rewrite <- (cast_int16_path (decoded_path hmm_cell sequences mask) decoded_path_valid).
  reflexivity.
Qed.

Lemma decoded_path_score :
  path_score hmm_cell sequences mask (decoded_path hmm_cell sequences mask) = vec_maximum (nth (L - 1) gamma []).
Proof.
  pose proof input_wf_len. unfold decoded_path. cbv zeta.
  rewrite backtrack_score by (try lia; apply decoded_last_lt).
  unfold entry. apply argmax_maximum.
  intros Hnil. pose proof (gamma_row_length (L - 1)) as Hl.
  rewrite Hnil in Hl. simpl in Hl. pose proof (cell_wf_pos hmm_cell Hcell).
  unfold Q in *. lia.
Qed.

End ViterbiTable.

(** ** C5 and C2: the score table and the optimality of the decoded path *)

Section ViterbiClaims.

Import Viterbi.

Lemma absorbing_cell_wf : cell_wf absorbing_cell.
Proof.
  unfold cell_wf, is_mat. simpl. repeat split; try lia; repeat constructor.
Qed.

Lemma call_is_mat (B inputs : mat) : is_mat (length inputs) (length B) (Emitter.call B inputs).
Proof.
  unfold Emitter.call. split.
  - rewrite length_map. reflexivity.
  - apply Forall_forall. intros row Hin. apply in_map_iff in Hin.
    destruct Hin as [x [<- _]]. rewrite length_map. reflexivity.
Qed.

Lemma absorbing_input_wf (sequences : mat) :
  (1 <= length sequences)%nat -> input_wf absorbing_cell sequences.
Proof.
  intros H. split; [exact H |]. apply (call_is_mat [[1; 0]; [0; 1]] sequences).
Qed.

(** The general form of the optimality: with a mask function the mask terms
    are part of the score of a path. *)
Lemma viterbi_decodes (hmm_cell : HmmCell) (input : SeqInput) (mask : option MaskFunc) :
  cell_wf hmm_cell ->
  input_wf hmm_cell (encode input hmm_cell) ->
  mask_wf hmm_cell mask ->
  viterbi_dyn_prog (encode input hmm_cell) hmm_cell mask
    = Some (gamma_table hmm_cell (encode input hmm_cell) mask)
  /\ viterbi input hmm_cell mask
     = Some (map Z.of_nat (decoded_path hmm_cell (encode input hmm_cell) mask)).
Proof.
  intros Hcell Hin Hmask.
  pose proof (viterbi_dyn_prog_returns hmm_cell _ mask Hin) as Hdp.
  split; [exact Hdp |].
  unfold viterbi. rewrite Hdp. simpl bind.
  apply viterbi_backtracking_returns; assumption.
Qed.

Lemma map_to_nat_of_nat (p : list nat) : map Z.to_nat (map Z.of_nat p) = p.
Proof.
  rewrite map_map. rewrite <- (map_id p) at 2. apply map_ext. intros a. apply Nat2Z.id.
Qed.

End ViterbiClaims.

(** C5: for every cell, sequence and optional mask function of the right
    shapes, [viterbi_dyn_prog] returns a table [gamma] with one row per
    position such that [gamma_0(q) = safe_log(init(q)) + safe_log(emission_0(q))]
    and, for every position [i > 0],
    [gamma_i(q) = max_{q'} (log_A(q',q) + gamma_{i-1}(q') + mask term)
                  + safe_log(emission_i(q))],
    where the mask term is [safe_log(mask_i(q',q))] when a mask function is
    supplied and [0] otherwise. *)
Theorem viterbi_dyn_prog_recurrence :
  forall (hmm_cell : Viterbi.HmmCell) (sequences : mat) (mask : option Viterbi.MaskFunc),
    cell_wf hmm_cell ->
    input_wf hmm_cell sequences ->
    mask_wf hmm_cell mask ->
    exists gamma : mat,
      Viterbi.viterbi_dyn_prog sequences hmm_cell mask = Some gamma
      /\ length gamma = length sequences
      /\ (forall q, (q < Viterbi.max_num_states hmm_cell)%nat ->
            entry gamma 0 q
            = safe_log (nth q (Viterbi.init_dist hmm_cell) 0)
              + safe_log (entry (Viterbi.emission_probs hmm_cell sequences) 0 q))
      /\ (forall i q,
            (1 <= i < length sequences)%nat ->
            (q < Viterbi.max_num_states hmm_cell)%nat ->
            entry gamma i q
            = vec_maximum
                (map (fun q' =>
                        entry (Viterbi.log_A_dense hmm_cell) q' q
                        + entry gamma (i - 1) q'
                        + mask_term hmm_cell sequences mask i q' q)
                     (seq 0 (Viterbi.max_num_states hmm_cell)))
              + safe_log (entry (Viterbi.emission_probs hmm_cell sequences) i q)).
Proof.
  intros hmm_cell sequences mask Hcell Hin Hmask.
  exists (gamma_table hmm_cell sequences mask).
  split; [apply viterbi_dyn_prog_returns; assumption |].
  split; [apply gamma_table_length; assumption |].
  split; [intros q Hq; apply gamma_entry_0; assumption |].
  intros i q Hi Hq. destruct i as [| i]; [lia |].
  rewrite (gamma_entry_S hmm_cell sequences mask Hcell Hin Hmask) by (auto; lia).
  f_equal. f_equal. unfold trans_terms. apply map_ext. intros q'.
  replace (S i - 1)%nat with i by lia. unfold entry. ring.
Qed.

Lemma viterbi_dyn_prog_recurrence_witness :
  exists gamma : mat,
    Viterbi.viterbi_dyn_prog [[1; 0]; [0; 1]] absorbing_cell None = Some gamma
    /\ length gamma = 2%nat
    /\ (forall q, (q < 2)%nat ->
          entry gamma 0 q
          = safe_log (nth q [1; 0] 0)
            + safe_log (entry (Emitter.call [[1; 0]; [0; 1]] [[1; 0]; [0; 1]]) 0 q))
    /\ (forall i q,
          (1 <= i < 2)%nat -> (q < 2)%nat ->
          entry gamma i q
          = vec_maximum
              (map (fun q' =>
                      entry [[0; -1000]; [-1000; 0]] q' q
                      + entry gamma (i - 1) q'
                      + mask_term absorbing_cell [[1; 0]; [0; 1]] None i q' q)
                   (seq 0 2))
            + safe_log (entry (Emitter.call [[1; 0]; [0; 1]] [[1; 0]; [0; 1]]) i q)).
Proof.
  apply (viterbi_dyn_prog_recurrence absorbing_cell [[1; 0]; [0; 1]] None).
  - exact absorbing_cell_wf.
  - apply absorbing_input_wf. simpl. lia.
  - exact I.
Defined.

(** C2: for every cell and input sequence of the right shapes, [viterbi]
    returns a state path whose log-probability, the sum of the initial,
    transition and emission log-probabilities along the path, equals the
    maximum over [q] of the last row of the table of [viterbi_dyn_prog]. *)
Theorem viterbi_path_optimal :
  forall (hmm_cell : Viterbi.HmmCell) (input : Viterbi.SeqInput),
    cell_wf hmm_cell ->
    input_wf hmm_cell (Viterbi.encode input hmm_cell) ->
    exists (path : list Z) (gamma : mat),
      Viterbi.viterbi input hmm_cell None = Some path
      /\ Viterbi.viterbi_dyn_prog (Viterbi.encode input hmm_cell) hmm_cell None = Some gamma
      /\ length path = length (Viterbi.encode input hmm_cell)
      /\ Forall (fun s => (0 <= s < Z.of_nat (Viterbi.max_num_states hmm_cell))%Z) path
      /\ path_score hmm_cell (Viterbi.encode input hmm_cell) None (map Z.to_nat path)
         = vec_maximum (nth (length (Viterbi.encode input hmm_cell) - 1) gamma []).
Proof.
  intros hmm_cell input Hcell Hin.
  destruct (viterbi_decodes hmm_cell input None Hcell Hin I) as [Hdp Hv].
  exists (map Z.of_nat (decoded_path hmm_cell (Viterbi.encode input hmm_cell) None)).
  exists (gamma_table hmm_cell (Viterbi.encode input hmm_cell) None).
  split; [exact Hv |]. split; [exact Hdp |].
  split; [rewrite length_map; apply decoded_path_length; assumption |].
  split.
  - apply Forall_forall. intros s Hs. apply in_map_iff in Hs.
    destruct Hs as [n [<- Hn]].
    pose proof (decoded_path_valid hmm_cell _ None Hcell Hin I) as Hval.
    rewrite Forall_forall in Hval. specialize (Hval n Hn). lia.
  - rewrite map_to_nat_of_nat. apply decoded_path_score; auto. exact I.
Qed.

Lemma viterbi_path_optimal_witness :
  exists (path : list Z) (gamma : mat),
    Viterbi.viterbi (Viterbi.Indices [0%nat; 1%nat]) absorbing_cell None = Some path
    /\ Viterbi.viterbi_dyn_prog
         (Viterbi.encode (Viterbi.Indices [0%nat; 1%nat]) absorbing_cell)
         absorbing_cell None = Some gamma
    /\ length path = length (Viterbi.encode (Viterbi.Indices [0%nat; 1%nat]) absorbing_cell)
    /\ Forall (fun s => (0 <= s < Z.of_nat (Viterbi.max_num_states absorbing_cell))%Z) path
    /\ path_score absorbing_cell
         (Viterbi.encode (Viterbi.Indices [0%nat; 1%nat]) absorbing_cell) None
         (map Z.to_nat path)
       = vec_maximum
           (nth (length (Viterbi.encode (Viterbi.Indices [0%nat; 1%nat]) absorbing_cell) - 1)
              gamma []).
Proof.
  apply (viterbi_path_optimal absorbing_cell (Viterbi.Indices [0%nat; 1%nat])).
  - exact absorbing_cell_wf.
  - apply absorbing_input_wf. simpl. lia.
Defined.

(** ** Evaluating the decoder on the concrete models *)

Lemma safe_log_half : safe_log (/ 2) = ln (/ 2).
Proof.
  apply safe_log_normal. pose proof tiny_lt_1. unfold tiny in *.
  pose proof pow2_gt_1.
  apply Rlt_le. apply Rinv_lt_contravar; [| lra].
  apply Rmult_lt_0_compat; lra.
Qed.

Create Rewrite HintDb eval_real.

#[local] Hint Rewrite Rmult_0_l Rmult_0_r Rmult_1_l Rmult_1_r Rplus_0_l Rplus_0_r
  safe_log_zero safe_log_1 safe_log_half : eval_real.

(** Unfold the tensor operations on concrete lists. *)
Ltac eval_tensors :=
  cbn [Viterbi.init_dist Viterbi.emission_probs Viterbi.log_A_dense Viterbi.max_num_states
       Viterbi.dim Viterbi.log_A_dense_t Viterbi.apply_mask_func Viterbi.encode
       Viterbi.viterbi_step Viterbi.viterbi_backtracking_step
       length Nat.sub Nat.add map one_hot seq Nat.eqb Emitter.call nth zip_with vec_sum
       fold_right safe_log_vec safe_log_mat vec_add mat_add add_col reduce_max_axis0
       transpose fold_left app argmax gamma_steps backtrack];
  autorewrite with eval_real.

(** Decide the comparisons of concrete reals met by [Rmax] and [argmax]. *)
Ltac decide_rmax :=
  repeat match goal with
         | |- context [Rmax ?a ?b] =>
             first [ rewrite (Rmax_left a b) by lra | rewrite (Rmax_right a b) by lra ]
         end.

Ltac decide_rle :=
  match goal with
  | |- context [Rle_dec ?a ?b] =>
      destruct (Rle_dec a b); [ try (exfalso; lra) | try (exfalso; lra) ]
  end.

Ltac eval_decoder := repeat (eval_tensors; decide_rmax; try decide_rle).


(** ** C6: decoding under a mask that allows one path only *)

Section MaskEnforcement.

Import Viterbi.

Variable hmm_cell : HmmCell.
Variable sequences : mat.
Variable f : MaskFunc.
Variable path : list nat.

Let Q := max_num_states hmm_cell.
Let L := length sequences.
Let p (i : nat) : nat := nth i path 0%nat.

Hypothesis Honly : mask_only_path hmm_cell sequences f path.

(** The mask term of a transition: nothing for the transition of the
    designated path, the sentinel for every other one. *)
Lemma mask_term_cases i q' q :
  (1 <= i < L)%nat -> (q' < Q)%nat -> (q < Q)%nat ->
  mask_term hmm_cell sequences (Some f) i q' q
  = if (Nat.eqb q' (p (i - 1)) && Nat.eqb q (p i))%bool then 0 else -1000.
Proof.
  intros Hi Hq' Hq. unfold mask_term.
  rewrite Honly by (auto; fold L; lia).
  fold (p (i - 1)) (p i).
  destruct (Nat.eqb q' (p (i - 1)) && Nat.eqb q (p i))%bool.
  - apply safe_log_1.
  - apply safe_log_zero.
Qed.

(** Each forbidden transition of a path costs the sentinel once. *)
Lemma masked_score_from (rest : list nat) : forall prev i,
  (1 <= i)%nat -> (i + length rest <= L)%nat -> (prev < Q)%nat ->
  Forall (fun s => (s < Q)%nat) rest ->
  path_score_from hmm_cell sequences (Some f) prev i rest
  = path_score_from hmm_cell sequences None prev i rest
    - 1000 * INR (forbidden_from path prev i rest).
Proof.
  induction rest as [| q rest IH]; intros prev i Hi Hlen Hprev Hall.
  - cbn [path_score_from forbidden_from INR]. ring.
  - apply Forall_cons_iff in Hall. destruct Hall as [Hq Hrest].
    cbn [length] in Hlen.
    cbn [path_score_from forbidden_from].
    rewrite (IH q (S i)) by (assumption || lia).
    unfold step_score.
    rewrite mask_term_cases by (assumption || lia).
    fold (p (i - 1)) (p i). rewrite plus_INR.
    cbn [mask_term].
    destruct (Nat.eqb prev (p (i - 1)) && Nat.eqb q (p i))%bool; cbn [INR]; ring.
Qed.

Lemma masked_path_score (other : list nat) :
  valid_path hmm_cell sequences other ->
  path_score hmm_cell sequences (Some f) other
  = path_score hmm_cell sequences None other - 1000 * INR (forbidden_steps path other).
Proof.
  intros [Hlen Hall]. destruct other as [| q0 rest].
  - cbn [path_score forbidden_steps INR]. ring.
  - apply Forall_cons_iff in Hall. destruct Hall as [Hq0 Hrest].
    cbn [length] in Hlen.
    cbn [path_score forbidden_steps].
    rewrite (masked_score_from rest q0 1) by (assumption || fold L; lia).
    ring.
Qed.

End MaskEnforcement.

(** A path takes none of the transitions that its own mask forbids. *)
Lemma forbidden_from_own (rest : list nat) : forall (pre : list nat) (prev : nat),
  forbidden_from (pre ++ prev :: rest) prev (length pre + 1) rest = 0%nat.
Proof.
  induction rest as [| q rest IH]; intros pre prev; [reflexivity |].
  cbn [forbidden_from].
  replace (length pre + 1 - 1)%nat with (length pre) by lia.
  rewrite (nth_middle pre (q :: rest) prev 0%nat).
  replace (pre ++ prev :: q :: rest) with ((pre ++ [prev]) ++ q :: rest)
    by (rewrite <- app_assoc; reflexivity).
  replace (length pre + 1)%nat with (length (pre ++ [prev]))
    by (rewrite length_app; reflexivity).
  rewrite (nth_middle (pre ++ [prev]) rest q 0%nat).
  rewrite !Nat.eqb_refl. cbn [andb Nat.add].
  replace (S (length (pre ++ [prev]))) with (length (pre ++ [prev]) + 1)%nat by lia.
  apply IH.
Qed.

Lemma forbidden_steps_own (path : list nat) : forbidden_steps path path = 0%nat.
Proof.
  destruct path as [| q0 rest]; [reflexivity |].
  exact (forbidden_from_own rest [] q0).
Qed.

Section MaskExamples.

Import Viterbi.

Lemma uniform_cell_wf : cell_wf uniform_cell.
Proof.
  unfold cell_wf, is_mat. simpl. repeat split; try lia; repeat constructor.
Qed.

Lemma uniform_input_wf (sequences : mat) :
  (1 <= length sequences)%nat -> input_wf uniform_cell sequences.
Proof.
  intros H. split; [exact H |]. apply (call_is_mat [[1; 0]; [0; 1]] sequences).
Qed.

Lemma const_mask_wf (hmm_cell : HmmCell) (m : mat) :
  is_mat (max_num_states hmm_cell) (max_num_states hmm_cell) m ->
  mask_wf hmm_cell (Some (fun _ _ _ => m)).
Proof.
  intros H i sl. exact H.
Qed.

(** On the uniform model and the sequence of two symbols 0, the mask that
    allows only the transition 1 -> 1 designates the path [1; 1], which state
    1 cannot emit; the decoder returns [0; 0]. *)
Lemma uniform_masked_decode :
  viterbi (Indices [0%nat; 0%nat]) uniform_cell (Some only_1_to_1) = Some [0%Z; 0%Z].
Proof.
  destruct (viterbi_decodes uniform_cell (Indices [0%nat; 0%nat]) (Some only_1_to_1))
    as [_ Hv].
  - exact uniform_cell_wf.
  - apply uniform_input_wf. simpl. lia.
  - apply const_mask_wf. unfold is_mat. simpl. repeat split; repeat constructor.
  - rewrite Hv. f_equal.
    unfold decoded_path, gamma_table, gamma_init, uniform_cell, only_1_to_1.
    eval_decoder. reflexivity.
Qed.

Lemma only_0_to_0_wf : mask_wf absorbing_cell (Some only_0_to_0).
Proof.
  apply const_mask_wf. unfold is_mat. simpl. repeat split; repeat constructor.
Qed.

End MaskExamples.

(** C6 (as stated, refuted): a mask that forbids every transition except
    those of a designated path does not force the decoder onto that path.
    A forbidden transition costs the finite sentinel [-1000], and so does a
    state of the designated path that cannot emit its symbol: on the uniform
    two-state model the designated path [1; 1] loses against [0; 0]. *)
Lemma mask_enforcement_fails : ~ mask_enforcement_spec.
Proof.
  intros H.
  specialize (H uniform_cell (Viterbi.Indices [0%nat; 0%nat]) only_1_to_1 [1%nat; 1%nat]).
  cbv zeta in H.
  rewrite uniform_masked_decode in H.
  assert (Hfalse : Some [0%Z; 0%Z] = Some (map Z.of_nat [1%nat; 1%nat])).
  { apply H.
    - exact uniform_cell_wf.
    - apply uniform_input_wf. simpl. lia.
    - apply const_mask_wf. unfold is_mat. simpl. repeat split; repeat constructor.
    - split; [reflexivity |]. repeat constructor.
    - intros i q' q Hi Hq' Hq. simpl in Hi, Hq', Hq.
      assert (i = 1%nat) by lia. subst i.
      destruct q' as [| [| q']]; destruct q as [| [| q]]; try lia; reflexivity. }
  discriminate Hfalse.
Qed.

(** ** C10: the rows of the emission matrix *)

Section EmissionMatrix.

Lemma traverse_total {A B : Type} (f : A -> option B) (g : A -> B) (l : list A) :
  (forall a, In a l -> f a = Some (g a)) -> traverse f l = Some (map g l).
Proof.
  induction l as [| a l IH]; intros H; simpl; [reflexivity |].
  rewrite (H a) by (left; reflexivity). simpl.
  rewrite IH by (intros b Hb; apply H; right; exact Hb). reflexivity.
Qed.

Lemma vec_sum_app u v : vec_sum (u ++ v) = vec_sum u + vec_sum v.
Proof.
  induction u as [| x u IH]; simpl; [ring |]. rewrite IH. ring.
Qed.

Lemma vec_sum_map_div (g : R -> R) (z : R) (l : vec) :
  vec_sum (map (fun x => g x / z) l) = vec_sum (map g l) / z.
Proof.
  induction l as [| x l IH]; simpl; [unfold Rdiv; ring |].
  rewrite IH. unfold Rdiv. ring.
Qed.

Lemma vec_sum_exp_pos (l : vec) : l <> [] -> 0 < vec_sum (map exp l).
Proof.
  assert (Hge : forall l' : vec, 0 <= vec_sum (map exp l')).
  { induction l' as [| y l' IH]; simpl; [lra |]. pose proof (exp_pos y). lra. }
  destruct l as [| x l]; [congruence |]. intros _. simpl.
  pose proof (exp_pos x). specialize (Hge l). lra.
Qed.

Lemma softmax_length row : length (Emitter.softmax row) = length row.
Proof.
  unfold Emitter.softmax. apply length_map.
Qed.

Lemma softmax_sum row : row <> [] -> vec_sum (Emitter.softmax row) = 1.
Proof.
  intros Hne. unfold Emitter.softmax. rewrite vec_sum_map_div.
  pose proof (vec_sum_exp_pos row Hne). field. lra.
Qed.

Lemma softmax_nonneg row : row <> [] -> Forall (fun x => 0 <= x) (Emitter.softmax row).
Proof.
  intros Hne. unfold Emitter.softmax. apply Forall_forall. intros y Hy.
  apply in_map_iff in Hy. destruct Hy as [x [<- _]].
  pose proof (vec_sum_exp_pos row Hne). pose proof (exp_pos x).
  apply Rlt_le. apply Rdiv_lt_0_compat; assumption.
Qed.

Lemma indicator_sum (i : nat) : forall n a,
  vec_sum (map (fun j => if Nat.eqb j i then 1 else 0) (seq a n))
  = if ((a <=? i) && (i <? a + n))%nat then 1 else 0.
Proof.
  induction n as [| n IH]; intros a.
  - cbn [seq map vec_sum fold_right].
    destruct (Nat.leb_spec a i); destruct (Nat.ltb_spec i (a + 0)); cbn [andb];
      try lia; reflexivity.
  - cbn [seq map].
    change (vec_sum (?x :: ?l)) with (x + vec_sum l).
    rewrite IH.
    destruct (Nat.eqb_spec a i); destruct (Nat.leb_spec (S a) i);
      destruct (Nat.leb_spec a i); destruct (Nat.ltb_spec i (S a + n));
      destruct (Nat.ltb_spec i (a + S n)); cbn [andb]; try lia; lra.
Qed.

Lemma one_hot_sum i depth : (i < depth)%nat -> vec_sum (one_hot i depth) = 1.
Proof.
  intros Hi. unfold one_hot. rewrite indicator_sum. simpl.
  destruct (Nat.ltb_spec i depth); [reflexivity | lia].
Qed.

Lemma one_hot_nonneg i depth : Forall (fun x => 0 <= x) (one_hot i depth).
Proof.
  unfold one_hot. apply Forall_forall. intros y Hy.
  apply in_map_iff in Hy. destruct Hy as [j [<- _]].
  destruct (Nat.eqb j i); lra.
Qed.

Lemma same_width_true w (m : mat) :
  Forall (fun row => length row = w) m -> Emitter.same_width w m = true.
Proof.
  intros H. unfold Emitter.same_width. apply forallb_forall.
  rewrite Forall_forall in H. intros row Hrow. apply Nat.eqb_eq. apply H. exact Hrow.
Qed.

Lemma kernel_rows_width s (em : mat) (ins : vec) len :
  Forall (fun row => length row = s) em -> length ins = s ->
  Forall (fun row => length row = s) ([ins] ++ em ++ repeat ins (len + 1)).
Proof.
  intros Hem Hins. apply Forall_app. split; [repeat constructor; exact Hins |].
  apply Forall_app. split; [exact Hem |].
  apply Forall_forall. intros row Hrow. apply repeat_spec in Hrow. subst row. exact Hins.
Qed.

Lemma make_default_emission_matrix_rows s em ins len :
  (1 <= s)%nat -> Forall (fun row => length row = s) em -> length ins = s ->
  Emitter.make_default_emission_matrix s em ins len
  = Some (map (fun row => Emitter.softmax row ++ [0]) ([ins] ++ em ++ repeat ins (len + 1))
          ++ [one_hot s (s + 1)]).
Proof.
  intros Hs Hem Hins. unfold Emitter.make_default_emission_matrix.
  pose proof (kernel_rows_width s em ins len Hem Hins) as Hw.
  rewrite (same_width_true s _ Hw). cbn [negb].
  assert (Hrows : map (fun row => row ++ map (fun _ => 0) (firstn 1 row))
                    (map Emitter.softmax ([ins] ++ em ++ repeat ins (len + 1)))
                  = map (fun row => Emitter.softmax row ++ [0])
                      ([ins] ++ em ++ repeat ins (len + 1))).
  { rewrite map_map. apply map_ext_in. intros row Hrow.
    rewrite Forall_forall in Hw. specialize (Hw row Hrow).
    pose proof (softmax_length row) as Hl.
    destruct (Emitter.softmax row) as [| y ys]; [simpl in Hl; lia | reflexivity]. }
  rewrite Hrows.
  rewrite same_width_true; [reflexivity |].
  apply Forall_forall. intros r Hr. apply in_map_iff in Hr.
  destruct Hr as [row [<- Hrow]].
  rewrite Forall_forall in Hw. specialize (Hw row Hrow).
  rewrite length_app, softmax_length. simpl. lia.
Qed.

Lemma make_B_model s maxq em ins len :
  (1 <= s)%nat -> Forall (fun row => length row = s) em -> length ins = s ->
  (length em + len + 3 <= maxq)%nat ->
  bind (Emitter.make_default_emission_matrix s em ins len)
    (fun em_mat =>
       Emitter.pad_rows (s + 1) em_mat (Z.of_nat maxq - Z.of_nat (length em_mat))%Z)
  = Some (padded_emission_matrix s maxq em ins len).
Proof.
  intros Hs Hem Hins Hmax.
  rewrite make_default_emission_matrix_rows by assumption. cbn [bind].
  set (M := map (fun row => Emitter.softmax row ++ [0]) ([ins] ++ em ++ repeat ins (len + 1))
            ++ [one_hot s (s + 1)]).
  assert (HM : length M = (length em + len + 3)%nat).
  { unfold M. rewrite length_app, length_map, !length_app, repeat_length. simpl. lia. }
  assert (Hpad : Z.to_nat (Z.of_nat maxq - Z.of_nat (length M))
                 = (maxq - (length em + len + 3))%nat) by lia.
  unfold Emitter.pad_rows.
  destruct (Z.ltb_spec (Z.of_nat maxq - Z.of_nat (length M)) 0) as [Hneg | _]; [lia |].
  rewrite Hpad. reflexivity.
Qed.

Lemma width_nonempty {A : Type} (row : list A) s :
  (1 <= s)%nat -> length row = s -> row <> [].
Proof.
  intros Hs Hrow Hnil. subst row. simpl in Hrow. lia.
Qed.

(** The rows of the matrix of one model. *)
Lemma padded_emission_matrix_rows s maxq em ins len :
  (1 <= s)%nat -> Forall (fun row => length row = s) em -> length ins = s ->
  (length em + len + 3 <= maxq)%nat ->
  let Bk := padded_emission_matrix s maxq em ins len in
  let n := (length em + len + 3)%nat in
  length Bk = maxq
  /\ (forall i, (i < n)%nat ->
        vec_sum (nth i Bk []) = 1 /\ Forall (fun x => 0 <= x) (nth i Bk []))
  /\ (forall i, (i < n - 1)%nat -> nth s (nth i Bk []) 0 = 0)
  /\ nth (n - 1) Bk [] = one_hot s (s + 1)
  /\ (forall i, (n <= i < maxq)%nat -> nth i Bk [] = repeat 0 (s + 1)).
Proof.
  intros Hs Hem Hins Hmax Bk n.
  pose proof (kernel_rows_width s em ins len Hem Hins) as Hw.
  set (K := [ins] ++ em ++ repeat ins (len + 1)) in *.
  set (S1 := map (fun row => Emitter.softmax row ++ [0]) K).
  assert (HK : length K = (n - 1)%nat).
  { unfold K, n. rewrite !length_app, repeat_length. simpl. lia. }
  assert (HS1 : length S1 = (n - 1)%nat) by (unfold S1; rewrite length_map; exact HK).
  assert (HBk : Bk = (S1 ++ [one_hot s (s + 1)]) ++ repeat (repeat 0 (s + 1)) (maxq - n))
    by reflexivity.
  assert (Hsoft : forall i, (i < n - 1)%nat ->
            exists row, length row = s /\ nth i Bk [] = Emitter.softmax row ++ [0]).
  { intros i Hi. exists (nth i K []). split.
    - rewrite Forall_forall in Hw. apply Hw. apply nth_In. lia.
    - rewrite HBk. rewrite app_nth1 by (rewrite length_app, HS1; simpl; lia).
      rewrite app_nth1 by lia. unfold S1.
      apply (nth_map_lt (fun row => Emitter.softmax row ++ [0]) K i []). lia. }
  assert (Hend : nth (n - 1) Bk [] = one_hot s (s + 1)).
  { rewrite HBk. rewrite app_nth1 by (rewrite length_app, HS1; simpl; lia).
    rewrite app_nth2 by lia. rewrite HS1, Nat.sub_diag. reflexivity. }
  repeat split.
  - rewrite HBk. rewrite !length_app, HS1, repeat_length. simpl. lia.
  - destruct (Nat.eq_dec i (n - 1)) as [-> | Hne].
    + rewrite Hend. apply one_hot_sum. lia.
    + destruct (Hsoft i ltac:(lia)) as [row [Hrow ->]].
      rewrite vec_sum_app, softmax_sum by (apply (width_nonempty row s); assumption).
      simpl. ring.
  - destruct (Nat.eq_dec i (n - 1)) as [-> | Hne].
    + rewrite Hend. apply one_hot_nonneg.
    + destruct (Hsoft i ltac:(lia)) as [row [Hrow ->]].
      apply Forall_app. split.
      * apply softmax_nonneg. apply (width_nonempty row s); assumption.
      * constructor; [lra | constructor].
  - intros i Hi. destruct (Hsoft i Hi) as [row [Hrow ->]].
    rewrite app_nth2 by (rewrite softmax_length; lia).
    rewrite softmax_length, Hrow, Nat.sub_diag. reflexivity.
  - exact Hend.
  - intros i Hi. rewrite HBk.
    rewrite app_nth2 by (rewrite length_app, HS1; simpl; lia).
    apply nth_repeat_lt. rewrite length_app, HS1. simpl. lia.
Qed.

End EmissionMatrix.

Section MakeB.

Variable self : Emitter.ProfileHMMEmitter.
Hypothesis Hwf : emitter_wf self.

Let s := Emitter.alphabet_size self.
Let maxq := Emitter.max_num_states self.
Let kernels :=
  combine (combine (Emitter.emission_kernel self) (Emitter.insertion_kernel self))
          (Emitter.length self).
Let build (k : mat * vec * nat) : mat :=
  let '(em, ins, len) := k in padded_emission_matrix s maxq em ins len.

Lemma kernels_length : length kernels = length (Emitter.length self).
Proof.
  destruct Hwf as (_ & He & Hi & _).
  unfold kernels. rewrite !length_combine. lia.
Qed.

Lemma kernels_nth k :
  (k < length (Emitter.length self))%nat ->
  nth k kernels ([], [], 0%nat)
  = (nth k (Emitter.emission_kernel self) [], nth k (Emitter.insertion_kernel self) [],
     nth k (Emitter.length self) 0%nat).
Proof.
  intros Hk. destruct Hwf as (_ & He & Hi & _).
  unfold kernels.
  rewrite combine_nth by (rewrite length_combine; lia).
  rewrite combine_nth by lia. reflexivity.
Qed.

Lemma make_B_total : Emitter.make_B self = Some (map build kernels).
Proof.
  unfold Emitter.make_B. fold kernels.
  apply traverse_total. intros [[em ins] len] Hin.
  destruct (In_nth _ _ ([], [], 0%nat) Hin) as [k [Hk Hnth]].
  rewrite kernels_length in Hk. rewrite kernels_nth in Hnth by exact Hk.
  injection Hnth as <- <- <-.
  destruct Hwf as (Hs & _ & _ & Hall). destruct (Hall k Hk) as (Hlen & Hrows & Hins & Hmax).
  unfold build. apply make_B_model; auto. lia.
Qed.

End MakeB.

(** C10: for an emitter whose kernels have the shapes [build] gives them,
    [make_B] returns one matrix per model with [max_num_states] rows such
    that, for a model of length [len]: each of its [2 * len + 3] real-state
    rows is non-negative and sums to 1; every real-state row before the end
    state holds 0 at the terminal symbol (column [s]); the end-state row
    [2 * len + 2] is the one-hot vector of the terminal symbol; and every
    padding row beyond the real states is identically zero. *)
Theorem make_B_rows :
  forall self : Emitter.ProfileHMMEmitter,
    emitter_wf self ->
    exists B : list mat,
      Emitter.make_B self = Some B
      /\ length B = length (Emitter.length self)
      /\ forall k, (k < length (Emitter.length self))%nat ->
           length (nth k B []) = Emitter.max_num_states self
           /\ (forall i, (i < 2 * nth k (Emitter.length self) 0%nat + 3)%nat ->
                 vec_sum (nth i (nth k B []) []) = 1
                 /\ Forall (fun x => 0 <= x) (nth i (nth k B []) []))
           /\ (forall i, (i < 2 * nth k (Emitter.length self) 0%nat + 2)%nat ->
                 nth (Emitter.alphabet_size self) (nth i (nth k B []) []) 0 = 0)
           /\ nth (2 * nth k (Emitter.length self) 0%nat + 2) (nth k B []) []
              = one_hot (Emitter.alphabet_size self) (Emitter.alphabet_size self + 1)
           /\ (forall i,
                 (2 * nth k (Emitter.length self) 0%nat + 3 <= i
                  < Emitter.max_num_states self)%nat ->
                 nth i (nth k B []) [] = repeat 0 (Emitter.alphabet_size self + 1)).
Proof.
  intros self Hwf.
  eexists. split; [apply (make_B_total self Hwf) |].
  split; [rewrite length_map; apply kernels_length; exact Hwf |].
  intros k Hk.
  rewrite (nth_map_lt _ _ k ([], [], 0%nat)) by (rewrite kernels_length; assumption).
  rewrite kernels_nth by assumption.
  destruct Hwf as (Hs & _ & _ & Hall). destruct (Hall k Hk) as (Hlen & Hrows & Hins & Hmax).
  pose proof (padded_emission_matrix_rows (Emitter.alphabet_size self)
                (Emitter.max_num_states self) _ _ (nth k (Emitter.length self) 0%nat)
                Hs Hrows Hins ltac:(lia)) as H.
  cbv zeta in H. rewrite Hlen in H.
  replace (nth k (Emitter.length self) 0 + nth k (Emitter.length self) 0 + 3)%nat
    with (2 * nth k (Emitter.length self) 0 + 3)%nat in H by lia.
  replace (2 * nth k (Emitter.length self) 0 + 3 - 1)%nat
    with (2 * nth k (Emitter.length self) 0 + 2)%nat in H by lia.
  exact H.
Qed.

Lemma example_emitter_wf : emitter_wf example_emitter.
Proof.
  unfold emitter_wf. simpl. repeat split; try lia;
    destruct k as [| [| k]]; simpl in *; try lia; repeat constructor.
Qed.

Lemma make_B_rows_witness :
  exists B : list mat,
    Emitter.make_B example_emitter = Some B
    /\ length B = 2%nat
    /\ forall k, (k < 2)%nat ->
         length (nth k B []) = 5%nat
         /\ (forall i, (i < 2 * nth k [1%nat; 0%nat] 0%nat + 3)%nat ->
               vec_sum (nth i (nth k B []) []) = 1
               /\ Forall (fun x => 0 <= x) (nth i (nth k B []) []))
         /\ (forall i, (i < 2 * nth k [1%nat; 0%nat] 0%nat + 2)%nat ->
               nth 2 (nth i (nth k B []) []) 0 = 0)
         /\ nth (2 * nth k [1%nat; 0%nat] 0%nat + 2) (nth k B []) [] = one_hot 2 (2 + 1)
         /\ (forall i, (2 * nth k [1%nat; 0%nat] 0%nat + 3 <= i < 5)%nat ->
               nth i (nth k B []) [] = repeat 0 (2 + 1)).
Proof.
  apply (make_B_rows example_emitter). exact example_emitter_wf.
Defined.

(** ** C9: a sequence length that the parallel factor does not divide *)

Section Chunking.

Import Layer.

Lemma numel_chunks nm b P chunk q :
  numel [(nm * b * P)%nat; chunk; q] = (nm * b * q * (P * chunk))%nat.
Proof.
  unfold numel. simpl. nia.
Qed.

Lemma numel_emissions nm b seq_len q :
  numel [nm; b; seq_len; q] = (nm * b * q * seq_len)%nat.
Proof.
  unfold numel. simpl. nia.
Qed.

Lemma chunk_emission_probs_raises (q P : nat) (emis : Tensor -> Tensor) (inputs : Tensor)
    (num_model b seq_len s : nat) :
  shape inputs = [num_model; b; seq_len; s] ->
  length (data (emis inputs)) = numel [num_model; b; seq_len; q] ->
  (0 < num_model * b * q)%nat ->
  ~ Nat.divide P seq_len ->
  exists e, chunk_emission_probs q P emis inputs = Raise e.
Proof.
  intros Hshape Hdata Hpos Hdiv.
  unfold chunk_emission_probs. rewrite Hshape.
  unfold floordiv. destruct (Nat.eqb_spec P 0) as [-> | HP].
  - exists DivisionByZero. reflexivity.
  - cbn [rbind]. unfold tf_reshape.
    destruct (Nat.eqb_spec (numel [(num_model * b * P)%nat; (seq_len / P)%nat; q])
                (length (data (emis inputs)))) as [Heq | _].
    + exfalso. apply Hdiv.
      rewrite Hdata, numel_chunks, numel_emissions in Heq.
      exists (seq_len / P)%nat. nia.
    + exists ShapeError. reflexivity.
Qed.

(** When the parallel factor divides the length the reshape keeps every
    entry: nothing is dropped in the chunked tensor. *)
Lemma chunk_emission_probs_divisible (q P : nat) (emis : Tensor -> Tensor) (inputs : Tensor)
    (num_model b seq_len s : nat) :
  shape inputs = [num_model; b; seq_len; s] ->
  length (data (emis inputs)) = numel [num_model; b; seq_len; q] ->
  (0 < P)%nat -> Nat.divide P seq_len ->
  chunk_emission_probs q P emis inputs
  = Ok {| shape := [(num_model * b * P)%nat; (seq_len / P)%nat; q];
          data := data (emis inputs) |}.
Proof.
  intros Hshape Hdata HP [c Hc].
  unfold chunk_emission_probs. rewrite Hshape.
  unfold floordiv. destruct (Nat.eqb_spec P 0) as [-> | _]; [lia |].
  cbn [rbind]. unfold tf_reshape.
  destruct (Nat.eqb_spec (numel [(num_model * b * P)%nat; (seq_len / P)%nat; q])
              (length (data (emis inputs)))) as [_ | Hne]; [reflexivity |].
  exfalso. apply Hne.
  rewrite Hdata, numel_chunks, numel_emissions.
  subst seq_len. rewrite Nat.div_mul by lia. nia.
Qed.

End Chunking.

(** C9: if the sequence length of a non-empty batch is not divisible by
    [parallel_factor], then [forward_recursion], [backward_recursion] and
    [state_posterior_log_probs] all raise at the reshape into chunks (or at
    the division when the factor is 0), whatever the recurrent passes that
    would follow: no chunked tensor, hence no truncated one, is produced. *)
Theorem indivisible_length_raises :
  forall (Out : Type) (max_num_states parallel_factor : nat)
         (cell_emission_probs reverse_cell_emission_probs : Layer.Tensor -> Layer.Tensor)
         (run_forward run_backward run_posterior : Layer.Tensor -> Layer.result Out)
         (inputs : Layer.Tensor) (num_model b seq_len s : nat),
    Layer.shape inputs = [num_model; b; seq_len; s] ->
    length (Layer.data (cell_emission_probs inputs))
      = Layer.numel [num_model; b; seq_len; max_num_states] ->
    length (Layer.data (reverse_cell_emission_probs inputs))
      = Layer.numel [num_model; b; seq_len; max_num_states] ->
    (0 < num_model * b * max_num_states)%nat ->
    ~ Nat.divide parallel_factor seq_len ->
    (exists e, Layer.forward_recursion Out max_num_states parallel_factor
                 cell_emission_probs run_forward inputs = Layer.Raise e)
    /\ (exists e, Layer.backward_recursion Out max_num_states parallel_factor
                    reverse_cell_emission_probs run_backward inputs = Layer.Raise e)
    /\ (exists e, Layer.state_posterior_log_probs Out max_num_states parallel_factor
                    cell_emission_probs run_posterior inputs = Layer.Raise e).
Proof.
  intros Out q P emis remis runf runb runp inputs nm b seq_len s Hshape Hd Hrd Hpos Hdiv.
  destruct (chunk_emission_probs_raises q P emis inputs nm b seq_len s Hshape Hd Hpos Hdiv)
    as [e He].
  destruct (chunk_emission_probs_raises q P remis inputs nm b seq_len s Hshape Hrd Hpos Hdiv)
    as [e' He'].
  unfold Layer.forward_recursion, Layer.backward_recursion, Layer.state_posterior_log_probs.
  rewrite He, He'. cbn [Layer.rbind].
  repeat split; eexists; reflexivity.
Qed.

Lemma indivisible_length_raises_witness :
  (exists e, Layer.forward_recursion unit 1 2
               (fun _ => {| Layer.shape := [1%nat; 1%nat; 3%nat; 1%nat]; Layer.data := [1; 1; 1] |})
               (fun _ => Layer.Ok tt)
               {| Layer.shape := [1%nat; 1%nat; 3%nat; 2%nat];
                  Layer.data := [1; 0; 1; 0; 0; 1] |} = Layer.Raise e)
  /\ (exists e, Layer.backward_recursion unit 1 2
                  (fun _ => {| Layer.shape := [1%nat; 1%nat; 3%nat; 1%nat]; Layer.data := [1; 1; 1] |})
                  (fun _ => Layer.Ok tt)
                  {| Layer.shape := [1%nat; 1%nat; 3%nat; 2%nat];
                     Layer.data := [1; 0; 1; 0; 0; 1] |} = Layer.Raise e)
  /\ (exists e, Layer.state_posterior_log_probs unit 1 2
                  (fun _ => {| Layer.shape := [1%nat; 1%nat; 3%nat; 1%nat]; Layer.data := [1; 1; 1] |})
                  (fun _ => Layer.Ok tt)
                  {| Layer.shape := [1%nat; 1%nat; 3%nat; 2%nat];
                     Layer.data := [1; 0; 1; 0; 0; 1] |} = Layer.Raise e).
Proof.
  apply (indivisible_length_raises unit 1 2
           (fun _ => {| Layer.shape := [1%nat; 1%nat; 3%nat; 1%nat]; Layer.data := [1; 1; 1] |})
           (fun _ => {| Layer.shape := [1%nat; 1%nat; 3%nat; 1%nat]; Layer.data := [1; 1; 1] |})
           (fun _ => Layer.Ok tt) (fun _ => Layer.Ok tt) (fun _ => Layer.Ok tt)
           {| Layer.shape := [1%nat; 1%nat; 3%nat; 2%nat]; Layer.data := [1; 0; 1; 0; 0; 1] |}
           1%nat 1%nat 3%nat 2%nat).
  - reflexivity.
  - reflexivity.
  - reflexivity.
  - simpl. lia.
  - intros [c Hc]. lia.
Defined.

(** ** C8: [get_state_seqs_max_lik] and its call of [make_dataset] *)

(** [make_dataset] has no parameter [bucket_by_seq_length] and none called
    [model_lengths]: the call of [get_state_seqs_max_lik] is not accepted. *)
Lemma make_dataset_call_refused :
  Python.accepts Training.make_dataset_signature 3 Decode.make_dataset_keywords = false.
Proof. reflexivity. Qed.

(** The call of [make_dataset] in [fit_model] is accepted. *)
Lemma fit_model_call_accepted :
  Python.accepts Training.make_dataset_signature 3 Training.fit_model_keywords = true.
Proof. reflexivity. Qed.

(** C8: [get_state_seqs_max_lik] never returns its array.  Reading the
    attribute [crop_long_seqs] of a batch generator that has none raises
    [AttributeError]; otherwise the attribute is set to [math.inf] and the
    call of [make_dataset], with keyword arguments that [make_dataset] does
    not accept, raises [TypeError], which leaves the attribute at
    [math.inf].  The lines that initialise the output with the terminal-state
    ids and decode the batches are not reached. *)
Theorem get_state_seqs_max_lik_raises :
  forall (data_seq_lens : list nat) (batch_generator : Decode.BatchGenerator)
         (indices : list nat) (batch_size num_gpu : nat)
         (hmm_cells : list Viterbi.HmmCell) (num_states model_ids : list nat)
         (mask : option Viterbi.MaskFunc),
    (forall out : list (list (list Z)),
        snd (Decode.get_state_seqs_max_lik data_seq_lens batch_generator indices
               batch_size num_gpu hmm_cells num_states model_ids mask)
        <> Decode.Returns out)
    /\ Decode.get_state_seqs_max_lik data_seq_lens batch_generator indices
         batch_size num_gpu hmm_cells num_states model_ids mask
       = match Decode.crop_long_seqs batch_generator with
         | None => (batch_generator, Decode.Raises Decode.AttributeError)
         | Some _ =>
             (Decode.set_crop_long_seqs batch_generator Decode.math_inf,
              Decode.Raises Decode.TypeError)
         end.
Proof.
  intros data_seq_lens batch_generator indices batch_size num_gpu hmm_cells
    num_states model_ids mask.
  assert (Hrun :
    Decode.get_state_seqs_max_lik data_seq_lens batch_generator indices
      batch_size num_gpu hmm_cells num_states model_ids mask
    = match Decode.crop_long_seqs batch_generator with
      | None => (batch_generator, Decode.Raises Decode.AttributeError)
      | Some _ =>
          (Decode.set_crop_long_seqs batch_generator Decode.math_inf,
           Decode.Raises Decode.TypeError)
      end).
  { unfold Decode.get_state_seqs_max_lik. cbv zeta.
    destruct (Decode.crop_long_seqs batch_generator) as [old |]; [| reflexivity].
    rewrite make_dataset_call_refused.
    reflexivity. }
  split; [| exact Hrun].
  intros out. rewrite Hrun.
  destruct (Decode.crop_long_seqs batch_generator); discriminate.
Qed.

(** The batch generators of [Training.py] have no attribute
    [crop_long_seqs]: with one of them the call ends at the first read of
    the attribute. *)
Lemma training_generator_raises :
  forall (call : list nat -> option Decode.Batch) (data_seq_lens indices : list nat)
         (batch_size num_gpu : nat) (hmm_cells : list Viterbi.HmmCell)
         (num_states model_ids : list nat) (mask : option Viterbi.MaskFunc),
    Decode.get_state_seqs_max_lik data_seq_lens (Decode.generator_object call) indices
      batch_size num_gpu hmm_cells num_states model_ids mask
    = (Decode.generator_object call, Decode.Raises Decode.AttributeError).
Proof. reflexivity. Qed.

(** ** Padding states are never decoded *)

Section PaddingStates.

Import Viterbi.

Variable hmm_cell : HmmCell.
Variable sequences : mat.
Variable r : nat.

Let Q := max_num_states hmm_cell.
Let L := length sequences.
Let ems := emission_probs hmm_cell sequences.
Let gamma := gamma_table hmm_cell sequences None.

Hypothesis Hcell : cell_wf hmm_cell.
Hypothesis Hin : input_wf hmm_cell sequences.
Hypothesis Hpad : padding_from hmm_cell sequences r.

Lemma vec_maximum_mono (u v : vec) :
  u <> [] -> length u = length v ->
  (forall i, (i < length u)%nat -> nth i u 0 <= nth i v 0) ->
  vec_maximum u <= vec_maximum v.
Proof.
  intros Hne Hlen Hle. apply vec_maximum_le; [exact Hne |].
  intros i Hi. eapply Rle_trans; [apply Hle; exact Hi |].
  apply vec_maximum_ge. lia.
Qed.

(** An arg-max lies among the first [k] entries when each later entry is
    matched by one of them: ties go to the smallest index. *)
Lemma argmax_below (v : vec) (k : nat) :
  (1 <= k <= length v)%nat ->
  (forall p, (k <= p < length v)%nat -> exists q, (q < k)%nat /\ nth p v 0 <= nth q v 0) ->
  (argmax v < k)%nat.
Proof.
  intros Hk Hmatch.
  destruct (Nat.lt_ge_cases (argmax v) k) as [Hlt | Hge]; [exact Hlt | exfalso].
  assert (Hne : v <> []) by (intros ->; simpl in Hk; lia).
  pose proof (argmax_lt v Hne) as Ha.
  destruct (Hmatch (argmax v) ltac:(lia)) as [q [Hq Hle]].
  pose proof (argmax_first v q ltac:(lia)). lra.
Qed.

Lemma real_state_0 : (0 < Q)%nat.
Proof. pose proof (cell_wf_pos hmm_cell Hcell). unfold Q. lia. Qed.

(** A padding state never scores above state 0. *)
Lemma padding_below_first i p :
  (i < L)%nat -> (r <= p < Q)%nat -> entry gamma i p <= entry gamma i 0.
Proof.
  intros Hi Hp. destruct Hpad as (Hr & Hlow & Hcol & Hrow & Hinit & Hem).
  pose proof real_state_0 as H0.
  destruct i as [| i].
  - unfold gamma. rewrite !gamma_entry_0 by (auto; lia).
    rewrite (Hinit p Hp), (Hem 0%nat p Hi Hp), safe_log_zero.
    pose proof (safe_log_lower (nth 0 (init_dist hmm_cell) 0)).
    pose proof (safe_log_lower (entry (emission_probs hmm_cell sequences) 0 0)). lra.
  - unfold gamma. rewrite !(gamma_entry_S hmm_cell sequences None Hcell Hin I) by (auto; lia).
    rewrite (Hem (S i) p Hi Hp), safe_log_zero.
    pose proof (safe_log_lower (entry (emission_probs hmm_cell sequences) (S i) 0)).
    assert (vec_maximum (trans_terms hmm_cell sequences None (S i)
                           (nth i (gamma_table hmm_cell sequences None) []) p)
            <= vec_maximum (trans_terms hmm_cell sequences None (S i)
                              (nth i (gamma_table hmm_cell sequences None) []) 0));
      [| lra].
    apply vec_maximum_mono.
    + intros Hnil.
      pose proof (trans_terms_length hmm_cell sequences None (S i)
                    (nth i (gamma_table hmm_cell sequences None) []) p) as Hl.
      rewrite Hnil in Hl. simpl in Hl. unfold Q in H0. lia.
    + rewrite !trans_terms_length. reflexivity.
    + intros q' Hq'. rewrite trans_terms_length in Hq'.
      rewrite !trans_terms_nth by exact Hq'. unfold mask_term.
      specialize (Hcol q' p Hq' Hp). specialize (Hlow q' 0%nat Hq' H0). lra.
Qed.

Lemma last_state_real : (argmax (nth (L - 1) gamma []) < r)%nat.
Proof.
  destruct Hpad as (Hr & _).
  pose proof (input_wf_len hmm_cell sequences Hin) as HL.
  assert (Hrow : length (nth (L - 1) gamma []) = Q).
  { apply gamma_row_length; auto. exact I. fold L. lia. }
  apply argmax_below; [rewrite Hrow; exact Hr |].
  intros p Hp. rewrite Hrow in Hp. exists 0%nat. split; [lia |].
  apply (padding_below_first (L - 1) p); [fold L in HL; lia | exact Hp].
Qed.

Lemma predecessor_real i q :
  (S i < L)%nat -> (q < Q)%nat ->
  (viterbi_backtracking_step q (nth i gamma []) hmm_cell
     (apply_mask_func None (S i) (seq_lens sequences) hmm_cell) < r)%nat.
Proof.
  intros Hi Hq. destruct Hpad as (Hr & Hlow & Hcol & Hrow & _).
  pose proof real_state_0 as H0.
  assert (Hg : length (nth i gamma []) = Q).
  { apply gamma_row_length; auto. exact I. fold L. lia. }
  rewrite (viterbi_backtracking_step_argmax hmm_cell sequences None Hcell I) by assumption.
  apply argmax_below; [rewrite trans_terms_length; exact Hr |].
  intros p Hp. rewrite trans_terms_length in Hp. exists 0%nat. split; [lia |].
  rewrite !trans_terms_nth by (fold Q; lia). unfold mask_term.
  specialize (Hrow p q Hp Hq). specialize (Hlow 0%nat q H0 Hq).
  pose proof (padding_below_first i p ltac:(lia) Hp) as Hb.
  unfold entry in *. unfold gamma in *. lra.
Qed.

Lemma backtrack_real i : forall q,
  (i < L)%nat -> (q < Q)%nat ->
  Forall (fun s => (s < r)%nat) (backtrack hmm_cell sequences None gamma q i).
Proof.
  induction i as [| i IH]; intros q Hi Hq; cbn [backtrack]; [constructor |].
  rewrite Nat.add_1_r.
  pose proof (predecessor_real i q Hi Hq) as Hpred.
  destruct Hpad as (Hr & _).
  apply Forall_app. split.
  - apply IH; [lia |]. fold Q in Hr. lia.
  - constructor; [exact Hpred | constructor].
Qed.

Lemma decoded_path_real :
  Forall (fun s => (s < r)%nat) (decoded_path hmm_cell sequences None).
Proof.
  pose proof (input_wf_len hmm_cell sequences Hin) as HL.
  pose proof last_state_real as Hlast.
  destruct Hpad as (Hr & _).
  unfold decoded_path. cbv zeta. fold L gamma.
  apply Forall_app. split.
  - apply backtrack_real; [fold L in HL; lia |]. fold Q in Hr. lia.
  - constructor; [exact Hlast | constructor].
Qed.

End PaddingStates.

(** X1: when the states from [r] on are padding (no initial, emission or
    transition mass) and no entry of the log transition matrix is below the
    sentinel, [viterbi] decodes real states only: no padding state is ever
    selected as an arg-max, neither at the last position nor as a
    predecessor. *)
Theorem viterbi_never_decodes_padding :
  forall (hmm_cell : Viterbi.HmmCell) (input : Viterbi.SeqInput) (r : nat),
    cell_wf hmm_cell ->
    input_wf hmm_cell (Viterbi.encode input hmm_cell) ->
    padding_from hmm_cell (Viterbi.encode input hmm_cell) r ->
    exists path : list Z,
      Viterbi.viterbi input hmm_cell None = Some path
      /\ length path = length (Viterbi.encode input hmm_cell)
      /\ Forall (fun s => (0 <= s < Z.of_nat r)%Z) path.
Proof.
  intros hmm_cell input r Hcell Hin Hpad.
  destruct (viterbi_decodes hmm_cell input None Hcell Hin I) as [_ Hv].
  exists (map Z.of_nat (decoded_path hmm_cell (Viterbi.encode input hmm_cell) None)).
  split; [exact Hv |].
  split; [rewrite length_map; apply decoded_path_length; assumption |].
  apply Forall_forall. intros s Hs. apply in_map_iff in Hs. destruct Hs as [n [<- Hn]].
  pose proof (decoded_path_real hmm_cell _ r Hcell Hin Hpad) as Hreal.
  rewrite Forall_forall in Hreal. specialize (Hreal n Hn). lia.
Qed.

Lemma padded_cell_wf : cell_wf padded_cell.
Proof.
  unfold cell_wf, is_mat. simpl. repeat split; try lia; repeat constructor.
Qed.

Lemma viterbi_never_decodes_padding_witness :
  exists path : list Z,
    Viterbi.viterbi (Viterbi.Indices [0%nat; 0%nat]) padded_cell None = Some path
    /\ length path = length (Viterbi.encode (Viterbi.Indices [0%nat; 0%nat]) padded_cell)
    /\ Forall (fun s => (0 <= s < Z.of_nat 1)%Z) path.
Proof.
  apply (viterbi_never_decodes_padding padded_cell (Viterbi.Indices [0%nat; 0%nat]) 1%nat).
  - exact padded_cell_wf.
  - split; [simpl; lia |]. apply (call_is_mat [[1]; [0]]).
  - unfold padding_from. simpl. repeat split; try lia.
    + intros q' q Hq' Hq.
      destruct q' as [| [| q']]; destruct q as [| [| q]]; try lia; unfold entry; simpl; lra.
    + intros q' p Hq' Hp.
      destruct q' as [| [| q']]; destruct p as [| [| p]]; try lia; unfold entry; simpl; lra.
    + intros p q Hp Hq.
      destruct p as [| [| p]]; destruct q as [| [| q]]; try lia; unfold entry; simpl; lra.
    + intros p Hp. destruct p as [| [| p]]; try lia. reflexivity.
    + intros i p Hi Hp.
      destruct i as [| [| i]]; destruct p as [| [| p]]; try lia;
        unfold entry; simpl; ring.
Defined.

(** ** Further properties of the decoder and of the chunking *)

(** X2: with a mask function, the decoded path is optimal for the masked
    score: the sum of the initial, transition, mask and emission
    log-probabilities along the path returned by [viterbi] equals the maximum
    of the last row of the table of [viterbi_dyn_prog]. *)
Theorem viterbi_path_optimal_masked :
  forall (hmm_cell : Viterbi.HmmCell) (input : Viterbi.SeqInput) (f : Viterbi.MaskFunc),
    cell_wf hmm_cell ->
    input_wf hmm_cell (Viterbi.encode input hmm_cell) ->
    mask_wf hmm_cell (Some f) ->
    exists (path : list Z) (gamma : mat),
      Viterbi.viterbi input hmm_cell (Some f) = Some path
      /\ Viterbi.viterbi_dyn_prog (Viterbi.encode input hmm_cell) hmm_cell (Some f)
         = Some gamma
      /\ length path = length (Viterbi.encode input hmm_cell)
      /\ path_score hmm_cell (Viterbi.encode input hmm_cell) (Some f) (map Z.to_nat path)
         = vec_maximum (nth (length (Viterbi.encode input hmm_cell) - 1) gamma []).
Proof.
  intros hmm_cell input f Hcell Hin Hmask.
  destruct (viterbi_decodes hmm_cell input (Some f) Hcell Hin Hmask) as [Hdp Hv].
  exists (map Z.of_nat (decoded_path hmm_cell (Viterbi.encode input hmm_cell) (Some f))).
  exists (gamma_table hmm_cell (Viterbi.encode input hmm_cell) (Some f)).
  split; [exact Hv |]. split; [exact Hdp |].
  split; [rewrite length_map; apply decoded_path_length; assumption |].
  rewrite map_to_nat_of_nat. apply decoded_path_score; assumption.
Qed.

Lemma viterbi_path_optimal_masked_witness :
  exists (path : list Z) (gamma : mat),
    Viterbi.viterbi (Viterbi.Indices [0%nat; 1%nat]) absorbing_cell (Some only_0_to_0)
      = Some path
    /\ Viterbi.viterbi_dyn_prog
         (Viterbi.encode (Viterbi.Indices [0%nat; 1%nat]) absorbing_cell)
         absorbing_cell (Some only_0_to_0) = Some gamma
    /\ length path = length (Viterbi.encode (Viterbi.Indices [0%nat; 1%nat]) absorbing_cell)
    /\ path_score absorbing_cell
         (Viterbi.encode (Viterbi.Indices [0%nat; 1%nat]) absorbing_cell)
         (Some only_0_to_0) (map Z.to_nat path)
       = vec_maximum
           (nth (length (Viterbi.encode (Viterbi.Indices [0%nat; 1%nat]) absorbing_cell) - 1)
              gamma []).
Proof.
  apply (viterbi_path_optimal_masked absorbing_cell (Viterbi.Indices [0%nat; 1%nat])
           only_0_to_0).
  - exact absorbing_cell_wf.
  - apply absorbing_input_wf. simpl. lia.
  - exact only_0_to_0_wf.
Defined.

(** X3: when [parallel_factor] is positive and divides the sequence length,
    [forward_recursion] hands the recurrent pass a tensor of shape
    [(num_model * b * parallel_factor, seq_len / parallel_factor, q)] that
    holds every emission entry in its original order: the chunking drops and
    reorders nothing. *)
Theorem divisible_length_chunks :
  forall (Out : Type) (max_num_states parallel_factor : nat)
         (cell_emission_probs : Layer.Tensor -> Layer.Tensor)
         (run_forward : Layer.Tensor -> Layer.result Out)
         (inputs : Layer.Tensor) (num_model b seq_len s : nat),
    Layer.shape inputs = [num_model; b; seq_len; s] ->
    length (Layer.data (cell_emission_probs inputs))
      = Layer.numel [num_model; b; seq_len; max_num_states] ->
    (0 < parallel_factor)%nat ->
    Nat.divide parallel_factor seq_len ->
    Layer.forward_recursion Out max_num_states parallel_factor
      cell_emission_probs run_forward inputs
    = run_forward
        {| Layer.shape := [(num_model * b * parallel_factor)%nat;
                           (seq_len / parallel_factor)%nat; max_num_states];
           Layer.data := Layer.data (cell_emission_probs inputs) |}.
Proof.
  intros Out q P emis runf inputs nm b seq_len s Hshape Hd HP Hdiv.
  unfold Layer.forward_recursion.
  rewrite (chunk_emission_probs_divisible q P emis inputs nm b seq_len s Hshape Hd HP Hdiv).
  reflexivity.
Qed.

Lemma divisible_length_chunks_witness :
  Layer.forward_recursion (list R) 1 2
    (fun _ => {| Layer.shape := [1%nat; 1%nat; 4%nat; 1%nat]; Layer.data := [1; 2; 3; 4] |})
    (fun t => Layer.Ok (Layer.data t))
    {| Layer.shape := [1%nat; 1%nat; 4%nat; 2%nat]; Layer.data := [1; 0; 1; 0; 0; 1; 0; 1] |}
  = (fun t => Layer.Ok (Layer.data t))
      {| Layer.shape := [(1 * 1 * 2)%nat; (4 / 2)%nat; 1%nat];
         Layer.data :=
           Layer.data
             ((fun _ : Layer.Tensor =>
                 {| Layer.shape := [1%nat; 1%nat; 4%nat; 1%nat]; Layer.data := [1; 2; 3; 4] |})
                {| Layer.shape := [1%nat; 1%nat; 4%nat; 2%nat];
                   Layer.data := [1; 0; 1; 0; 0; 1; 0; 1] |}) |}.
Proof.
  apply (divisible_length_chunks (list R) 1 2
           (fun _ => {| Layer.shape := [1%nat; 1%nat; 4%nat; 1%nat];
                        Layer.data := [1; 2; 3; 4] |})
           (fun t => Layer.Ok (Layer.data t))
           {| Layer.shape := [1%nat; 1%nat; 4%nat; 2%nat];
              Layer.data := [1; 0; 1; 0; 0; 1; 0; 1] |}
           1%nat 1%nat 4%nat 2%nat).
  - reflexivity.
  - reflexivity.
  - lia.
  - exists 2%nat. reflexivity.
Defined.

(** ** Padding a model does not change the decoded path *)

Section PaddingInvariance.

Import Viterbi.

Variable hmm_cell : HmmCell.
Variable sequences : mat.
Variable k : nat.

Let Q := max_num_states hmm_cell.
Let L := length sequences.
Let padded := pad_cell hmm_cell k.
Let gamma := gamma_table hmm_cell sequences None.
Let gamma' := gamma_table padded sequences None.

Hypothesis Hcell : cell_wf hmm_cell.
Hypothesis Hin : input_wf hmm_cell sequences.
Hypothesis Hbound : (Z.of_nat (Q + k) <= 32768)%Z.
Hypothesis Hlow : forall q' q, (q' < Q)%nat -> (q < Q)%nat ->
                               -1000 <= entry (log_A_dense hmm_cell) q' q.

Lemma argmax_char (v : vec) (a : nat) :
  (a < length v)%nat ->
  (forall j, (j < length v)%nat -> nth j v 0 <= nth a v 0) ->
  (forall j, (j < a)%nat -> nth j v 0 < nth a v 0) ->
  argmax v = a.
Proof.
  intros Ha Hmax Hfirst.
  assert (Hne : v <> []) by (intros ->; simpl in Ha; lia).
  pose proof (argmax_lt v Hne) as Hb.
  pose proof (Hmax _ Hb) as H1.
  pose proof (argmax_maximum v Hne) as Hm.
  pose proof (vec_maximum_ge v a Ha) as H2.
  destruct (Nat.lt_trichotomy (argmax v) a) as [Hlt | [Heq | Hgt]]; [| exact Heq |].
  - specialize (Hfirst _ Hlt). lra.
  - pose proof (argmax_first v a Hgt). lra.
Qed.

(** Entries appended after a vector that do not exceed its maximum change
    neither the maximum nor the arg-max. *)
Lemma vec_maximum_app (u w : vec) :
  u <> [] -> (forall x, In x w -> x <= vec_maximum u) ->
  vec_maximum (u ++ w) = vec_maximum u.
Proof.
  intros Hne Hw. apply Rle_antisym.
  - apply vec_maximum_le; [destruct u; [congruence | discriminate] |].
    intros i Hi. rewrite length_app in Hi.
    destruct (Nat.lt_ge_cases i (length u)) as [Hlt | Hge].
    + rewrite app_nth1 by exact Hlt. apply vec_maximum_ge. exact Hlt.
    + rewrite app_nth2 by exact Hge. apply Hw. apply nth_In. lia.
  - rewrite <- (argmax_maximum u Hne).
    pose proof (argmax_lt u Hne) as Ha.
    rewrite <- (app_nth1 u w 0 Ha).
    apply vec_maximum_ge. rewrite length_app. lia.
Qed.

Lemma argmax_app (u w : vec) :
  u <> [] -> (forall x, In x w -> x <= vec_maximum u) ->
  argmax (u ++ w) = argmax u.
Proof.
  intros Hne Hw.
  pose proof (argmax_lt u Hne) as Ha.
  pose proof (argmax_maximum u Hne) as Hm.
  apply argmax_char.
  - rewrite length_app. lia.
  - intros j Hj. rewrite length_app in Hj.
    rewrite (app_nth1 u w 0 Ha), Hm.
    destruct (Nat.lt_ge_cases j (length u)) as [Hlt | Hge].
    + rewrite app_nth1 by exact Hlt. apply vec_maximum_ge. exact Hlt.
    + rewrite app_nth2 by exact Hge. apply Hw. apply nth_In. lia.
  - intros j Hj. rewrite !app_nth1 by lia. apply argmax_first. exact Hj.
Qed.

Lemma wf_A : is_mat Q Q (log_A_dense hmm_cell).
Proof. apply cell_wf_A. exact Hcell. Qed.

Lemma wf_Q : (1 <= Q)%nat.
Proof. apply cell_wf_pos. exact Hcell. Qed.

Lemma padded_A_real q' q :
  (q' < Q)%nat -> (q < Q)%nat ->
  entry (log_A_dense padded) q' q = entry (log_A_dense hmm_cell) q' q.
Proof.
  intros Hq' Hq. pose proof wf_A as HA.
  unfold entry, padded, pad_cell. cbn [log_A_dense].
  rewrite app_nth1 by (rewrite length_map; destruct HA; lia).
  rewrite (nth_map_lt _ _ q' []) by (destruct HA; lia).
  rewrite app_nth1 by (rewrite (is_mat_row Q Q _ q' HA Hq'); exact Hq).
  reflexivity.
Qed.

Lemma padded_A_pad q' q :
  (q' < Q + k)%nat -> (q < Q + k)%nat -> (Q <= q' \/ Q <= q)%nat ->
  entry (log_A_dense padded) q' q = -1000.
Proof.
  intros Hq' Hq Hpad. pose proof wf_A as HA.
  unfold entry, padded, pad_cell. cbn [log_A_dense]. fold Q.
  destruct (Nat.lt_ge_cases q' Q) as [Hlt | Hge].
  - rewrite app_nth1 by (rewrite length_map; destruct HA; lia).
    rewrite (nth_map_lt _ _ q' []) by (destruct HA; lia).
    rewrite app_nth2 by (rewrite (is_mat_row Q Q _ q' HA Hlt); lia).
    apply nth_repeat_lt. rewrite (is_mat_row Q Q _ q' HA Hlt). lia.
  - rewrite app_nth2 by (rewrite length_map; destruct HA; lia).
    rewrite length_map. destruct HA as [HAl _]. rewrite HAl.
    rewrite nth_repeat_lt by lia. apply nth_repeat_lt. exact Hq.
Qed.

Lemma padded_cell_is_wf : cell_wf padded.
Proof.
  pose proof wf_A as [HAl HAr]. pose proof wf_Q.
  destruct Hcell as (_ & _ & _ & Hinit).
  unfold cell_wf, padded, pad_cell. cbn [max_num_states log_A_dense init_dist]. fold Q.
  repeat split.
  - lia.
  - exact Hbound.
  - rewrite length_app, length_map, repeat_length. lia.
  - apply Forall_app. split.
    + apply Forall_forall. intros row Hrow. apply in_map_iff in Hrow.
      destruct Hrow as [r0 [<- Hr0]]. rewrite length_app, repeat_length.
      rewrite Forall_forall in HAr. rewrite (HAr r0 Hr0). reflexivity.
    + apply Forall_forall. intros row Hrow. apply repeat_spec in Hrow. subst row.
      apply repeat_length.
  - rewrite length_app, repeat_length. fold Q in Hinit. lia.
Qed.

Lemma padded_input_wf : input_wf padded sequences.
Proof.
  destruct Hin as [HL [Hel Her]]. split; [exact HL |].
  unfold padded, pad_cell. cbn [max_num_states emission_probs]. split.
  - rewrite length_map. exact Hel.
  - apply Forall_forall. intros row Hrow. apply in_map_iff in Hrow.
    destruct Hrow as [r0 [<- Hr0]]. rewrite length_app, repeat_length.
    rewrite Forall_forall in Her. rewrite (Her r0 Hr0). reflexivity.
Qed.

Lemma padded_ems_real i q :
  (i < L)%nat -> (q < Q)%nat ->
  entry (emission_probs padded sequences) i q = entry (emission_probs hmm_cell sequences) i q.
Proof.
  intros Hi Hq. unfold entry, padded, pad_cell. cbn [emission_probs].
  pose proof (input_wf_ems hmm_cell sequences Hin) as He.
  rewrite (nth_map_lt _ _ i []) by (destruct He; fold L; lia).
  rewrite app_nth1 by (rewrite (ems_row_length hmm_cell sequences Hin i Hi); exact Hq).
  reflexivity.
Qed.

Lemma padded_ems_pad i p :
  (i < L)%nat -> (Q <= p < Q + k)%nat -> entry (emission_probs padded sequences) i p = 0.
Proof.
  intros Hi Hp. unfold entry, padded, pad_cell. cbn [emission_probs].
  pose proof (input_wf_ems hmm_cell sequences Hin) as He.
  rewrite (nth_map_lt _ _ i []) by (destruct He; fold L; lia).
  rewrite app_nth2 by (rewrite (ems_row_length hmm_cell sequences Hin i Hi); fold Q; lia).
  apply nth_repeat_lt. rewrite (ems_row_length hmm_cell sequences Hin i Hi). fold Q. lia.
Qed.

Lemma padded_is_padding : padding_from padded sequences Q.
Proof.
  pose proof wf_Q. destruct Hcell as (_ & _ & _ & Hinit). fold Q in Hinit.
  unfold padding_from. change (max_num_states padded) with (Q + k)%nat.
  repeat split; try lia.
  - intros q' q Hq' Hq.
    destruct (Nat.lt_ge_cases q' Q); destruct (Nat.lt_ge_cases q Q);
      try (rewrite padded_A_pad by lia; lra).
    rewrite padded_A_real by assumption. apply Hlow; assumption.
  - intros q' p Hq' Hp. rewrite padded_A_pad by lia. lra.
  - intros p q Hp Hq. rewrite padded_A_pad by lia. lra.
  - intros p Hp. unfold padded, pad_cell. cbn [init_dist].
    rewrite app_nth2 by lia. apply nth_repeat_lt. lia.
  - intros i p Hi Hp. apply padded_ems_pad; assumption.
Qed.

(** The terms maximised for a real target state: those of the unpadded
    model followed by the terms of the padding predecessors. *)
Lemma padded_trans_terms i (g g' : vec) q :
  (q < Q)%nat -> (forall q', (q' < Q)%nat -> nth q' g' 0 = nth q' g 0) ->
  trans_terms padded sequences None i g' q
  = trans_terms hmm_cell sequences None i g q
    ++ map (fun p => -1000 + 0 + nth p g' 0) (seq Q k).
Proof.
  intros Hq Hg. unfold trans_terms.
  change (max_num_states padded) with (Q + k)%nat. fold Q.
  rewrite seq_app, map_app. f_equal.
  - apply map_ext_in. intros q' Hq'. apply in_seq in Hq'.
    rewrite padded_A_real by lia. rewrite Hg by lia. reflexivity.
  - apply map_ext_in. intros p Hp. apply in_seq in Hp. simpl in Hp.
    rewrite padded_A_pad by lia. reflexivity.
Qed.

Lemma trans_terms_nonempty i g q : trans_terms hmm_cell sequences None i g q <> [].
Proof.
  intros Hnil. pose proof (trans_terms_length hmm_cell sequences None i g q) as Hl.
  rewrite Hnil in Hl. simpl in Hl. pose proof wf_Q. unfold Q in *. lia.
Qed.

(** A padding predecessor never beats the real state 0. *)
Lemma padding_terms_below i (g g' : vec) q :
  (q < Q)%nat -> (forall q', (q' < Q)%nat -> nth q' g' 0 = nth q' g 0) ->
  (forall p, (Q <= p < Q + k)%nat -> nth p g' 0 <= nth 0 g' 0) ->
  forall x, In x (map (fun p => -1000 + 0 + nth p g' 0) (seq Q k)) ->
    x <= vec_maximum (trans_terms hmm_cell sequences None i g q).
Proof.
  intros Hq Hg Hpads x Hx. apply in_map_iff in Hx. destruct Hx as [p [<- Hp]].
  apply in_seq in Hp. pose proof wf_Q as H0.
  eapply Rle_trans;
    [| apply (vec_maximum_ge (trans_terms hmm_cell sequences None i g q) 0);
       rewrite trans_terms_length; unfold Q in H0; lia].
  rewrite trans_terms_nth by (unfold Q in H0; lia). unfold mask_term.
  specialize (Hpads p ltac:(lia)). rewrite (Hg 0%nat ltac:(lia)) in Hpads.
  specialize (Hlow 0%nat q ltac:(lia) Hq). lra.
Qed.

Lemma padded_gamma_pads i p :
  (i < L)%nat -> (Q <= p < Q + k)%nat -> entry gamma' i p <= entry gamma' i 0.
Proof.
  intros Hi Hp.
  apply (padding_below_first padded sequences Q padded_cell_is_wf padded_input_wf
           padded_is_padding i p Hi).
  change (max_num_states padded) with (Q + k)%nat. exact Hp.
Qed.

(** The scores of the real states are those of the unpadded model. *)
Lemma padded_gamma_real i :
  (i < L)%nat -> forall q, (q < Q)%nat -> entry gamma' i q = entry gamma i q.
Proof.
  induction i as [| i IH]; intros Hi q Hq.
  - unfold gamma', gamma.
    rewrite (gamma_entry_0 padded sequences None padded_cell_is_wf padded_input_wf)
      by (change (max_num_states padded) with (Q + k)%nat; lia).
    rewrite (gamma_entry_0 hmm_cell sequences None Hcell Hin) by exact Hq.
    rewrite padded_ems_real by assumption.
    unfold padded, pad_cell. cbn [init_dist].
    destruct Hcell as (_ & _ & _ & Hinit). fold Q in Hinit.
    rewrite app_nth1 by lia. reflexivity.
  - unfold gamma', gamma.
    rewrite (gamma_entry_S padded sequences None padded_cell_is_wf padded_input_wf I)
      by (auto; change (max_num_states padded) with (Q + k)%nat; lia).
    rewrite (gamma_entry_S hmm_cell sequences None Hcell Hin I) by assumption.
    rewrite padded_ems_real by assumption.
    f_equal.
    assert (Hagree : forall q', (q' < Q)%nat ->
              nth q' (nth i (gamma_table padded sequences None) []) 0
              = nth q' (nth i (gamma_table hmm_cell sequences None) []) 0).
    { intros q' Hq'. apply (IH ltac:(lia) q' Hq'). }
    rewrite (padded_trans_terms (S i) _ _ q Hq Hagree).
    apply vec_maximum_app; [apply trans_terms_nonempty |].
    apply padding_terms_below; [exact Hq | exact Hagree |].
    intros p Hp. apply (padded_gamma_pads i p ltac:(lia) Hp).
Qed.

Lemma padded_row_split i :
  (i < L)%nat ->
  nth i gamma' [] = nth i gamma [] ++ skipn Q (nth i gamma' []).
Proof.
  intros Hi.
  assert (Hl' : length (nth i gamma' []) = (Q + k)%nat).
  { apply (gamma_row_length padded sequences None padded_cell_is_wf padded_input_wf I).
    exact Hi. }
  assert (Hl : length (nth i gamma []) = Q).
  { apply (gamma_row_length hmm_cell sequences None Hcell Hin I). exact Hi. }
  rewrite <- (firstn_skipn Q (nth i gamma' [])) at 1. f_equal.
  apply (nth_ext _ _ 0 0).
  - rewrite length_firstn. lia.
  - intros q Hq. rewrite length_firstn in Hq.
    rewrite nth_firstn. destruct (Nat.ltb_spec q Q) as [Hlt | Hge]; [| lia].
    apply (padded_gamma_real i Hi q Hlt).
Qed.

Lemma padded_row_pads i x :
  (i < L)%nat -> In x (skipn Q (nth i gamma' [])) -> x <= vec_maximum (nth i gamma []).
Proof.
  intros Hi Hx.
  assert (Hl' : length (nth i gamma' []) = (Q + k)%nat).
  { apply (gamma_row_length padded sequences None padded_cell_is_wf padded_input_wf I).
    exact Hi. }
  destruct (In_nth _ _ 0 Hx) as [j [Hj <-]].
  rewrite length_skipn, Hl' in Hj. rewrite nth_skipn.
  pose proof (padded_gamma_pads i (Q + j) Hi ltac:(lia)) as Hp.
  pose proof wf_Q as H0.
  rewrite (padded_gamma_real i Hi 0%nat ltac:(lia)) in Hp.
  unfold entry in Hp. eapply Rle_trans; [exact Hp |].
  apply vec_maximum_ge.
  pose proof (gamma_row_length hmm_cell sequences None Hcell Hin I i Hi) as Hl.
  unfold gamma, Q in *. lia.
Qed.

Lemma gamma_row_nonempty i : (i < L)%nat -> nth i gamma [] <> [].
Proof.
  intros Hi Hnil.
  pose proof (gamma_row_length hmm_cell sequences None Hcell Hin I i Hi) as Hl.
  unfold gamma in Hnil. rewrite Hnil in Hl. simpl in Hl. pose proof wf_Q. unfold Q in *. lia.
Qed.

Lemma padded_last_state :
  argmax (nth (L - 1) gamma' []) = argmax (nth (L - 1) gamma []).
Proof.
  pose proof (input_wf_len hmm_cell sequences Hin) as HL. fold L in HL.
  rewrite (padded_row_split (L - 1)) by lia.
  apply argmax_app; [apply gamma_row_nonempty; lia |].
  intros x Hx. apply (padded_row_pads (L - 1) x); [lia | exact Hx].
Qed.

Lemma padded_predecessor i q :
  (S i < L)%nat -> (q < Q)%nat ->
  viterbi_backtracking_step q (nth i gamma' []) padded
    (apply_mask_func None (S i) (seq_lens sequences) padded)
  = viterbi_backtracking_step q (nth i gamma []) hmm_cell
      (apply_mask_func None (S i) (seq_lens sequences) hmm_cell).
Proof.
  intros Hi Hq.
  assert (Hl' : length (nth i gamma' []) = max_num_states padded).
  { apply (gamma_row_length padded sequences None padded_cell_is_wf padded_input_wf I).
    fold L. lia. }
  assert (Hl : length (nth i gamma []) = max_num_states hmm_cell).
  { apply (gamma_row_length hmm_cell sequences None Hcell Hin I). fold L. lia. }
  assert (Hqp : (q < max_num_states padded)%nat).
  { change (max_num_states padded) with (Q + k)%nat. lia. }
  rewrite (viterbi_backtracking_step_argmax padded sequences None padded_cell_is_wf I
             (S i) q (nth i gamma' []) Hl' Hqp).
  rewrite (viterbi_backtracking_step_argmax hmm_cell sequences None Hcell I
             (S i) q (nth i gamma []) Hl Hq).
  assert (Hagree : forall q', (q' < Q)%nat ->
            nth q' (nth i gamma' []) 0 = nth q' (nth i gamma []) 0).
  { intros q' Hq'. apply (padded_gamma_real i ltac:(lia) q' Hq'). }
  rewrite (padded_trans_terms (S i) _ _ q Hq Hagree).
  apply argmax_app; [apply trans_terms_nonempty |].
  apply padding_terms_below; [exact Hq | exact Hagree |].
  intros p Hp. apply (padded_gamma_pads i p ltac:(lia) Hp).
Qed.

Lemma padded_backtrack i : forall q,
  (i < L)%nat -> (q < Q)%nat ->
  backtrack padded sequences None gamma' q i = backtrack hmm_cell sequences None gamma q i.
Proof.
  induction i as [| i IH]; intros q Hi Hq; [reflexivity |].
  cbn [backtrack]. rewrite !Nat.add_1_r.
  rewrite (padded_predecessor i q Hi Hq).
  rewrite IH; [reflexivity | lia |].
  apply viterbi_backtracking_step_lt; auto. exact I.
  apply (gamma_row_length hmm_cell sequences None Hcell Hin I). fold L. lia.
Qed.

Lemma padded_decoded_path :
  decoded_path padded sequences None = decoded_path hmm_cell sequences None.
Proof.
  pose proof (input_wf_len hmm_cell sequences Hin) as HL. fold L in HL.
  unfold decoded_path. cbv zeta. fold L gamma gamma'.
  rewrite padded_last_state.
  rewrite padded_backtrack; [reflexivity | lia |].
  apply (decoded_last_lt hmm_cell sequences None Hcell Hin I).
Qed.

End PaddingInvariance.

(** X4: padding a model with states of zero mass does not change the path
    that [viterbi] decodes, provided no log transition entry of the model is
    below the sentinel [-1000] and the padded state count fits the int16
    output. *)
Theorem viterbi_padding_invariant :
  forall (hmm_cell : Viterbi.HmmCell) (input : Viterbi.SeqInput) (k : nat),
    cell_wf hmm_cell ->
    input_wf hmm_cell (Viterbi.encode input hmm_cell) ->
    (Z.of_nat (Viterbi.max_num_states hmm_cell + k) <= 32768)%Z ->
    (forall q' q, (q' < Viterbi.max_num_states hmm_cell)%nat ->
                  (q < Viterbi.max_num_states hmm_cell)%nat ->
                  -1000 <= entry (Viterbi.log_A_dense hmm_cell) q' q) ->
    exists path : list Z,
      Viterbi.viterbi input hmm_cell None = Some path
      /\ Viterbi.viterbi input (pad_cell hmm_cell k) None = Some path.
Proof.
  intros hmm_cell input k Hcell Hin Hbound Hlow.
  destruct (viterbi_decodes hmm_cell input None Hcell Hin I) as [_ Hv].
  exists (map Z.of_nat (decoded_path hmm_cell (Viterbi.encode input hmm_cell) None)).
  split; [exact Hv |].
  assert (Henc : Viterbi.encode input (pad_cell hmm_cell k) = Viterbi.encode input hmm_cell)
    by (destruct input; reflexivity).
  destruct (viterbi_decodes (pad_cell hmm_cell k) input None) as [_ Hv'].
  - apply (padded_cell_is_wf hmm_cell (Viterbi.encode input hmm_cell) k); assumption.
  - rewrite Henc. apply padded_input_wf; assumption.
  - exact I.
  - rewrite Hv', Henc. do 2 f_equal.
    apply padded_decoded_path; assumption.
Qed.

Lemma viterbi_padding_invariant_witness :
  exists path : list Z,
    Viterbi.viterbi (Viterbi.Indices [0%nat; 1%nat]) absorbing_cell None = Some path
    /\ Viterbi.viterbi (Viterbi.Indices [0%nat; 1%nat]) (pad_cell absorbing_cell 3) None
        = Some path.
Proof.
  apply (viterbi_padding_invariant absorbing_cell (Viterbi.Indices [0%nat; 1%nat]) 3).
  - exact absorbing_cell_wf.
  - apply absorbing_input_wf. simpl. lia.
  - simpl. lia.
  - intros q' q Hq' Hq. simpl in Hq', Hq.
    destruct q' as [| [| q']]; destruct q as [| [| q]]; try lia; unfold entry; simpl; lra.
Defined.

(** ** The posterior pass on one batch row ([MsaHmmLayer.py]) *)

Section PosteriorShape.

Variables FState BState : Type.
Variable cell : vec -> FState -> bool -> vec * FState.
Variable reverse_cell : vec -> BState -> bool -> vec * BState.
Variable initial_state : FState.
Variable rev_initial_state : BState.
Variable loglik_of : FState -> R.

(** The number of states [q]: a step of either cell on [q] emissions returns
    the [q] scaled variables followed by the scaling factor. *)
Variable q : nat.
Hypothesis cell_width : forall x s i,
  length x = q -> length (fst (cell x s i)) = S q.
Hypothesis reverse_cell_width : forall x s i,
  length x = q -> length (fst (reverse_cell x s i)) = S q.

Let posterior_row :=
  Layer.state_posterior_row cell reverse_cell initial_state rev_initial_state loglik_of.

Lemma rnn_widths {S : Type} (step : vec -> S -> bool -> vec * S) :
  (forall x s i, length x = q -> length (fst (step x s i)) = Datatypes.S q) ->
  forall inputs state,
    Forall (fun x => length x = q) inputs ->
    length (fst (Layer.rnn step inputs state)) = length inputs /\
    Forall (fun y => length y = Datatypes.S q) (fst (Layer.rnn step inputs state)).
Proof.
  intros Hstep inputs. induction inputs as [|x rest IH]; intros state Hin.
  - simpl. split; [reflexivity | constructor].
  - apply Forall_cons_iff in Hin. destruct Hin as [Hx Hrest].
    simpl. pose proof (Hstep x state false Hx) as Hw.
    destruct (step x state false) as [out state'] eqn:E. simpl in Hw.
    specialize (IH state' Hrest).
    destruct (Layer.rnn step rest state') as [outs final]. simpl in *.
    destruct IH as [IHl IHw]. split; [now rewrite IHl | now constructor].
Qed.

Lemma zip_with_vec_add_widths (w : nat) : forall (a b : list vec),
  Forall (fun y => length y = w) a ->
  Forall (fun y => length y = w) b ->
  Forall (fun y => length y = w) (zip_with vec_add a b).
Proof.
  induction a as [|x a IH]; intros b Ha Hb.
  - constructor.
  - destruct b as [|y b]; [constructor|].
    inversion Ha; inversion Hb; subst. simpl. constructor.
    + unfold vec_add. rewrite zip_with_length. lia.
    + now apply IH.
Qed.

Lemma bidirectional_rnn_widths (inputs : list vec) fstate bstate :
  Forall (fun x => length x = q) inputs ->
  length (fst (fst (Layer.bidirectional_rnn cell reverse_cell inputs fstate bstate)))
    = length inputs /\
  Forall (fun y => length y = S q)
    (fst (fst (Layer.bidirectional_rnn cell reverse_cell inputs fstate bstate))).
Proof.
  intros Hin. unfold Layer.bidirectional_rnn.
  destruct (rnn_widths cell cell_width inputs fstate Hin) as [Hfl Hfw].
  assert (Hrev : Forall (fun x => length x = q) (rev inputs)).
  { apply Forall_rev. exact Hin. }
  destruct (rnn_widths reverse_cell reverse_cell_width (rev inputs) bstate Hrev)
    as [Hbl Hbw].
  destruct (Layer.rnn cell inputs fstate) as [y fstate'].
  destruct (Layer.rnn reverse_cell (rev inputs) bstate) as [y_rev bstate'].
  simpl in *. split.
  - rewrite zip_with_length, length_rev, Hfl, Hbl, length_rev. lia.
  - apply zip_with_vec_add_widths; [exact Hfw | apply Forall_rev; exact Hbw].
Qed.

Lemma concat_uniform_length (w : nat) : forall rows : list vec,
  Forall (fun y => length y = w) rows ->
  length (concat rows) = (length rows * w)%nat.
Proof.
  induction rows as [|r rows IH]; intros H; [reflexivity|].
  inversion H; subst. simpl. rewrite length_app, IH by assumption. lia.
Qed.

Lemma chunk_rows_concat (w : nat) : forall rows : list vec,
  Forall (fun y => length y = w) rows ->
  Layer.chunk_rows (length rows) w (concat rows) = rows.
Proof.
  induction rows as [|r rows IH]; intros H; [reflexivity|].
  apply Forall_cons_iff in H. destruct H as [Hr Hrows]. subst w. simpl.
  rewrite firstn_app, firstn_all, Nat.sub_diag, firstn_O, app_nil_r.
  rewrite skipn_app, skipn_all, Nat.sub_diag, skipn_O. simpl.
  now rewrite IH.
Qed.

Lemma reshape_rows_uniform (w : nat) (rows : list vec) :
  rows <> [] ->
  Forall (fun y => length y = w) rows ->
  Layer.reshape_rows (concat rows) (length rows) = Layer.Ok rows.
Proof.
  intros Hne H. unfold Layer.reshape_rows.
  assert (Hn : length rows <> 0%nat) by (destruct rows; simpl; congruence).
  rewrite (concat_uniform_length w) by assumption.
  apply Nat.eqb_neq in Hn. rewrite Hn. apply Nat.eqb_neq in Hn.
  rewrite (Nat.mul_comm (length rows) w), Nat.Div0.mod_mul, Nat.eqb_refl.
  rewrite Nat.div_mul by exact Hn.
  now rewrite chunk_rows_concat.
Qed.

Lemma length_removelast_vec {A : Type} (row : list A) :
  length (removelast row) = (length row - 1)%nat.
Proof.
  rewrite removelast_firstn_len, length_firstn. lia.
Qed.

Lemma last_in_Forall {A : Type} (P : A -> Prop) (l : list A) (d : A) :
  P d -> Forall P l -> P (last l d).
Proof.
  intros Hd H. induction H as [|x l Hx Hl IH]; [exact Hd|].
  destruct l; [exact Hx | exact IH].
Qed.

Lemma Forall_removelast {A : Type} (P : A -> Prop) (l : list A) :
  Forall P l -> Forall P (removelast l).
Proof.
  intros H. induction H as [|x l Hx Hl IH]; [constructor|].
  destruct l; [constructor|]. 
  change (removelast (x :: a :: l)) with (x :: removelast (a :: l)).
  now constructor.
Qed.

(** X5: with two positions or more and [parallel_factor = 1], the posterior
    pass returns one row of [q] entries per position, the shape the docstring
    of [state_posterior_log_probs] gives. *)
Theorem state_posterior_row_shape (emission_probs : list vec) (no_loglik : bool) :
  (2 <= length emission_probs)%nat ->
  Forall (fun x => length x = q) emission_probs ->
  exists posterior,
    posterior_row emission_probs no_loglik = Layer.Ok posterior /\
    length posterior = length emission_probs /\
    Forall (fun row => length row = q) posterior.
Proof.
  intros HL Hin. unfold posterior_row, Layer.state_posterior_row.
  destruct emission_probs as [|first rest]; [simpl in HL; lia|].
  assert (Hfirst : length first = q) by (inversion Hin; assumption).
  assert (Hlast : length (last (first :: rest) first) = q).
  { apply (last_in_Forall (fun x => length x = q)); assumption. }
  set (last_pos := last (first :: rest) first) in *.
  pose proof (cell_width first initial_state true Hfirst) as Hf1.
  destruct (cell first initial_state true) as [forward_1 fs1]. simpl in Hf1.
  pose proof (reverse_cell_width last_pos rev_initial_state true Hlast) as Hb1.
  destruct (reverse_cell last_pos rev_initial_state true) as [backward_1 bs1].
  simpl in Hb1.
  assert (Hmid : Forall (fun x => length x = q) (removelast (tl (first :: rest)))).
  { apply Forall_removelast. simpl. inversion Hin; assumption. }
  assert (Hmidlen : length (removelast (tl (first :: rest))) = (length rest - 1)%nat).
  { simpl tl. apply length_removelast_vec. }
  set (middle := removelast (tl (first :: rest))) in *.
  assert (Hmiddle : exists posterior fstate bstate,
    (if (2 <? length (first :: rest))%nat
     then Layer.bidirectional_rnn cell reverse_cell middle fs1 bs1
     else ([], fs1, bs1)) = (posterior, fstate, bstate) /\
    length posterior = (length rest - 1)%nat /\
    Forall (fun y => length y = S q) posterior).
  { destruct (2 <? length (first :: rest))%nat eqn:E.
    - destruct (bidirectional_rnn_widths middle fs1 bs1 Hmid) as [Hl Hw].
      destruct (Layer.bidirectional_rnn cell reverse_cell middle fs1 bs1)
        as [[posterior fstate] bstate]. simpl in Hl, Hw.
      exists posterior, fstate, bstate. repeat split; [lia | exact Hw].
    - exists [], fs1, bs1. apply Nat.ltb_ge in E. simpl in E, HL.
      repeat split; [simpl; lia | constructor]. }
  destruct Hmiddle as (posterior & fstate & bstate & -> & Hpl & Hpw).
  pose proof (cell_width last_pos fstate false Hlast) as Hfl.
  destruct (cell last_pos fstate false) as [forward_last final_state].
  simpl in Hfl.
  pose proof (reverse_cell_width first bstate false Hfirst) as Hbl.
  destruct (reverse_cell first bstate false) as [backward_last bstate'].
  simpl in Hbl.
  set (rows := vec_add forward_1 backward_last
                 :: posterior ++ [vec_add forward_last backward_1]).
  assert (Hrows : Forall (fun y => length y = S q) rows).
  { unfold rows. constructor.
    - unfold vec_add. rewrite zip_with_length. lia.
    - apply Forall_app. split; [exact Hpw|]. constructor; [|constructor].
      unfold vec_add. rewrite zip_with_length. lia. }
  assert (Hrl : length rows = length (first :: rest)).
  { unfold rows. simpl. rewrite length_app. simpl. simpl in HL. lia. }
  rewrite <- Hrl.
  rewrite (reshape_rows_uniform (S q)) by (unfold rows; congruence || assumption).
  cbn [Layer.rbind].
  eexists. split; [reflexivity|]. split.
  - destruct no_loglik; repeat rewrite length_map; reflexivity.
  - assert (Hbase : Forall (fun row : vec => length row = q)
        (map (fun row : vec => map (fun x => x + last row 0) (removelast row)) rows)).
    { apply Forall_map. eapply Forall_impl; [|exact Hrows].
      intros row Hrow. cbn beta in *. rewrite length_map, length_removelast_vec. lia. }
    destruct no_loglik; [exact Hbase|].
    apply Forall_map. eapply Forall_impl; [|exact Hbase].
    intros row Hrow. cbn beta in *. now rewrite length_map.
Qed.

(** C3, at a batch of a single position.  The claim asks that the posteriors
    returned by [state_posterior_log_probs] sum to one over the [q] states at
    every valid position.  With one position the first and the last position
    coincide: both cells are stepped twice on it, the two sums are
    concatenated, and the row returned for the position has [2 * q + 1]
    entries instead of [q]. *)
Theorem state_posterior_single_position (e : vec) (no_loglik : bool) :
  length e = q ->
  exists row,
    posterior_row [e] no_loglik = Layer.Ok [row] /\
    length row = (2 * q + 1)%nat /\
    length row <> q.
Proof.
  intros He. unfold posterior_row, Layer.state_posterior_row.
  cbn [last length Nat.ltb Nat.leb].
  pose proof (cell_width e initial_state true He) as Hf1.
  destruct (cell e initial_state true) as [forward_1 fs1]. simpl in Hf1.
  pose proof (reverse_cell_width e rev_initial_state true He) as Hb1.
  destruct (reverse_cell e rev_initial_state true) as [backward_1 bs1].
  simpl in Hb1.
  pose proof (cell_width e fs1 false He) as Hfl.
  destruct (cell e fs1 false) as [forward_last final_state]. simpl in Hfl.
  pose proof (reverse_cell_width e bs1 false He) as Hbl.
  destruct (reverse_cell e bs1 false) as [backward_last bstate']. simpl in Hbl.
  assert (Hp1 : length (vec_add forward_1 backward_last) = S q).
  { unfold vec_add. rewrite zip_with_length. lia. }
  assert (Hpl : length (vec_add forward_last backward_1) = S q).
  { unfold vec_add. rewrite zip_with_length. lia. }
  set (p1 := vec_add forward_1 backward_last) in *.
  set (pl := vec_add forward_last backward_1) in *.
  assert (Hflat : length (concat (p1 :: [] ++ [pl])) = (2 * S q)%nat).
  { simpl. rewrite app_nil_r, length_app. lia. }
  unfold Layer.reshape_rows.
  cbn [Nat.eqb]. rewrite Nat.mod_1_r. cbn [Nat.eqb].
  rewrite Nat.div_1_r. cbn [Layer.chunk_rows Layer.rbind].
  rewrite firstn_all.
  assert (Hlen : length (map (fun x => x + last (concat (p1 :: [] ++ [pl])) 0)
                   (removelast (concat (p1 :: [] ++ [pl])))) = (2 * q + 1)%nat).
  { rewrite length_map, length_removelast_vec, Hflat. lia. }
  destruct no_loglik; cbn [map]; eexists; (split; [reflexivity|]);
    rewrite ?length_map; rewrite ?length_map in Hlen; rewrite Hlen; lia.
Qed.

End PosteriorShape.

Lemma copy_cell_width (x : vec) (s : unit) (i : bool) :
  length x = 2%nat -> length (fst (copy_cell x s i)) = 3%nat.
Proof. intros H. unfold copy_cell. simpl. rewrite length_app, H. reflexivity. Qed.

Lemma state_posterior_single_position_witness :
  exists row,
    Layer.state_posterior_row copy_cell copy_cell tt tt (fun _ => 0) [[1; 0]] false
      = Layer.Ok [row] /\
    length row = (2 * 2 + 1)%nat /\
    length row <> 2%nat.
Proof.
  exact (state_posterior_single_position unit unit copy_cell copy_cell tt tt
           (fun _ => 0) 2 copy_cell_width copy_cell_width [1; 0] false eq_refl).
Defined.

Lemma state_posterior_row_shape_witness :
  exists posterior,
    Layer.state_posterior_row copy_cell copy_cell tt tt (fun _ => 0)
      [[1; 0]; [0; 1]; [1; 0]] false = Layer.Ok posterior /\
    length posterior = 3%nat /\
    Forall (fun row => length row = 2%nat) posterior.
Proof.
  apply (state_posterior_row_shape unit unit copy_cell copy_cell tt tt
           (fun _ => 0) 2 copy_cell_width copy_cell_width
           [[1; 0]; [0; 1]; [1; 0]] false).
  - simpl. lia.
  - repeat constructor.
Defined.

(** ** Padding a model changes neither likelihood, posterior nor path *)

Lemma nth_app_zeros (row : vec) (k q : nat) :
  nth q (row ++ repeat 0 k) 0 = nth q row 0.
Proof.
  destruct (Nat.lt_ge_cases q (length row)) as [Hlt | Hge].
  - now rewrite app_nth1.
  - rewrite app_nth2 by exact Hge. rewrite (nth_overflow row) by exact Hge.
    destruct (Nat.lt_ge_cases (q - length row) k) as [Hk | Hk].
    + now rewrite nth_repeat_lt.
    + apply nth_overflow. now rewrite repeat_length.
Qed.

Lemma entry_pad_cols (M : mat) (k i q : nat) :
  entry (map (fun row => row ++ repeat 0 k) M) i q = entry M i q.
Proof.
  unfold entry.
  destruct (Nat.lt_ge_cases i (length M)) as [Hlt | Hge].
  - rewrite (nth_indep _ [] ([] ++ repeat 0 k)) by (now rewrite length_map).
    rewrite (map_nth (fun row => row ++ repeat 0 k) M [] i).
    apply nth_app_zeros.
  - rewrite !(nth_overflow _ _ (n := i)); [reflexivity | exact Hge |].
    now rewrite length_map.
Qed.

Lemma entry_pad_rows_cols (M : mat) (w k i q : nat) :
  entry (map (fun row => row ++ repeat 0 k) M ++ repeat (repeat 0 w) k) i q
  = entry M i q.
Proof.
  destruct (Nat.lt_ge_cases i (length M)) as [Hlt | Hge].
  - rewrite <- (entry_pad_cols M k i q). unfold entry.
    now rewrite app_nth1 by (now rewrite length_map).
  - unfold entry. rewrite app_nth2 by (now rewrite length_map).
    rewrite (nth_overflow M) by exact Hge. rewrite length_map.
    destruct (Nat.lt_ge_cases (i - length M) k) as [Hk | Hk].
    + rewrite nth_repeat_lt by exact Hk.
      destruct (Nat.lt_ge_cases q w) as [Hq | Hq].
      * rewrite nth_repeat_lt by exact Hq. now destruct q.
      * rewrite (nth_overflow (repeat 0 w)) by (now rewrite repeat_length).
        now destruct q.
    + rewrite (nth_overflow (repeat (repeat 0 w) k)) by (now rewrite repeat_length).
      reflexivity.
Qed.

Lemma entry_beyond_width (M : mat) (r c i q : nat) :
  is_mat r c M -> (c <= q)%nat -> entry M i q = 0.
Proof.
  intros [_ Hrows] Hq. unfold entry.
  destruct (Nat.lt_ge_cases i (length M)) as [Hlt | Hge].
  - apply nth_overflow. rewrite Forall_forall in Hrows.
    rewrite (Hrows (nth i M [])) by (now apply nth_In). exact Hq.
  - rewrite (nth_overflow M) by exact Hge. now destruct q.
Qed.

Lemma sum_states_ext (n : nat) (f g : nat -> R) :
  (forall q, (q < n)%nat -> f q = g q) -> sum_states n f = sum_states n g.
Proof.
  intros H. unfold sum_states. f_equal. apply map_ext_in.
  intros q Hq. apply in_seq in Hq. apply H. lia.
Qed.

Lemma vec_sum_zeros (k : nat) : vec_sum (repeat 0 k) = 0.
Proof.
  induction k as [|k IH]; [reflexivity|].
  change (repeat 0 (S k)) with (0 :: repeat 0 k).
  change (vec_sum (0 :: repeat 0 k)) with (0 + vec_sum (repeat 0 k)).
  rewrite IH. lra.
Qed.

Lemma map_zero_repeat (f : nat -> R) (l : list nat) :
  (forall q, In q l -> f q = 0) -> map f l = repeat 0 (length l).
Proof.
  induction l as [|x l IH]; intros H; [reflexivity|].
  simpl. rewrite (H x) by (now left). f_equal. apply IH.
  intros q Hq. apply H. now right.
Qed.

Lemma sum_states_extend (n k : nat) (f : nat -> R) :
  (forall q, (n <= q)%nat -> f q = 0) -> sum_states (n + k) f = sum_states n f.
Proof.
  intros H. unfold sum_states. rewrite seq_app, map_app, vec_sum_app.
  rewrite (map_zero_repeat f (seq (0 + n) k)).
  - rewrite vec_sum_zeros. lra.
  - intros q Hq. apply in_seq in Hq. apply H. lia.
Qed.

Lemma nth_map_seq (f : nat -> R) (n q : nat) :
  (q < n)%nat -> nth q (map f (seq 0 n)) 0 = f q.
Proof.
  intros Hq.
  rewrite (nth_indep _ 0 (f 0%nat)) by (now rewrite length_map, length_seq).
  rewrite (map_nth f (seq 0 n) 0%nat q). now rewrite seq_nth.
Qed.

Lemma forward_var_length (m : Model) (sequences : mat) (i : nat) :
  length (forward_var m sequences i) = num_states m.
Proof.
  destruct i; simpl; now rewrite length_map, length_seq.
Qed.

Section PaddedModel.

Variable m : Model.
Variable sequences : mat.
Variable k : nat.

Hypothesis Hwf : model_wf m.
Hypothesis Hin : input_wf (model_cell m) sequences.

Lemma padded_num_states : num_states (pad_model m k) = (num_states m + k)%nat.
Proof. reflexivity. Qed.

Lemma emissions_wf : is_mat (length sequences) (num_states m) (emissions m sequences).
Proof. exact (proj2 Hin). Qed.

Lemma padded_emissions (i q : nat) :
  entry (emissions (pad_model m k) sequences) i q = entry (emissions m sequences) i q.
Proof.
  unfold emissions. cbn [pad_model model_cell pad_cell Viterbi.emission_probs].
  apply entry_pad_cols.
Qed.

Lemma padded_A (q' q : nat) :
  entry (model_A (pad_model m k)) q' q = entry (model_A m) q' q.
Proof.
  cbn [pad_model model_A]. apply entry_pad_rows_cols.
Qed.

Lemma padded_init (q : nat) :
  nth q (Viterbi.init_dist (model_cell (pad_model m k))) 0
  = nth q (Viterbi.init_dist (model_cell m)) 0.
Proof.
  cbn [pad_model model_cell pad_cell Viterbi.init_dist]. apply nth_app_zeros.
Qed.

Lemma emissions_beyond (i q : nat) :
  (num_states m <= q)%nat -> entry (emissions m sequences) i q = 0.
Proof.
  intros Hq. exact (entry_beyond_width _ _ _ i q emissions_wf Hq).
Qed.

(** The forward variable of the padded model is the forward variable of the
    model followed by zeros: no mass reaches a padding state. *)
Lemma padded_forward_var (i : nat) :
  forward_var (pad_model m k) sequences i = forward_var m sequences i ++ repeat 0 k.
Proof.
  induction i as [|i IH].
  - cbn [forward_var]. rewrite padded_num_states, seq_app, map_app. f_equal.
    + apply map_ext. intros q. now rewrite padded_init, padded_emissions.
    + rewrite (map_zero_repeat _ (seq (0 + num_states m) k)).
      * now rewrite length_seq.
      * intros q Hq. apply in_seq in Hq.
        rewrite padded_emissions, emissions_beyond by lia. ring.
  - cbn [forward_var]. rewrite IH, padded_num_states, seq_app, map_app. f_equal.
    + apply map_ext. intros q. rewrite padded_emissions. f_equal.
      rewrite sum_states_extend.
      * apply sum_states_ext. intros q' _. now rewrite nth_app_zeros, padded_A.
      * intros q' Hq'. rewrite nth_app_zeros.
        rewrite nth_overflow by (now rewrite forward_var_length). ring.
    + rewrite (map_zero_repeat _ (seq (0 + num_states m) k)).
      * now rewrite length_seq.
      * intros q Hq. apply in_seq in Hq.
        rewrite padded_emissions, emissions_beyond by lia. ring.
Qed.

Lemma padded_likelihood :
  likelihood (pad_model m k) sequences (num_states m)
  = likelihood m sequences (num_states m).
Proof.
  unfold likelihood. rewrite padded_forward_var.
  rewrite firstn_app, forward_var_length, Nat.sub_diag, firstn_O, app_nil_r.
  reflexivity.
Qed.

(** Summed over all its states, padding included, the padded model has the
    same likelihood. *)
Lemma padded_likelihood_all :
  likelihood (pad_model m k) sequences (num_states (pad_model m k))
  = likelihood m sequences (num_states m).
Proof.
  unfold likelihood. rewrite padded_forward_var.
  rewrite !firstn_all2
    by (rewrite ?length_app, ?repeat_length, forward_var_length, ?padded_num_states; lia).
  rewrite vec_sum_app, vec_sum_zeros. lra.
Qed.

Lemma backward_from_end_length (m' : Model) (n : nat) :
  length (backward_from_end m' sequences n) = num_states m'.
Proof.
  destruct n; simpl; [apply repeat_length | now rewrite length_map, length_seq].
Qed.

Lemma padded_backward_from_end (n q : nat) :
  (q < num_states m)%nat ->
  nth q (backward_from_end (pad_model m k) sequences n) 0
  = nth q (backward_from_end m sequences n) 0.
Proof.
  revert q. induction n as [|n IH]; intros q Hq.
  - cbn [backward_from_end]. rewrite padded_num_states.
    rewrite !nth_repeat_lt by lia. reflexivity.
  - cbn [backward_from_end]. rewrite padded_num_states.
    rewrite !nth_map_seq by lia.
    rewrite sum_states_extend.
    + apply sum_states_ext. intros q' Hq'.
      now rewrite padded_A, padded_emissions, IH.
    + intros q' Hq'. rewrite padded_emissions, emissions_beyond by exact Hq'. ring.
Qed.

Lemma padded_posterior (i q : nat) :
  (q < num_states m)%nat ->
  posterior (pad_model m k) sequences (num_states m) i q
  = posterior m sequences (num_states m) i q.
Proof.
  intros Hq. unfold posterior, backward_var.
  rewrite padded_likelihood, padded_forward_var, nth_app_zeros.
  now rewrite padded_backward_from_end.
Qed.

Lemma model_A_low (q' q : nat) :
  (q' < num_states m)%nat -> (q < num_states m)%nat ->
  -1000 <= entry (Viterbi.log_A_dense (model_cell m)) q' q.
Proof.
  intros Hq' Hq. destruct Hwf as (_ & HA & ->).
  rewrite (entry_safe_log_mat _ _ _ _ _ HA Hq' Hq).
  apply safe_log_lower.
Qed.

End PaddedModel.

(** A padded model is a model: its cell holds the safe logarithm of its
    padded transition operator. *)
Lemma pad_model_wf (m : Model) (sequences : mat) (k : nat) :
  model_wf m ->
  input_wf (model_cell m) sequences ->
  (Z.of_nat (num_states m + k) <= 32768)%Z ->
  model_wf (pad_model m k).
Proof.
  intros Hwf Hin Hbound. pose proof Hwf as (Hcell & [HAl HAr] & HlogA).
  split; [| split].
  - apply (padded_cell_is_wf (model_cell m) sequences k); assumption.
  - cbn [pad_model model_A]. rewrite padded_num_states. split.
    + rewrite length_app, length_map, repeat_length, HAl. reflexivity.
    + apply Forall_app. split.
      * apply Forall_map. eapply Forall_impl; [| exact HAr].
        intros row Hrow. cbn beta in *. rewrite length_app, repeat_length, Hrow.
        reflexivity.
      * apply Forall_forall. intros row Hrow. apply repeat_spec in Hrow. subst row.
        apply repeat_length.
  - cbn [pad_model model_A model_cell pad_cell Viterbi.log_A_dense].
    rewrite HlogA. unfold safe_log_mat, safe_log_vec.
    rewrite map_app, !map_map, map_repeat, map_repeat, safe_log_zero.
    f_equal. apply map_ext. intros row.
    now rewrite map_app, map_repeat, safe_log_zero.
Qed.

(** The zero rows that [make_B] appends to the emission matrix give every
    padding state the emission probability zero at every position: the
    emitter's product with the padded matrix is its product with the matrix
    followed by zeros, which is how [pad_cell] pads the emissions. *)
Lemma dot_zero_row (x : vec) (w : nat) :
  vec_sum (zip_with Rmult x (repeat 0 w)) = 0.
Proof.
  revert w. induction x as [|a x IH]; intros w; [reflexivity |].
  destruct w as [|w]; [reflexivity |].
  change (vec_sum (zip_with Rmult (a :: x) (repeat 0 (S w))))
    with (a * 0 + vec_sum (zip_with Rmult x (repeat 0 w))).
  rewrite IH. ring.
Qed.

Lemma call_pad_rows (B inputs : mat) (w k : nat) :
  Emitter.call (B ++ repeat (repeat 0 w) k) inputs
  = map (fun row => row ++ repeat 0 k) (Emitter.call B inputs).
Proof.
  unfold Emitter.call. rewrite map_map. apply map_ext. intros x.
  rewrite map_app. f_equal.
  rewrite map_repeat. now rewrite dot_zero_row.
Qed.

(** C7, on the recursions of the specification over probabilities and on the
    decoder of the sources.  Padding a model with [k] states of zero mass
    (zero initial probability, zero emission rows as [make_B] appends them,
    zero transition rows and columns) changes neither the likelihood, nor the
    posterior of any real state at any position, nor the path decoded by
    [viterbi]; and every state of the decoded path is a real state, so no
    padding state is selected as an arg-max. *)
Theorem padding_invariance :
  forall (m : Model) (input : Viterbi.SeqInput) (k : nat),
    model_wf m ->
    input_wf (model_cell m) (Viterbi.encode input (model_cell m)) ->
    (Z.of_nat (num_states m + k) <= 32768)%Z ->
    likelihood (pad_model m k) (Viterbi.encode input (model_cell m)) (num_states m)
    = likelihood m (Viterbi.encode input (model_cell m)) (num_states m)
    /\ (forall i q : nat,
          (q < num_states m)%nat ->
          posterior (pad_model m k) (Viterbi.encode input (model_cell m))
            (num_states m) i q
          = posterior m (Viterbi.encode input (model_cell m)) (num_states m) i q)
    /\ exists path : list Z,
         Viterbi.viterbi input (model_cell m) None = Some path
         /\ Viterbi.viterbi input (model_cell (pad_model m k)) None = Some path
         /\ Forall (fun s => (0 <= s < Z.of_nat (num_states m))%Z) path.
Proof.
  intros m input k Hwf Hin Hbound.
  pose proof Hwf as (Hcell & _ & _).
  split; [apply padded_likelihood; assumption |].
  split; [intros i q Hq; apply padded_posterior; assumption |].
  destruct (viterbi_decodes (model_cell m) input None Hcell Hin I) as [_ Hv].
  exists (map Z.of_nat
            (decoded_path (model_cell m) (Viterbi.encode input (model_cell m)) None)).
  split; [exact Hv |].
  assert (Henc : Viterbi.encode input (pad_cell (model_cell m) k)
                 = Viterbi.encode input (model_cell m))
    by (destruct input; reflexivity).
  assert (Hlow := model_A_low m Hwf).
  split.
  - cbn [pad_model model_cell].
    destruct (viterbi_decodes (pad_cell (model_cell m) k) input None) as [_ Hv'].
    + apply (padded_cell_is_wf (model_cell m)
               (Viterbi.encode input (model_cell m)) k); assumption.
    + rewrite Henc. apply padded_input_wf; assumption.
    + exact I.
    + rewrite Hv', Henc. do 2 f_equal.
      apply padded_decoded_path; assumption.
  - apply Forall_forall. intros s Hs. apply in_map_iff in Hs.
    destruct Hs as [n [<- Hn]].
    pose proof (decoded_path_valid (model_cell m)
                  (Viterbi.encode input (model_cell m)) None Hcell Hin I) as Hvalid.
    rewrite Forall_forall in Hvalid. specialize (Hvalid n Hn).
    unfold num_states. lia.
Qed.

Lemma absorbing_model_wf : model_wf absorbing_model.
Proof.
  split; [exact absorbing_cell_wf | split].
  - split; [reflexivity | repeat constructor].
  - cbn [absorbing_model model_cell model_A absorbing_cell Viterbi.log_A_dense].
    unfold safe_log_mat, safe_log_vec. cbn [map].
    now rewrite safe_log_zero, safe_log_1.
Qed.

Lemma padding_invariance_witness :
  likelihood (pad_model absorbing_model 3)
    (Viterbi.encode (Viterbi.Indices [0%nat; 1%nat]) (model_cell absorbing_model))
    (num_states absorbing_model)
  = likelihood absorbing_model
      (Viterbi.encode (Viterbi.Indices [0%nat; 1%nat]) (model_cell absorbing_model))
      (num_states absorbing_model)
  /\ (forall i q : nat,
        (q < num_states absorbing_model)%nat ->
        posterior (pad_model absorbing_model 3)
          (Viterbi.encode (Viterbi.Indices [0%nat; 1%nat]) (model_cell absorbing_model))
          (num_states absorbing_model) i q
        = posterior absorbing_model
            (Viterbi.encode (Viterbi.Indices [0%nat; 1%nat]) (model_cell absorbing_model))
            (num_states absorbing_model) i q)
  /\ exists path : list Z,
       Viterbi.viterbi (Viterbi.Indices [0%nat; 1%nat]) (model_cell absorbing_model) None
         = Some path
       /\ Viterbi.viterbi (Viterbi.Indices [0%nat; 1%nat])
            (model_cell (pad_model absorbing_model 3)) None = Some path
       /\ Forall (fun s => (0 <= s < Z.of_nat (num_states absorbing_model))%Z) path.
Proof.
  apply (padding_invariance absorbing_model (Viterbi.Indices [0%nat; 1%nat]) 3).
  - exact absorbing_model_wf.
  - apply absorbing_input_wf. simpl. lia.
  - simpl. lia.
Defined.

(** ** The forward and backward variables of a model agree on the likelihood *)

Lemma sum_states_S (n : nat) (f : nat -> R) :
  sum_states (S n) f = sum_states n f + f n.
Proof.
  unfold sum_states. rewrite seq_S, map_app, vec_sum_app.
  cbn [map Nat.add]. change (vec_sum [f n]) with (f n + vec_sum []).
  change (vec_sum []) with 0. lra.
Qed.

Lemma sum_states_0 (f : nat -> R) : sum_states 0 f = 0.
Proof. reflexivity. Qed.

Lemma sum_states_plus (n : nat) (f g : nat -> R) :
  sum_states n (fun q => f q + g q) = sum_states n f + sum_states n g.
Proof.
  induction n as [|n IH]; [rewrite !sum_states_0; lra |].
  rewrite !sum_states_S, IH. lra.
Qed.

Lemma sum_states_scal (n : nat) (c : R) (f : nat -> R) :
  sum_states n (fun q => c * f q) = c * sum_states n f.
Proof.
  induction n as [|n IH]; [rewrite !sum_states_0; lra |].
  rewrite !sum_states_S, IH. lra.
Qed.

Lemma sum_states_swap (n n' : nat) (g : nat -> nat -> R) :
  sum_states n (fun q => sum_states n' (fun q' => g q q'))
  = sum_states n' (fun q' => sum_states n (fun q => g q q')).
Proof.
  induction n as [|n IH].
  - rewrite sum_states_0. symmetry.
    rewrite (sum_states_ext n' _ (fun _ => 0 * 0)).
    + rewrite sum_states_scal. lra.
    + intros q' _. rewrite sum_states_0. lra.
  - rewrite sum_states_S, IH, <- sum_states_plus.
    apply sum_states_ext. intros q' _. now rewrite sum_states_S.
Qed.

Lemma vec_sum_sum_states (v : vec) :
  vec_sum v = sum_states (length v) (fun q => nth q v 0).
Proof.
  induction v as [|x v IH] using rev_ind; [reflexivity |].
  rewrite length_app, Nat.add_comm. cbn [length Nat.add].
  rewrite sum_states_S, vec_sum_app.
  change (vec_sum [x]) with (x + vec_sum []). change (vec_sum []) with 0.
  rewrite nth_middle, IH. f_equal; [| lra].
  apply sum_states_ext. intros q Hq. now rewrite app_nth1.
Qed.

Section ForwardBackward.

Variable m : Model.
Variable sequences : mat.

Let Q := num_states m.
Let L := length sequences.

Lemma forward_var_S (i q : nat) :
  (q < Q)%nat ->
  nth q (forward_var m sequences (S i)) 0
  = sum_states Q (fun q' => nth q' (forward_var m sequences i) 0
                            * entry (model_A m) q' q)
    * entry (emissions m sequences) (S i) q.
Proof.
  intros Hq. cbn [forward_var]. now rewrite nth_map_seq.
Qed.

(** At every position the forward and backward variables multiply to the
    same total: the sum of the forward variable at the last position. *)
Lemma forward_backward_total (n : nat) :
  (n <= L - 1)%nat ->
  sum_states Q (fun q => nth q (forward_var m sequences (L - 1 - n)) 0
                         * nth q (backward_from_end m sequences n) 0)
  = sum_states Q (fun q => nth q (forward_var m sequences (L - 1)) 0).
Proof.
  induction n as [|n IH]; intros Hn.
  - rewrite Nat.sub_0_r. apply sum_states_ext. intros q Hq.
    cbn [backward_from_end]. fold Q. rewrite nth_repeat_lt by exact Hq. lra.
  - rewrite <- IH by lia.
    replace (L - 1 - n)%nat with (S (L - 1 - S n)) by lia.
    set (i := (L - 1 - S n)%nat).
    transitivity
      (sum_states Q (fun q =>
         sum_states Q (fun q' =>
           nth q (forward_var m sequences i) 0
           * (entry (model_A m) q q' * entry (emissions m sequences) (S i) q'
              * nth q' (backward_from_end m sequences n) 0)))).
    + apply sum_states_ext. intros q Hq.
      cbn [backward_from_end]. fold Q L.
      rewrite nth_map_seq by exact Hq.
      replace (L - 1 - n)%nat with (S i) by (unfold i; lia).
      now rewrite sum_states_scal.
    + rewrite sum_states_swap. apply sum_states_ext. intros q' Hq'.
      rewrite (forward_var_S i q' Hq').
      rewrite (sum_states_ext Q _
        (fun q => entry (emissions m sequences) (S i) q'
                  * nth q' (backward_from_end m sequences n) 0
                  * (nth q (forward_var m sequences i) 0 * entry (model_A m) q q')))
        by (intros q _; ring).
      rewrite sum_states_scal. ring.
Qed.

Lemma likelihood_total :
  likelihood m sequences Q
  = sum_states Q (fun q => nth q (forward_var m sequences (L - 1)) 0).
Proof.
  unfold likelihood. fold L.
  rewrite firstn_all2 by (rewrite forward_var_length; fold Q; lia).
  now rewrite vec_sum_sum_states, forward_var_length.
Qed.

(** The posteriors of a position sum to one over the states whenever the
    sequence has a positive likelihood. *)
Lemma posterior_normalized (i : nat) :
  (i < L)%nat ->
  likelihood m sequences Q <> 0 ->
  sum_states Q (fun q => posterior m sequences Q i q) = 1.
Proof.
  intros Hi Hlik. unfold posterior, backward_var. fold L.
  rewrite (sum_states_ext Q _
    (fun q => / likelihood m sequences Q
              * (nth q (forward_var m sequences (L - 1 - (L - 1 - i))) 0
                 * nth q (backward_from_end m sequences (L - 1 - i)) 0))).
  - rewrite sum_states_scal, forward_backward_total by lia.
    rewrite <- likelihood_total. now apply Rinv_l.
  - intros q _. replace (L - 1 - (L - 1 - i))%nat with i by lia.
    unfold Rdiv. ring.
Qed.

End ForwardBackward.

(** ** Further properties of the decoder *)

Section Optimality.

Import Viterbi.

Variable hmm_cell : HmmCell.
Variable sequences : mat.
Variable mask : option MaskFunc.

Let Q := max_num_states hmm_cell.
Let L := length sequences.
Let gamma := gamma_table hmm_cell sequences mask.

Hypothesis Hcell : cell_wf hmm_cell.
Hypothesis Hin : input_wf hmm_cell sequences.
Hypothesis Hmask : mask_wf hmm_cell mask.

(** The score of a state path is bounded by the table entry of its last
    state at its last position. *)
Lemma path_score_le_gamma (p : list nat) :
  p <> [] -> (length p <= L)%nat -> Forall (fun s => (s < Q)%nat) p ->
  path_score hmm_cell sequences mask p <= entry gamma (length p - 1) (last p 0%nat).
Proof.
  induction p as [| b p IH] using rev_ind; [congruence |].
  intros _ Hlen Hall. rewrite length_app in Hlen. cbn [length] in Hlen.
  apply Forall_app in Hall. destruct Hall as [Hp Hb].
  apply Forall_cons_iff in Hb. destruct Hb as [Hb _].
  rewrite last_last, length_app. cbn [length].
  replace (length p + 1 - 1)%nat with (length p) by lia.
  destruct p as [| a p'] eqn:Ep.
  - cbn [app path_score path_score_from length].
    unfold gamma. rewrite (gamma_entry_0 hmm_cell sequences mask Hcell Hin b Hb). lra.
  - rewrite <- Ep in *.
    assert (Hne : p <> []) by (rewrite Ep; discriminate).
    rewrite path_score_snoc by exact Hne.
    specialize (IH Hne ltac:(lia) Hp).
    assert (Hlast : (last p 0%nat < Q)%nat).
    { rewrite Forall_forall in Hp. apply Hp.
      destruct (exists_last Hne) as (l' & x & ->). rewrite last_last.
      apply in_or_app. right. now left. }
    assert (Hpos : (1 <= length p)%nat) by (rewrite Ep; simpl; lia).
    set (n := (length p - 1)%nat) in *.
    assert (Hn : length p = S n) by (unfold n; lia).
    rewrite Hn in *.
    unfold gamma.
    rewrite (gamma_entry_S hmm_cell sequences mask Hcell Hin Hmask n b)
      by (fold L; lia || exact Hb).
    unfold step_score.
    pose proof (vec_maximum_ge
                  (trans_terms hmm_cell sequences mask (S n)
                     (nth n (gamma_table hmm_cell sequences mask) []) b)
                  (last p 0%nat)) as Hmax.
    rewrite trans_terms_length in Hmax. specialize (Hmax Hlast).
    rewrite trans_terms_nth in Hmax by exact Hlast.
    unfold gamma, entry in IH. unfold entry in Hmax. unfold entry.
    lra.
Qed.

Lemma valid_path_score_le (p : list nat) :
  valid_path hmm_cell sequences p ->
  path_score hmm_cell sequences mask p
  <= path_score hmm_cell sequences mask (decoded_path hmm_cell sequences mask).
Proof.
  intros [Hlen Hall].
  pose proof (input_wf_len hmm_cell sequences Hin) as HL. fold L in HL, Hlen.
  assert (Hne : p <> []) by (intros ->; simpl in Hlen; lia).
  rewrite (decoded_path_score hmm_cell sequences mask Hcell Hin Hmask).
  pose proof (path_score_le_gamma p Hne ltac:(lia) Hall) as H.
  rewrite Hlen in H.
  assert (Hlast : (last p 0%nat < Q)%nat).
  { rewrite Forall_forall in Hall. apply Hall.
    destruct (exists_last Hne) as (l' & x & ->). rewrite last_last.
    apply in_or_app. right. now left. }
  pose proof (vec_maximum_ge (nth (L - 1) gamma []) (last p 0%nat)) as Hmax.
  rewrite (gamma_row_length hmm_cell sequences mask Hcell Hin Hmask) in Hmax by (fold L; lia).
  specialize (Hmax Hlast). unfold entry in H. fold L gamma. lra.
Qed.

End Optimality.

(** X6: on a cell and a non-empty input of consistent shapes, with or without
    a mask function, [viterbi] does not raise: it returns one state per
    position, and every state is an id of the cell, at least [0] and below
    [max_num_states]. *)
Theorem viterbi_path_valid :
  forall (hmm_cell : Viterbi.HmmCell) (input : Viterbi.SeqInput)
         (mask : option Viterbi.MaskFunc),
    cell_wf hmm_cell ->
    input_wf hmm_cell (Viterbi.encode input hmm_cell) ->
    mask_wf hmm_cell mask ->
    exists path : list Z,
      Viterbi.viterbi input hmm_cell mask = Some path
      /\ length path = length (Viterbi.encode input hmm_cell)
      /\ Forall (fun s => (0 <= s < Z.of_nat (Viterbi.max_num_states hmm_cell))%Z) path.
Proof.
  intros hmm_cell input mask Hcell Hin Hmask.
  destruct (viterbi_decodes hmm_cell input mask Hcell Hin Hmask) as [_ Hv].
  eexists. split; [exact Hv |]. split.
  - rewrite length_map. apply decoded_path_length; assumption.
  - apply Forall_forall. intros s Hs. apply in_map_iff in Hs.
    destruct Hs as [n [<- Hn]].
    pose proof (decoded_path_valid hmm_cell _ mask Hcell Hin Hmask) as Hvalid.
    rewrite Forall_forall in Hvalid. specialize (Hvalid n Hn). lia.
Qed.

Lemma viterbi_path_valid_witness :
  exists path : list Z,
    Viterbi.viterbi (Viterbi.Indices [0%nat; 0%nat; 1%nat]) absorbing_cell
      (Some only_0_to_0) = Some path
    /\ length path
       = length (Viterbi.encode (Viterbi.Indices [0%nat; 0%nat; 1%nat]) absorbing_cell)
    /\ Forall (fun s => (0 <= s < Z.of_nat (Viterbi.max_num_states absorbing_cell))%Z) path.
Proof.
  apply (viterbi_path_valid absorbing_cell (Viterbi.Indices [0%nat; 0%nat; 1%nat])
           (Some only_0_to_0)).
  - exact absorbing_cell_wf.
  - apply absorbing_input_wf. simpl. lia.
  - exact only_0_to_0_wf.
Defined.

(** X7: the path that [viterbi] returns is a best path: no state path over
    the positions of the input has a larger sum of initial, transition, mask
    and emission log-probabilities. *)
Theorem viterbi_no_better_path :
  forall (hmm_cell : Viterbi.HmmCell) (input : Viterbi.SeqInput)
         (mask : option Viterbi.MaskFunc) (other : list nat),
    cell_wf hmm_cell ->
    input_wf hmm_cell (Viterbi.encode input hmm_cell) ->
    mask_wf hmm_cell mask ->
    valid_path hmm_cell (Viterbi.encode input hmm_cell) other ->
    exists path : list Z,
      Viterbi.viterbi input hmm_cell mask = Some path
      /\ path_score hmm_cell (Viterbi.encode input hmm_cell) mask other
         <= path_score hmm_cell (Viterbi.encode input hmm_cell) mask (map Z.to_nat path).
Proof.
  intros hmm_cell input mask other Hcell Hin Hmask Hother.
  destruct (viterbi_decodes hmm_cell input mask Hcell Hin Hmask) as [_ Hv].
  eexists. split; [exact Hv |].
  rewrite map_to_nat_of_nat. apply valid_path_score_le; assumption.
Qed.

Lemma viterbi_no_better_path_witness :
  exists path : list Z,
    Viterbi.viterbi (Viterbi.Indices [0%nat; 0%nat; 1%nat]) absorbing_cell None = Some path
    /\ path_score absorbing_cell
         (Viterbi.encode (Viterbi.Indices [0%nat; 0%nat; 1%nat]) absorbing_cell) None
         [1%nat; 1%nat; 1%nat]
       <= path_score absorbing_cell
            (Viterbi.encode (Viterbi.Indices [0%nat; 0%nat; 1%nat]) absorbing_cell) None
            (map Z.to_nat path).
Proof.
  apply (viterbi_no_better_path absorbing_cell (Viterbi.Indices [0%nat; 0%nat; 1%nat])
           None [1%nat; 1%nat; 1%nat]).
  - exact absorbing_cell_wf.
  - apply absorbing_input_wf. simpl. lia.
  - exact I.
  - split; [reflexivity |]. repeat constructor.
Defined.

(** *** The mask as a penalty *)

Section MaskPenalty.

Import Viterbi.

Lemma fair_cell_wf : cell_wf fair_cell.
Proof.
  unfold cell_wf, is_mat. simpl. repeat split; try lia; repeat constructor.
Qed.

Lemma fair_input_wf (sequences : mat) :
  (1 <= length sequences)%nat -> input_wf fair_cell sequences.
Proof.
  intros H. split; [exact H |]. apply (call_is_mat [[/ 2; / 2]; [/ 2; / 2]] sequences).
Qed.

Lemma only_1_to_1_designates (hmm_cell : HmmCell) (sequences : mat) :
  max_num_states hmm_cell = 2%nat -> length sequences = 2%nat ->
  mask_only_path hmm_cell sequences only_1_to_1 [1%nat; 1%nat].
Proof.
  intros HQ HL i q' q Hi Hq' Hq. rewrite HL in Hi. rewrite HQ in Hq', Hq.
  assert (i = 1%nat) by lia. subst i.
  destruct q' as [| [| q']]; destruct q as [| [| q]]; try lia; reflexivity.
Qed.

(** Without a mask the decoder keeps the first of the equally likely paths
    of the fair model. *)
Lemma fair_unmasked_decode :
  viterbi (Indices [0%nat; 0%nat]) fair_cell None = Some [0%Z; 0%Z].
Proof.
  destruct (viterbi_decodes fair_cell (Indices [0%nat; 0%nat]) None) as [_ Hv].
  - exact fair_cell_wf.
  - apply fair_input_wf. simpl. lia.
  - exact I.
  - rewrite Hv. f_equal.
    unfold decoded_path, gamma_table, gamma_init, fair_cell.
    eval_decoder. reflexivity.
Qed.

(** Every path of two states has the same log-probability under the fair
    model. *)
Lemma fair_path_score (a b : nat) :
  (a < 2)%nat -> (b < 2)%nat ->
  path_score fair_cell (encode (Indices [0%nat; 0%nat]) fair_cell) None [a; b]
  = 4 * ln (/ 2).
Proof.
  intros Ha Hb.
  destruct a as [| [| a]]; destruct b as [| [| b]]; try lia;
    unfold path_score, path_score_from, step_score, mask_term, entry, fair_cell;
    eval_tensors; ring.
Qed.

End MaskPenalty.

(** C6 (amended): the mask is a penalty of 1000 per forbidden transition, not
    an exclusion.  If the mask allows exactly the transitions of a designated
    path, [viterbi] returns that path whenever every other state path,
    charged 1000 for each forbidden transition it takes, scores less than the
    designated path; and whenever [viterbi] returns the designated path, no
    other path so charged scores more. *)
Theorem viterbi_mask_enforced :
  forall (hmm_cell : Viterbi.HmmCell) (input : Viterbi.SeqInput)
         (f : Viterbi.MaskFunc) (path : list nat),
    cell_wf hmm_cell ->
    input_wf hmm_cell (Viterbi.encode input hmm_cell) ->
    mask_wf hmm_cell (Some f) ->
    valid_path hmm_cell (Viterbi.encode input hmm_cell) path ->
    mask_only_path hmm_cell (Viterbi.encode input hmm_cell) f path ->
    ((forall other : list nat,
        valid_path hmm_cell (Viterbi.encode input hmm_cell) other ->
        other <> path ->
        path_score hmm_cell (Viterbi.encode input hmm_cell) None other
        - 1000 * INR (forbidden_steps path other)
        < path_score hmm_cell (Viterbi.encode input hmm_cell) None path) ->
     Viterbi.viterbi input hmm_cell (Some f) = Some (map Z.of_nat path))
    /\ (Viterbi.viterbi input hmm_cell (Some f) = Some (map Z.of_nat path) ->
        forall other : list nat,
          valid_path hmm_cell (Viterbi.encode input hmm_cell) other ->
          path_score hmm_cell (Viterbi.encode input hmm_cell) None other
          - 1000 * INR (forbidden_steps path other)
          <= path_score hmm_cell (Viterbi.encode input hmm_cell) None path).
Proof.
  intros hmm_cell input f path Hcell Hin Hmask Hpath Honly.
  set (sequences := Viterbi.encode input hmm_cell) in *.
  destruct (viterbi_decodes hmm_cell input (Some f) Hcell Hin Hmask) as [_ Hv].
  fold sequences in Hv.
  set (decoded := decoded_path hmm_cell sequences (Some f)) in *.
  assert (Hdecoded : valid_path hmm_cell sequences decoded).
  { split.
    - apply decoded_path_length; assumption.
    - apply decoded_path_valid; assumption. }
  assert (Hown : path_score hmm_cell sequences (Some f) path
                 = path_score hmm_cell sequences None path).
  { rewrite (masked_path_score hmm_cell sequences f path Honly path Hpath).
    rewrite forbidden_steps_own. cbn [INR]. ring. }
  pose proof (valid_path_score_le hmm_cell sequences (Some f) Hcell Hin Hmask) as Hbest.
  fold decoded in Hbest.
  split.
  - intros Hstrict. rewrite Hv. f_equal. f_equal.
    destruct (list_eq_dec Nat.eq_dec decoded path) as [Heq | Hne]; [exact Heq |].
    exfalso.
    specialize (Hstrict decoded Hdecoded Hne).
    rewrite <- (masked_path_score hmm_cell sequences f path Honly decoded Hdecoded)
      in Hstrict.
    specialize (Hbest path Hpath). lra.
  - intros Hret other Hother.
    rewrite Hv in Hret. injection Hret as Hret.
    assert (Heq : decoded = path).
    { rewrite <- (map_to_nat_of_nat decoded), <- (map_to_nat_of_nat path).
      now rewrite Hret. }
    rewrite <- (masked_path_score hmm_cell sequences f path Honly other Hother).
    specialize (Hbest other Hother). rewrite Heq in Hbest. lra.
Qed.

Lemma viterbi_mask_enforced_witness :
  Viterbi.viterbi (Viterbi.Indices [0%nat; 0%nat]) fair_cell None = Some [0%Z; 0%Z]
  /\ Viterbi.viterbi (Viterbi.Indices [0%nat; 0%nat]) fair_cell (Some only_1_to_1)
     = Some (map Z.of_nat [1%nat; 1%nat]).
Proof.
  split; [exact fair_unmasked_decode |].
  apply (viterbi_mask_enforced fair_cell (Viterbi.Indices [0%nat; 0%nat])
           only_1_to_1 [1%nat; 1%nat]).
  - exact fair_cell_wf.
  - apply fair_input_wf. simpl. lia.
  - apply const_mask_wf. unfold is_mat. simpl. repeat split; repeat constructor.
  - split; [reflexivity |]. repeat constructor.
  - apply only_1_to_1_designates; reflexivity.
  - intros other [Hlen Hall] Hne.
    destruct other as [| a [| b [| c rest]]]; try discriminate Hlen.
    apply Forall_cons_iff in Hall. destruct Hall as [Ha Hall].
    apply Forall_cons_iff in Hall. destruct Hall as [Hb _].
    cbn [Viterbi.max_num_states fair_cell] in Ha, Hb.
    rewrite (fair_path_score a b Ha Hb), (fair_path_score 1 1) by lia.
    destruct a as [| [| a]]; destruct b as [| [| b]]; try lia;
      try (exfalso; apply Hne; reflexivity);
      cbn [forbidden_steps forbidden_from nth Nat.sub Nat.eqb andb Nat.add INR]; lra.
Defined.

(** ** A mask of ones and the order kept by [safe_log] *)

Lemma entry_ones (n i j : nat) :
  (i < n)%nat -> (j < n)%nat -> entry (repeat (repeat 1 n) n) i j = 1.
Proof.
  intros Hi Hj. unfold entry. now rewrite !nth_repeat_lt.
Qed.

Lemma ones_is_mat (n : nat) : is_mat n n (repeat (repeat 1 n) n).
Proof.
  split; [apply repeat_length |].
  apply Forall_forall. intros row Hrow. apply repeat_spec in Hrow. subst row.
  apply repeat_length.
Qed.

Section AllAllowed.

Import Viterbi.

Variable hmm_cell : HmmCell.
Variable sequences : mat.
Variable f : MaskFunc.

Let Q := max_num_states hmm_cell.
Let L := length sequences.
Let sl := seq_lens sequences.

Hypothesis Hcell : cell_wf hmm_cell.
Hypothesis Hin : input_wf hmm_cell sequences.
Hypothesis Hones : forall i seq_len, f i seq_len hmm_cell = repeat (repeat 1 Q) Q.

Lemma ones_mask_wf : mask_wf hmm_cell (Some f).
Proof.
  intros i seq_len. rewrite Hones. apply ones_is_mat.
Qed.

Lemma ones_trans_terms i g q :
  (q < Q)%nat ->
  trans_terms hmm_cell sequences (Some f) i g q = trans_terms hmm_cell sequences None i g q.
Proof.
  intros Hq. unfold trans_terms. apply map_ext_in. intros q' Hq'.
  apply in_seq in Hq'. unfold mask_term. rewrite Hones.
  rewrite entry_ones by (fold Q; lia). rewrite safe_log_1. lra.
Qed.

Lemma ones_viterbi_step i g e :
  length g = Q -> length e = Q ->
  viterbi_step g e hmm_cell (apply_mask_func (Some f) i sl hmm_cell)
  = viterbi_step g e hmm_cell (apply_mask_func None i sl hmm_cell).
Proof.
  intros Hg He. unfold sl.
  apply (nth_ext _ _ 0 0).
  - rewrite (viterbi_step_length hmm_cell sequences (Some f) Hcell ones_mask_wf i g e Hg He).
    rewrite (viterbi_step_length hmm_cell sequences None Hcell I i g e Hg He).
    reflexivity.
  - intros q Hq.
    rewrite (viterbi_step_length hmm_cell sequences (Some f) Hcell ones_mask_wf i g e Hg He)
      in Hq.
    rewrite (viterbi_step_nth hmm_cell sequences (Some f) Hcell ones_mask_wf i g e q Hg He Hq).
    rewrite (viterbi_step_nth hmm_cell sequences None Hcell I i g e q Hg He Hq).
    now rewrite ones_trans_terms.
Qed.

Lemma ones_gamma_steps n : forall g i,
  length g = Q -> (i + n <= L)%nat ->
  gamma_steps hmm_cell sequences (Some f) g i n
  = gamma_steps hmm_cell sequences None g i n.
Proof.
  induction n as [| n IH]; intros g i Hg Hi; [reflexivity |].
  cbn [gamma_steps].
  assert (He : length (nth i (emission_probs hmm_cell sequences) []) = Q).
  { apply (ems_row_length hmm_cell sequences Hin). fold L. lia. }
  pose proof (ones_viterbi_step i g _ Hg He) as Hstep. unfold sl in Hstep.
  rewrite Hstep. f_equal. apply IH; [| lia].
  apply (viterbi_step_length hmm_cell sequences None Hcell I i g _ Hg He).
Qed.

Lemma ones_gamma_table :
  gamma_table hmm_cell sequences (Some f) = gamma_table hmm_cell sequences None.
Proof.
  unfold gamma_table. f_equal.
  pose proof (input_wf_len hmm_cell sequences Hin).
  apply ones_gamma_steps; [| fold L; lia].
  apply (gamma_init_length hmm_cell sequences Hcell Hin).
Qed.

Lemma ones_backtrack i : forall q,
  (i < L)%nat -> (q < Q)%nat ->
  backtrack hmm_cell sequences (Some f) (gamma_table hmm_cell sequences None) q i
  = backtrack hmm_cell sequences None (gamma_table hmm_cell sequences None) q i.
Proof.
  induction i as [| i IH]; intros q Hi Hq; [reflexivity |].
  cbn [backtrack].
  assert (Hg : length (nth i (gamma_table hmm_cell sequences None) []) = Q).
  { apply (gamma_row_length hmm_cell sequences None Hcell Hin I). fold L. lia. }
  pose proof (viterbi_backtracking_step_argmax hmm_cell sequences (Some f) Hcell
                ones_mask_wf (i + 1) q _ Hg Hq) as H1.
  pose proof (viterbi_backtracking_step_argmax hmm_cell sequences None Hcell
                I (i + 1) q _ Hg Hq) as H2.
  rewrite ones_trans_terms in H1 by exact Hq.
  rewrite H1, <- H2.
  f_equal. apply IH; [lia |].
  apply (viterbi_backtracking_step_lt hmm_cell sequences None Hcell I); assumption.
Qed.

Lemma ones_decoded_path :
  decoded_path hmm_cell sequences (Some f) = decoded_path hmm_cell sequences None.
Proof.
  unfold decoded_path. cbv zeta. rewrite ones_gamma_table.
  pose proof (input_wf_len hmm_cell sequences Hin).
  f_equal. apply ones_backtrack; [fold L; lia |].
  apply (decoded_last_lt hmm_cell sequences None Hcell Hin I).
Qed.

End AllAllowed.

(** X8: a mask function whose masks allow every transition (all entries 1)
    changes nothing: [viterbi] returns the path it returns without a mask
    function. *)
Theorem viterbi_all_allowed_mask :
  forall (hmm_cell : Viterbi.HmmCell) (input : Viterbi.SeqInput) (f : Viterbi.MaskFunc),
    cell_wf hmm_cell ->
    input_wf hmm_cell (Viterbi.encode input hmm_cell) ->
    (forall i seq_len,
        f i seq_len hmm_cell
        = repeat (repeat 1 (Viterbi.max_num_states hmm_cell))
                 (Viterbi.max_num_states hmm_cell)) ->
    Viterbi.viterbi input hmm_cell (Some f) = Viterbi.viterbi input hmm_cell None.
Proof.
  intros hmm_cell input f Hcell Hin Hones.
  pose proof (ones_mask_wf hmm_cell f Hones) as Hmask.
  destruct (viterbi_decodes hmm_cell input (Some f) Hcell Hin Hmask) as [_ ->].
  destruct (viterbi_decodes hmm_cell input None Hcell Hin I) as [_ ->].
  do 2 f_equal. apply ones_decoded_path; assumption.
Qed.

Lemma viterbi_all_allowed_mask_witness :
  Viterbi.viterbi (Viterbi.Indices [0%nat; 0%nat; 1%nat]) absorbing_cell (Some all_allowed)
  = Viterbi.viterbi (Viterbi.Indices [0%nat; 0%nat; 1%nat]) absorbing_cell None.
Proof.
  apply (viterbi_all_allowed_mask absorbing_cell (Viterbi.Indices [0%nat; 0%nat; 1%nat])
           all_allowed).
  - exact absorbing_cell_wf.
  - apply absorbing_input_wf. simpl. lia.
  - intros i seq_len. reflexivity.
Defined.

(** *** The order kept by [safe_log] *)

(** X10: [safe_log] keeps the order of probabilities: on non-negative inputs
    it is non-decreasing, the sentinel of a zero lying below the logarithm of
    every positive input. *)
Theorem safe_log_monotone :
  forall x y : R, 0 <= x -> x <= y -> safe_log x <= safe_log y.
Proof.
  intros x y Hx Hxy. pose proof tiny_pos as Ht.
  destruct (float_cases x) as [Hs | [Hn | Hneg]]; [| | lra].
  - rewrite (safe_log_subnormal x Hs). apply safe_log_lower.
  - rewrite (safe_log_normal x Hn), (safe_log_normal y) by lra.
    destruct Hxy as [Hlt | <-]; [| lra].
    left. apply ln_increasing; lra.
Qed.

Lemma safe_log_monotone_witness : safe_log 0 <= safe_log (/ 2).
Proof.
  apply (safe_log_monotone 0 (/ 2)); lra.
Defined.

(** *** The empty sequence *)

(** X11: on shapes that fit (one row of [max_num_states] emission
    probabilities per position), [viterbi] raises exactly when the input has
    no position: the first row of the emissions is read before the loop. *)
Theorem viterbi_raises_iff_empty :
  forall (hmm_cell : Viterbi.HmmCell) (input : Viterbi.SeqInput)
         (mask : option Viterbi.MaskFunc),
    cell_wf hmm_cell ->
    mask_wf hmm_cell mask ->
    is_mat (length (Viterbi.encode input hmm_cell)) (Viterbi.max_num_states hmm_cell)
      (Viterbi.emission_probs hmm_cell (Viterbi.encode input hmm_cell)) ->
    (Viterbi.viterbi input hmm_cell mask = None <-> Viterbi.encode input hmm_cell = []).
Proof.
  intros hmm_cell input mask Hcell Hmask Hems. split.
  - intros Hnone.
    destruct (Viterbi.encode input hmm_cell) as [| x rest] eqn:E; [reflexivity |].
    exfalso.
    assert (Hin : input_wf hmm_cell (Viterbi.encode input hmm_cell)).
    { rewrite E. split; [simpl; lia | exact Hems]. }
    destruct (viterbi_decodes hmm_cell input mask Hcell Hin Hmask) as [_ Hv].
    congruence.
  - intros Hnil. unfold Viterbi.viterbi, Viterbi.viterbi_dyn_prog.
    rewrite Hnil in *. destruct Hems as [Hlen _]. simpl in Hlen.
    apply length_zero_iff_nil in Hlen. rewrite Hlen. reflexivity.
Qed.

Lemma viterbi_raises_iff_empty_witness :
  Viterbi.viterbi (Viterbi.Indices []) absorbing_cell None = None
  <-> Viterbi.encode (Viterbi.Indices []) absorbing_cell = [].
Proof.
  apply (viterbi_raises_iff_empty absorbing_cell (Viterbi.Indices []) None).
  - exact absorbing_cell_wf.
  - exact I.
  - split; [reflexivity | constructor].
Defined.

(** ** Further properties of the emitter *)

Lemma traverse_fails {A B : Type} (f : A -> option B) (l : list A) (a : A) :
  In a l -> f a = None -> traverse f l = None.
Proof.
  induction l as [| x l IH]; intros Hin Hf; [destruct Hin |].
  cbn [traverse]. destruct Hin as [-> | Hin].
  - rewrite Hf. reflexivity.
  - destruct (f x); [| reflexivity]. cbn [bind].
    rewrite (IH Hin Hf). reflexivity.
Qed.

(** The product of a one-hot row with a row of the emission matrix reads
    one entry of the row. *)
Lemma dot_indicator (a : nat) (row : vec) : forall k,
  vec_sum (zip_with Rmult (map (fun j => if Nat.eqb j a then 1 else 0)
                              (seq k (length row))) row)
  = if (k <=? a)%nat then nth (a - k) row 0 else 0.
Proof.
  induction row as [| x row IH]; intros k.
  - cbn. destruct (k <=? a)%nat; [now destruct (a - k)%nat | reflexivity].
  - cbn [length seq map zip_with].
    change (vec_sum (?y :: ?l)) with (y + vec_sum l).
    rewrite IH.
    destruct (Nat.eqb_spec k a) as [-> | Hne].
    + rewrite Nat.leb_refl, Nat.sub_diag.
      destruct (Nat.leb_spec (S a) a); [lia |]. cbn [nth]. ring.
    + destruct (Nat.leb_spec k a) as [Hle | Hgt].
      * destruct (Nat.leb_spec (S k) a); [| lia].
        replace (a - k)%nat with (S (a - S k)) by lia. cbn [nth]. ring.
      * destruct (Nat.leb_spec (S k) a); [lia |]. ring.
Qed.

Lemma dot_one_hot (a : nat) (row : vec) :
  vec_sum (zip_with Rmult (one_hot a (length row)) row) = nth a row 0.
Proof.
  unfold one_hot. rewrite dot_indicator. cbn [Nat.leb]. now rewrite Nat.sub_0_r.
Qed.

Lemma call_one_hot_general (B : mat) (w : nat) (symbols : list nat) :
  Forall (fun row => length row = w) B ->
  Emitter.call B (map (fun a => one_hot a w) symbols)
  = map (fun a => map (fun row => nth a row 0) B) symbols.
Proof.
  intros HB. unfold Emitter.call. rewrite map_map.
  apply map_ext. intros a. apply map_ext_in. intros row Hrow.
  rewrite Forall_forall in HB. rewrite <- (HB row Hrow). apply dot_one_hot.
Qed.

(** X12: on one-hot encoded symbols the emitter's matrix product is a
    lookup: the emission probability of symbol [a] under state [q] is entry
    [(q, a)] of the emission matrix, and 0 for a symbol outside the
    alphabet (which [tf.one_hot] encodes as the zero row). *)
Theorem call_one_hot :
  forall (B : mat) (w : nat) (symbols : list nat),
    Forall (fun row => length row = w) B ->
    Emitter.call B (map (fun a => one_hot a w) symbols)
    = map (fun a => map (fun row => nth a row 0) B) symbols.
Proof.
  intros B w symbols HB. apply call_one_hot_general. exact HB.
Qed.

Lemma call_one_hot_witness :
  Emitter.call [[/ 2; / 2; 0]; [0; 0; 1]] (map (fun a => one_hot a 3) [1%nat; 2%nat; 5%nat])
  = map (fun a => map (fun row => nth a row 0) [[/ 2; / 2; 0]; [0; 0; 1]])
        [1%nat; 2%nat; 5%nat].
Proof.
  apply (call_one_hot [[/ 2; / 2; 0]; [0; 0; 1]] 3 [1%nat; 2%nat; 5%nat]).
  repeat constructor.
Defined.

(** The matrix of every model, as [make_B] returns it. *)
Lemma make_B_nth (self : Emitter.ProfileHMMEmitter) :
  emitter_wf self ->
  exists B : list mat,
    Emitter.make_B self = Some B
    /\ length B = length (Emitter.length self)
    /\ forall k, (k < length (Emitter.length self))%nat ->
         nth k B []
         = padded_emission_matrix (Emitter.alphabet_size self) (Emitter.max_num_states self)
             (nth k (Emitter.emission_kernel self) [])
             (nth k (Emitter.insertion_kernel self) [])
             (nth k (Emitter.length self) 0%nat).
Proof.
  intros Hwf. eexists. split; [apply (make_B_total self Hwf) |].
  split; [rewrite length_map; apply kernels_length; exact Hwf |].
  intros k Hk.
  rewrite (nth_map_lt _ _ k ([], [], 0%nat)) by (rewrite kernels_length; assumption).
  rewrite kernels_nth by assumption. reflexivity.
Qed.

Lemma padded_emission_matrix_widths s maxq em ins len :
  Forall (fun row => length row = s) em -> length ins = s ->
  Forall (fun row => length row = (s + 1)%nat) (padded_emission_matrix s maxq em ins len).
Proof.
  intros Hem Hins. unfold padded_emission_matrix.
  apply Forall_app. split; [apply Forall_app; split |].
  - apply Forall_map. eapply Forall_impl; [| apply (kernel_rows_width s em ins len Hem Hins)].
    intros row Hrow. cbn beta in *. rewrite length_app, softmax_length, Hrow. reflexivity.
  - constructor; [| constructor]. unfold one_hot. now rewrite length_map, length_seq.
  - apply Forall_forall. intros row Hrow. apply repeat_spec in Hrow. subst row.
    apply repeat_length.
Qed.

(** X13: under every model built by [make_B], the terminal symbol is emitted
    by the end state with probability 1 and by every other state, padding
    included, with probability 0: the emissions of the one-hot terminal
    symbol are the one-hot row of the end state [2 * length + 2]. *)
Theorem terminal_symbol_emission :
  forall self : Emitter.ProfileHMMEmitter,
    emitter_wf self ->
    exists B : list mat,
      Emitter.make_B self = Some B
      /\ forall k, (k < length (Emitter.length self))%nat ->
           Emitter.call (nth k B [])
             [one_hot (Emitter.alphabet_size self) (Emitter.alphabet_size self + 1)]
           = [one_hot (2 * nth k (Emitter.length self) 0%nat + 2)
                (Emitter.max_num_states self)].
Proof.
  intros self Hwf.
  destruct (make_B_nth self Hwf) as (B & HB & HlenB & Hnth).
  exists B. split; [exact HB |].
  intros k Hk. rewrite (Hnth k Hk).
  destruct Hwf as (Hs & _ & _ & Hall). destruct (Hall k Hk) as (Hlen & Hrows & Hins & Hmax).
  set (s := Emitter.alphabet_size self) in *.
  set (maxq := Emitter.max_num_states self) in *.
  set (em := nth k (Emitter.emission_kernel self) []) in *.
  set (ins := nth k (Emitter.insertion_kernel self) []) in *.
  set (len := nth k (Emitter.length self) 0%nat) in *.
  pose proof (padded_emission_matrix_rows s maxq em ins len Hs Hrows Hins ltac:(lia))
    as (HBlen & _ & Hterm & Hend & Hpad).
  rewrite Hlen in Hterm, Hend, Hpad.
  change [one_hot s (s + 1)] with (map (fun a => one_hot a (s + 1)) [s]).
  rewrite (call_one_hot_general _ (s + 1) [s])
    by (apply padded_emission_matrix_widths; assumption).
  cbn [map]. f_equal.
  set (Bk := padded_emission_matrix s maxq em ins len) in *.
  apply (nth_ext _ _ 0 0).
  - unfold one_hot. now rewrite !length_map, length_seq.
  - intros q Hq. rewrite length_map, HBlen in Hq.
    rewrite (nth_map_lt (fun row : vec => nth s row 0) Bk q [] 0) by lia.
    unfold one_hot at 1.
    rewrite (nth_map_lt _ (seq 0 maxq) q 0%nat 0) by (now rewrite length_seq).
    rewrite seq_nth by exact Hq. cbn [Nat.add].
    destruct (Nat.eqb_spec q (2 * len + 2)) as [-> | Hne].
    + replace (2 * len + 2)%nat with (len + len + 3 - 1)%nat by lia.
      rewrite Hend. unfold one_hot.
      rewrite (nth_map_lt _ (seq 0 (s + 1)) s 0%nat 0) by (rewrite length_seq; lia).
      rewrite seq_nth by lia. cbn [Nat.add]. now rewrite Nat.eqb_refl.
    + destruct (Nat.lt_ge_cases q (len + len + 3 - 1)) as [Hlt | Hge].
      * apply Hterm. exact Hlt.
      * rewrite Hpad by lia. apply nth_repeat_lt. lia.
Qed.

Lemma terminal_symbol_emission_witness :
  exists B : list mat,
    Emitter.make_B example_emitter = Some B
    /\ forall k, (k < length (Emitter.length example_emitter))%nat ->
         Emitter.call (nth k B [])
           [one_hot (Emitter.alphabet_size example_emitter)
              (Emitter.alphabet_size example_emitter + 1)]
         = [one_hot (2 * nth k (Emitter.length example_emitter) 0%nat + 2)
              (Emitter.max_num_states example_emitter)].
Proof.
  apply (terminal_symbol_emission example_emitter). exact example_emitter_wf.
Defined.

(** X14: the layout of the emission matrix of a model of length [len]: row
    [0] and the rows [len + 1], ..., [2 * len + 1] all hold the softmax of the
    shared insertion kernel, and row [i + 1] holds the softmax of row [i] of
    the emission kernel, each followed by probability 0 for the terminal
    symbol. *)
Theorem make_B_layout :
  forall self : Emitter.ProfileHMMEmitter,
    emitter_wf self ->
    exists B : list mat,
      Emitter.make_B self = Some B
      /\ forall k, (k < length (Emitter.length self))%nat ->
           let len := nth k (Emitter.length self) 0%nat in
           let shared := Emitter.softmax (nth k (Emitter.insertion_kernel self) []) ++ [0] in
           nth 0 (nth k B []) [] = shared
           /\ (forall i, (i < len)%nat ->
                 nth (i + 1) (nth k B []) []
                 = Emitter.softmax (nth i (nth k (Emitter.emission_kernel self) []) [])
                   ++ [0])
           /\ (forall j, (j <= len)%nat -> nth (len + 1 + j) (nth k B []) [] = shared).
Proof.
  intros self Hwf.
  destruct (make_B_nth self Hwf) as (B & HB & HlenB & Hnth).
  exists B. split; [exact HB |].
  intros k Hk len shared. rewrite (Hnth k Hk).
  destruct Hwf as (Hs & _ & _ & Hall). destruct (Hall k Hk) as (Hlen & Hrows & Hins & Hmax).
  fold len in Hlen, Hmax |- *.
  set (em := nth k (Emitter.emission_kernel self) []) in *.
  set (ins := nth k (Emitter.insertion_kernel self) []) in *.
  unfold padded_emission_matrix.
  set (K := [ins] ++ em ++ repeat ins (len + 1)).
  assert (HK : length K = (2 * len + 2)%nat).
  { unfold K. rewrite !length_app, repeat_length, Hlen. simpl. lia. }
  assert (Hrow : forall i, (i < 2 * len + 2)%nat ->
            nth i ((map (fun row => Emitter.softmax row ++ [0]) K
                    ++ [one_hot (Emitter.alphabet_size self) (Emitter.alphabet_size self + 1)])
                   ++ repeat (repeat 0 (Emitter.alphabet_size self + 1))
                        (Emitter.max_num_states self - (length em + len + 3))) []
            = Emitter.softmax (nth i K []) ++ [0]).
  { intros i Hi.
    rewrite app_nth1 by (rewrite length_app, length_map, HK; simpl; lia).
    rewrite app_nth1 by (rewrite length_map, HK; lia).
    apply (nth_map_lt (fun row => Emitter.softmax row ++ [0]) K i []). lia. }
  split; [| split].
  - rewrite Hrow by lia. reflexivity.
  - intros i Hi. rewrite Hrow by lia. unfold K.
    replace (i + 1)%nat with (S i) by lia. cbn [app nth].
    rewrite app_nth1 by lia. reflexivity.
  - intros j Hj. rewrite Hrow by lia. unfold K.
    replace (len + 1 + j)%nat with (S (len + j)) by lia. cbn [app nth].
    rewrite app_nth2 by lia. rewrite nth_repeat_lt by lia. reflexivity.
Qed.

Lemma make_B_layout_witness :
  exists B : list mat,
    Emitter.make_B example_emitter = Some B
    /\ forall k, (k < length (Emitter.length example_emitter))%nat ->
         let len := nth k (Emitter.length example_emitter) 0%nat in
         let shared :=
           Emitter.softmax (nth k (Emitter.insertion_kernel example_emitter) []) ++ [0] in
         nth 0 (nth k B []) [] = shared
         /\ (forall i, (i < len)%nat ->
               nth (i + 1) (nth k B []) []
               = Emitter.softmax (nth i (nth k (Emitter.emission_kernel example_emitter) []) [])
                 ++ [0])
         /\ (forall j, (j <= len)%nat -> nth (len + 1 + j) (nth k B []) [] = shared).
Proof.
  apply (make_B_layout example_emitter). exact example_emitter_wf.
Defined.

(** *** Logits shifted by a constant *)

Lemma vec_sum_scal (c : R) (l : vec) : vec_sum (map (fun x => c * x) l) = c * vec_sum l.
Proof.
  induction l as [| x l IH]; [cbn; ring |].
  cbn [map]. change (vec_sum (?y :: ?t)) with (y + vec_sum t). rewrite IH. ring.
Qed.

Lemma softmax_shifted (row row' : vec) : shifted row row' ->
  Emitter.softmax row' = Emitter.softmax row.
Proof.
  intros [c ->]. unfold Emitter.softmax. rewrite !map_map.
  assert (Hz : vec_sum (map (fun x => exp (x + c)) row)
               = exp c * vec_sum (map exp row)).
  { rewrite <- vec_sum_scal, map_map. f_equal. apply map_ext. intros x.
    rewrite exp_plus. ring. }
  rewrite Hz. apply map_ext. intros x.
  rewrite exp_plus. unfold Rdiv. rewrite Rinv_mult.
  pose proof (exp_pos c) as Hc.
  set (z := vec_sum (map exp row)).
  replace (exp x * exp c * (/ exp c * / z)) with (exp x * (exp c * / exp c) * / z) by ring.
  rewrite Rinv_r by lra. ring.
Qed.

Lemma shifted_length (row row' : vec) : shifted row row' -> length row' = length row.
Proof. intros [c ->]. apply length_map. Qed.

Lemma shifted_rows (K K' : mat) (w : nat) :
  Forall2 shifted K K' ->
  Emitter.same_width w K' = Emitter.same_width w K
  /\ map Emitter.softmax K' = map Emitter.softmax K.
Proof.
  induction 1 as [| row row' K K' Hrow _ [IHw IHs]]; [split; reflexivity |].
  split.
  - unfold Emitter.same_width in *. cbn [forallb].
    rewrite (shifted_length _ _ Hrow), IHw. reflexivity.
  - cbn [map]. rewrite (softmax_shifted _ _ Hrow), IHs. reflexivity.
Qed.

Lemma shifted_repeat (ins ins' : vec) (n : nat) :
  shifted ins ins' -> Forall2 shifted (repeat ins n) (repeat ins' n).
Proof.
  intros H. induction n as [| n IH]; [constructor | now constructor].
Qed.

(** X15: the emission matrix depends on the kernels only up to a constant
    per row: adding a constant to every logit of a row of the emission kernel,
    or of the insertion kernel, leaves [make_default_emission_matrix]
    unchanged (whether it returns or raises). *)
Theorem emission_matrix_shift_invariant :
  forall (s : nat) (em em' : mat) (ins ins' : vec) (length : nat),
    Forall2 shifted em em' ->
    shifted ins ins' ->
    Emitter.make_default_emission_matrix s em' ins' length
    = Emitter.make_default_emission_matrix s em ins length.
Proof.
  intros s em em' ins ins' len Hem Hins.
  unfold Emitter.make_default_emission_matrix.
  assert (HK : Forall2 shifted ([ins] ++ em ++ repeat ins (len + 1))
                               ([ins'] ++ em' ++ repeat ins' (len + 1))).
  { apply Forall2_app; [repeat constructor; exact Hins |].
    apply Forall2_app; [exact Hem | apply shifted_repeat; exact Hins]. }
  destruct (shifted_rows _ _ s HK) as [Hw Hs].
  rewrite Hw, Hs. reflexivity.
Qed.

Lemma emission_matrix_shift_invariant_witness :
  Emitter.make_default_emission_matrix 2 [map (fun x => x + 3) [0; 1]]
    (map (fun x => x + -1) [0; 0]) 1
  = Emitter.make_default_emission_matrix 2 [[0; 1]] [0; 0] 1.
Proof.
  apply (emission_matrix_shift_invariant 2 [[0; 1]] [map (fun x => x + 3) [0; 1]]
           [0; 0] (map (fun x => x + -1) [0; 0]) 1).
  - constructor; [exists 3; reflexivity | constructor].
  - exists (-1). reflexivity.
Defined.

(** *** More states than the padding bound *)

Lemma make_default_emission_matrix_length s em ins len M :
  Emitter.make_default_emission_matrix s em ins len = Some M ->
  length M = (length em + len + 3)%nat.
Proof.
  unfold Emitter.make_default_emission_matrix. cbv zeta.
  destruct (negb (Emitter.same_width s _)); [discriminate |].
  destruct (negb (Emitter.same_width (s + 1) _)); [discriminate |].
  intros H. injection H as <-.
  cbn [length]. rewrite length_app, !length_map, length_app, repeat_length.
  cbn [length]. lia.
Qed.

(** X16: [make_B] raises when a model has more states than [max_num_states]:
    if the kernels of some model give [length em + length + 3] rows and this
    exceeds [max_num_states], the padding is negative and no matrix is
    returned, silently dropping states never happens. *)
Theorem make_B_too_few_states :
  forall (self : Emitter.ProfileHMMEmitter) (em : mat) (ins : vec) (len : nat),
    In (em, ins, len)
       (combine (combine (Emitter.emission_kernel self) (Emitter.insertion_kernel self))
                (Emitter.length self)) ->
    (Emitter.max_num_states self < length em + len + 3)%nat ->
    Emitter.make_B self = None.
Proof.
  intros self em ins len Hin Hmax. unfold Emitter.make_B.
  apply (traverse_fails _ _ (em, ins, len) Hin).
  destruct (Emitter.make_default_emission_matrix (Emitter.alphabet_size self) em ins len)
    as [M |] eqn:EM; [| reflexivity].
  cbn [bind]. unfold Emitter.pad_rows.
  rewrite (make_default_emission_matrix_length _ _ _ _ _ EM).
  destruct (Z.ltb_spec (Z.of_nat (Emitter.max_num_states self)
                        - Z.of_nat (length em + len + 3)) 0) as [_ | Hge];
    [reflexivity | lia].
Qed.

Lemma make_B_too_few_states_witness :
  Emitter.make_B
    {| Emitter.alphabet_size := 2;
       Emitter.emission_kernel := [[[0; 1]]];
       Emitter.insertion_kernel := [[0; 0]];
       Emitter.length := [1%nat];
       Emitter.max_num_states := 4 |} = None.
Proof.
  apply (make_B_too_few_states _ [[0; 1]] [0; 0] 1%nat).
  - left. reflexivity.
  - simpl. lia.
Defined.

(** ** Sequence weights ([MsaHmmLayer.py]) *)

Section SequenceWeights.

Import LayerLoss.

Variable sequence_weights : vec.
Variable c : R.
Variable b : nat.

Hypothesis Hc : c <> 0.
Hypothesis Hb : (1 <= b)%nat.

(** Row [r] of the indices selects weights that all equal [c]. *)
Let uniform_row (r : list nat) : Prop :=
  forall i, In i r -> nth_error sequence_weights i = Some c.

Lemma tf_gather_uniform (r : list nat) :
  uniform_row r -> tf_gather sequence_weights r = Some (repeat c (length r)).
Proof.
  intros Hr. unfold tf_gather.
  rewrite (traverse_total _ (fun _ => c)) by exact Hr.
  f_equal. induction r as [| i r IH]; [reflexivity |].
  cbn [map length repeat]. f_equal. apply IH.
  intros j Hj. apply Hr. right. exact Hj.
Qed.

Lemma gather_rows_uniform (idx : list (list nat)) :
  Forall uniform_row idx ->
  traverse (tf_gather sequence_weights) idx
  = Some (map (fun r => repeat c (length r)) idx).
Proof.
  intros H. apply traverse_total. intros r Hr.
  rewrite Forall_forall in H. apply tf_gather_uniform. apply H. exact Hr.
Qed.

Lemma broadcast_mat_same_shape (f : R -> R -> R) (m n : mat) :
  Forall2 (fun u v => length u = length v) m n ->
  broadcast_mat f m n = Some (map (fun '(u, v) => zip_with f u v) (combine m n)).
Proof.
  intros H. unfold broadcast_mat.
  rewrite (Forall2_length H), Nat.eqb_refl.
  apply traverse_total. intros [u v] Hin.
  unfold broadcast_vec.
  assert (Hl : length u = length v).
  { clear - H Hin. induction H as [| x y m n Hxy _ IH]; [destruct Hin |].
    destruct Hin as [Heq | Hin]; [injection Heq as <- <-; exact Hxy | apply IH; exact Hin]. }
  rewrite Hl, Nat.eqb_refl. reflexivity.
Qed.

Lemma vec_sum_scaled_row (u : vec) (n : nat) :
  length u = n -> vec_sum (zip_with Rmult u (repeat c n)) = c * vec_sum u.
Proof.
  revert n. induction u as [| x u IH]; intros n Hn.
  - destruct n; cbn; ring.
  - destruct n as [| n]; [discriminate |].
    cbn [repeat zip_with]. change (vec_sum (?y :: ?t)) with (y + vec_sum t).
    rewrite IH by (simpl in Hn; lia). ring.
Qed.

Lemma vec_sum_repeat (n : nat) : vec_sum (repeat c n) = c * INR n.
Proof.
  induction n as [| n IH]; [cbn; ring |].
  cbn [repeat]. change (vec_sum (?y :: ?t)) with (y + vec_sum t).
  rewrite IH, S_INR. ring.
Qed.

Lemma vec_sum_concat (m : mat) : vec_sum (concat m) = vec_sum (map vec_sum m).
Proof.
  induction m as [| u m IH]; [reflexivity |].
  cbn [concat map]. rewrite vec_sum_app.
  change (vec_sum (vec_sum u :: ?t)) with (vec_sum u + vec_sum t). now rewrite IH.
Qed.

Lemma length_concat_rows (m : mat) :
  Forall (fun u => length u = b) m -> length (concat m) = (length m * b)%nat.
Proof.
  induction 1 as [| u m Hu _ IH]; [reflexivity |].
  cbn [concat length]. rewrite length_app, IH, Hu. lia.
Qed.

(** The weighted mean of every model, when the weights are uniform. *)
Lemma uniform_per_model (loglik : mat) (idx : list (list nat)) :
  Forall2 (fun u r => length u = b /\ length r = b) loglik idx ->
  zip_with Rdiv
    (map vec_sum
       (map (fun '(u, v) => zip_with Rmult u v)
            (combine loglik (map (fun r => repeat c (length r)) idx))))
    (map vec_sum (map (fun r => repeat c (length r)) idx))
  = map (fun u => vec_sum u / INR b) loglik.
Proof.
  induction 1 as [| u r loglik idx [Hu Hr] _ IH]; [reflexivity |].
  cbn [map combine zip_with]. rewrite IH. f_equal.
  rewrite Hr, (vec_sum_scaled_row u b Hu), vec_sum_repeat.
  assert (HbR : INR b <> 0) by (apply not_0_INR; lia).
  field. split; assumption.
Qed.

Lemma uniform_weights_aggregate (loglik : mat) (idx : list (list nat)) :
  loglik <> [] ->
  Forall2 (fun u r => length u = b /\ length r = b) loglik idx ->
  Forall uniform_row idx ->
  apply_sequence_weights (Some sequence_weights) loglik (Some idx) true
  = apply_sequence_weights None loglik None true.
Proof.
  intros Hne Hshape Hidx. unfold apply_sequence_weights. cbn [bind].
  rewrite (gather_rows_uniform idx Hidx). cbn [bind].
  assert (Hsame : Forall2 (fun u v => length u = length v) loglik
                    (map (fun r => repeat c (length r)) idx)).
  { clear - Hshape. induction Hshape as [| u r loglik idx [Hu Hr] _ IH];
      [constructor |].
    cbn [map]. constructor; [rewrite repeat_length; lia | exact IH]. }
  rewrite (broadcast_mat_same_shape Rmult _ _ Hsame). cbn [bind].
  unfold broadcast_vec.
  rewrite !length_map, length_combine, length_map.
  rewrite <- (Forall2_length Hshape), Nat.min_id, Nat.eqb_refl. cbn [bind].
  rewrite (uniform_per_model loglik idx Hshape).
  do 2 f_equal. unfold reduce_mean.
  rewrite length_map.
  rewrite <- (map_map vec_sum (fun x => x / INR b)).
  rewrite (vec_sum_map_div (fun x => x) (INR b)), map_id.
  rewrite vec_sum_concat.
  assert (Hrows : Forall (fun u => length u = b) loglik).
  { clear - Hshape. induction Hshape as [| u r loglik idx [Hu _] _ IH];
      constructor; assumption. }
  rewrite (length_concat_rows loglik Hrows), mult_INR.
  assert (HbR : INR b <> 0) by (apply not_0_INR; lia).
  assert (HnR : INR (length loglik) <> 0).
  { apply not_0_INR. destruct loglik; [congruence | discriminate]. }
  field. split; assumption.
Qed.

End SequenceWeights.

(** X20: uniform sequence weights change nothing.  If every selected weight
    has the same non-zero value, the aggregated log-likelihood that
    [apply_sequence_weights] returns (the mean over the models of the
    weighted means over the batch) is the plain mean it returns for a layer
    without sequence weights. *)
Theorem uniform_sequence_weights :
  forall (sequence_weights : vec) (c : R) (b : nat) (loglik : mat)
         (indices : list (list nat)),
    c <> 0 ->
    (1 <= b)%nat ->
    loglik <> [] ->
    Forall2 (fun u r => length u = b /\ length r = b) loglik indices ->
    Forall (fun r => forall i, In i r -> nth_error sequence_weights i = Some c) indices ->
    LayerLoss.apply_sequence_weights (Some sequence_weights) loglik (Some indices) true
    = LayerLoss.apply_sequence_weights None loglik None true.
Proof.
  intros sequence_weights c b loglik indices Hc Hb Hne Hshape Hidx.
  apply (uniform_weights_aggregate sequence_weights c b Hc Hb loglik indices Hne Hshape Hidx).
Qed.

Lemma uniform_sequence_weights_witness :
  LayerLoss.apply_sequence_weights (Some [2; 2; 2]) [[-1; -3]; [-5; -7]]
    (Some [[0%nat; 2%nat]; [1%nat; 0%nat]]) true
  = LayerLoss.apply_sequence_weights None [[-1; -3]; [-5; -7]] None true.
Proof.
  apply (uniform_sequence_weights [2; 2; 2] 2 2 [[-1; -3]; [-5; -7]]
           [[0%nat; 2%nat]; [1%nat; 0%nat]]).
  - lra.
  - lia.
  - discriminate.
  - repeat constructor.
  - repeat constructor; intros i Hi; simpl in Hi;
      repeat (destruct Hi as [<- | Hi]; [reflexivity |]); destruct Hi.
Defined.

(** ** Forward, backward and posterior passes on one batch row *)

Lemma rnn_snoc {S : Type} (step : vec -> S -> bool -> vec * S) (l : list vec) (x : vec) :
  forall s,
    Layer.rnn step (l ++ [x]) s
    = let (o, s1) := Layer.rnn step l s in
      let (ox, s2) := step x s1 false in
      (o ++ [ox], s2).
Proof.
  induction l as [| y l IH]; intros s.
  - cbn [app Layer.rnn]. destruct (step x s false) as [ox s2]. reflexivity.
  - cbn [app Layer.rnn]. destruct (step y s false) as [oy s1].
    rewrite IH. destruct (Layer.rnn step l s1) as [o s1'].
    destruct (step x s1' false) as [ox s2]. reflexivity.
Qed.

Lemma zip_with_app {A B C : Type} (f : A -> B -> C) (a a' : list A) (b b' : list B) :
  length a = length b ->
  zip_with f (a ++ a') (b ++ b') = zip_with f a b ++ zip_with f a' b'.
Proof.
  revert b. induction a as [| x a IH]; intros b Hl.
  - destruct b; [reflexivity | discriminate].
  - destruct b as [| y b]; [discriminate |].
    cbn [app zip_with]. f_equal. apply IH. simpl in Hl. lia.
Qed.

Lemma map_zip_with {A B C D : Type} (g : C -> D) (h : A -> B -> C) (a : list A) (b : list B) :
  map g (zip_with h a b) = zip_with (fun x y => g (h x y)) a b.
Proof.
  revert b. induction a as [| x a IH]; intros b; [reflexivity |].
  destruct b as [| y b]; [reflexivity |].
  cbn [zip_with map]. f_equal. apply IH.
Qed.

Lemma zip_with_maps {A A' B B' C : Type} (h : A' -> B' -> C) (f : A -> A') (g : B -> B')
    (a : list A) (b : list B) :
  zip_with h (map f a) (map g b) = zip_with (fun x y => h (f x) (g y)) a b.
Proof.
  revert b. induction a as [| x a IH]; intros b; [reflexivity |].
  destruct b as [| y b]; [reflexivity |].
  cbn [zip_with map]. f_equal. apply IH.
Qed.

Lemma zip_with_ext_in {A B C : Type} (f g : A -> B -> C) (a : list A) (b : list B) :
  (forall x y, In x a -> In y b -> f x y = g x y) -> zip_with f a b = zip_with g a b.
Proof.
  revert b. induction a as [| x a IH]; intros b H; [reflexivity |].
  destruct b as [| y b]; [reflexivity |].
  cbn [zip_with]. f_equal.
  - apply H; left; reflexivity.
  - apply IH. intros x' y' Hx Hy. apply H; right; assumption.
Qed.

Lemma unscale_add (n : nat) (f b : vec) :
  length f = S n -> length b = S n ->
  LayerRows.unscale (vec_add f b) = vec_add (LayerRows.unscale f) (LayerRows.unscale b).
Proof.
  intros Hf Hb.
  assert (Hfne : f <> []) by (intros ->; discriminate).
  assert (Hbne : b <> []) by (intros ->; discriminate).
  destruct (exists_last Hfne) as (f' & x & ->).
  destruct (exists_last Hbne) as (b' & y & ->).
  rewrite length_app in Hf, Hb. cbn [length] in Hf, Hb.
  unfold vec_add. rewrite zip_with_app by lia. cbn [zip_with].
  unfold LayerRows.unscale.
  rewrite !removelast_last, !last_last.
  rewrite map_zip_with, zip_with_maps.
  apply zip_with_ext_in. intros u v _ _. ring.
Qed.

Section RowPasses.

Variables FState BState : Type.
Variable cell : vec -> FState -> bool -> vec * FState.
Variable reverse_cell : vec -> BState -> bool -> vec * BState.
Variable initial_state : FState.
Variable rev_initial_state : BState.
Variable loglik_of : FState -> R.

Variable q : nat.
Hypothesis cell_width : forall x s i,
  length x = q -> length (fst (cell x s i)) = S q.
Hypothesis reverse_cell_width : forall x s i,
  length x = q -> length (fst (reverse_cell x s i)) = S q.

Let wide (rows : list vec) : Prop := Forall (fun y => length y = S q) rows.

Lemma passes_agree (first lastp : vec) (middle : list vec) (no_loglik : bool) :
  length first = q -> length lastp = q -> Forall (fun x => length x = q) middle ->
  let emission_probs := first :: middle ++ [lastp] in
  exists (F Bk : list vec) (ll : R),
    LayerRows.forward_row cell initial_state loglik_of emission_probs = Layer.Ok (F, ll)
    /\ LayerRows.backward_row reverse_cell rev_initial_state emission_probs = Layer.Ok Bk
    /\ Layer.state_posterior_row cell reverse_cell initial_state rev_initial_state
         loglik_of emission_probs no_loglik
       = Layer.Ok (if no_loglik then mat_add F Bk
                   else map (map (fun x => x - ll)) (mat_add F Bk))
    /\ length F = length emission_probs
    /\ length Bk = length emission_probs.
Proof.
  intros Hfirst Hlast Hmid emission_probs.
  assert (HL : length emission_probs = S (S (length middle))).
  { unfold emission_probs. cbn [length]. rewrite length_app. simpl. lia. }
  assert (Hlastp : last emission_probs first = lastp).
  { unfold emission_probs. rewrite last_cons_default. apply last_last. }
  assert (Hrm : removelast emission_probs = first :: middle).
  { unfold emission_probs.
    change (first :: middle ++ [lastp]) with ((first :: middle) ++ [lastp]).
    apply removelast_last. }
  assert (Htl : removelast (tl emission_probs) = middle).
  { unfold emission_probs. cbn [tl]. apply removelast_last. }
  (* the steps of the two cells *)
  pose proof (cell_width first initial_state true Hfirst) as Wf1.
  destruct (cell first initial_state true) as [f1 fs1] eqn:Ef1. cbn [fst] in Wf1.
  pose proof (reverse_cell_width lastp rev_initial_state true Hlast) as Wb1.
  destruct (reverse_cell lastp rev_initial_state true) as [b1 bs1] eqn:Eb1.
  cbn [fst] in Wb1.
  destruct (rnn_widths q cell cell_width middle fs1 Hmid) as [Lfm Wfm].
  destruct (Layer.rnn cell middle fs1) as [fm fstate] eqn:Efm. cbn [fst] in Lfm, Wfm.
  assert (Hrev : Forall (fun x => length x = q) (rev middle)) by (apply Forall_rev; exact Hmid).
  destruct (rnn_widths q reverse_cell reverse_cell_width (rev middle) bs1 Hrev) as [Lym Wym].
  destruct (Layer.rnn reverse_cell (rev middle) bs1) as [ym bstate] eqn:Eym.
  cbn [fst] in Lym, Wym. rewrite length_rev in Lym.
  pose proof (cell_width lastp fstate false Hlast) as Wfl.
  destruct (cell lastp fstate false) as [fl final_state] eqn:Efl. cbn [fst] in Wfl.
  pose proof (reverse_cell_width first bstate false Hfirst) as Wbl.
  destruct (reverse_cell first bstate false) as [bl bstate'] eqn:Ebl. cbn [fst] in Wbl.
  set (FL := f1 :: fm ++ [fl]).
  set (BL := bl :: rev ym ++ [b1]).
  assert (WFL : wide FL).
  { unfold wide, FL. constructor; [exact Wf1 |].
    apply Forall_app. split; [exact Wfm | constructor; [exact Wfl | constructor]]. }
  assert (WBL : wide BL).
  { unfold wide, BL. constructor; [exact Wbl |].
    apply Forall_app. split; [apply Forall_rev; exact Wym |
                              constructor; [exact Wb1 | constructor]]. }
  assert (LFL : length FL = length emission_probs).
  { rewrite HL. unfold FL. cbn [length]. rewrite length_app. cbn [length]. lia. }
  assert (LBL : length BL = length emission_probs).
  { rewrite HL. unfold BL. cbn [length]. rewrite length_app, length_rev. cbn [length]. lia. }
  exists (map LayerRows.unscale FL), (map LayerRows.unscale BL), (loglik_of final_state).
  split; [| split; [| split; [| split]]].
  - (* forward_recursion *)
    subst emission_probs. unfold LayerRows.forward_row. cbv beta iota zeta.
    rewrite Ef1.
    assert (Hk : LayerRows.keras_rnn cell (middle ++ [lastp]) fs1
                 = Layer.Ok (fm ++ [fl], final_state)).
    { unfold LayerRows.keras_rnn.
      destruct (middle ++ [lastp]) as [| x r] eqn:E;
        [destruct middle; discriminate |].
      rewrite <- E, rnn_snoc, Efm, Efl. reflexivity. }
    rewrite Hk. cbn [Layer.rbind]. fold FL. rewrite <- LFL.
    rewrite (reshape_rows_uniform (S q) FL) by (unfold FL; congruence || exact WFL).
    reflexivity.
  - (* backward_recursion *)
    subst emission_probs. unfold LayerRows.backward_row. cbv beta iota zeta.
    rewrite Hlastp, Eb1, Hrm.
    assert (Hk : LayerRows.keras_rnn reverse_cell (rev (first :: middle)) bs1
                 = Layer.Ok (ym ++ [bl], bstate')).
    { unfold LayerRows.keras_rnn. cbn [rev].
      destruct (rev middle ++ [first]) as [| x r] eqn:E;
        [destruct (rev middle); discriminate |].
      rewrite <- E, rnn_snoc, Eym, Ebl. reflexivity. }
    rewrite Hk. cbn [Layer.rbind].
    assert (Hrows : b1 :: ym ++ [bl] = rev BL).
    { unfold BL. cbn [rev]. rewrite rev_app_distr, rev_involutive. reflexivity. }
    rewrite Hrows, <- LBL, <- (length_rev BL).
    rewrite (reshape_rows_uniform (S q) (rev BL)).
    + cbn [Layer.rbind]. rewrite <- map_rev, rev_involutive. reflexivity.
    + unfold BL. cbn [rev]. destruct (rev (rev ym ++ [b1])); discriminate.
    + apply Forall_rev. exact WBL.
  - (* state_posterior_log_probs *)
    subst emission_probs. unfold Layer.state_posterior_row. cbv beta iota zeta.
    rewrite Hlastp, Ef1, Eb1, Htl.
    assert (Hmiddle :
      (if (2 <? length (first :: middle ++ [lastp]))%nat
       then Layer.bidirectional_rnn cell reverse_cell middle fs1 bs1
       else ([], fs1, bs1))
      = (zip_with vec_add fm (rev ym), fstate, bstate)).
    { destruct (Nat.ltb_spec 2 (length (first :: middle ++ [lastp]))) as [Hlt | Hge].
      - unfold Layer.bidirectional_rnn. rewrite Efm, Eym. reflexivity.
      - rewrite HL in Hge.
        assert (Hm : middle = []) by (destruct middle; [reflexivity | simpl in Hge; lia]).
        subst middle. cbn in Efm, Eym.
        injection Efm as <- <-. injection Eym as <- <-. reflexivity. }
    rewrite Hmiddle, Efl, Ebl.
    assert (Hrows : vec_add f1 bl :: zip_with vec_add fm (rev ym) ++ [vec_add fl b1]
                    = zip_with vec_add FL BL).
    { unfold FL, BL. cbn [zip_with]. f_equal.
      rewrite zip_with_app by (rewrite length_rev; lia). reflexivity. }
    rewrite Hrows.
    assert (Wrows : wide (zip_with vec_add FL BL)).
    { apply zip_with_vec_add_widths; assumption. }
    assert (Lrows : length (zip_with vec_add FL BL) = length (first :: middle ++ [lastp])).
    { rewrite zip_with_length. lia. }
    rewrite <- Lrows.
    rewrite (reshape_rows_uniform (S q) (zip_with vec_add FL BL));
      [| intros Hnil; rewrite Hnil in Lrows; simpl in Lrows; lia | exact Wrows].
    cbn [Layer.rbind].
    assert (Hunscale :
      map (fun row => map (fun x => x + last row 0) (removelast row))
          (zip_with vec_add FL BL)
      = mat_add (map LayerRows.unscale FL) (map LayerRows.unscale BL)).
    { change (fun row : vec => map (fun x => x + last row 0) (removelast row))
        with LayerRows.unscale.
      unfold mat_add. rewrite map_zip_with, zip_with_maps.
      apply zip_with_ext_in. intros f b Hf Hb.
      unfold wide in WFL, WBL. rewrite Forall_forall in WFL, WBL.
      apply (unscale_add q); [apply WFL | apply WBL]; assumption. }
    rewrite Hunscale. destruct no_loglik; reflexivity.
  - now rewrite length_map.
  - now rewrite length_map.
Qed.

End RowPasses.

(** X21: for [parallel_factor = 1] and a batch row of two positions or more,
    the three passes of the layer agree: what [state_posterior_log_probs]
    returns is, entry by entry, the forward variable of [forward_recursion]
    plus the backward variable of [backward_recursion] minus the
    log-likelihood of [forward_recursion] (and their plain sum with
    [no_loglik]).  This holds for every cell and reversed cell whose step is
    a function of the emissions, the state and the [init] flag and returns
    [q] scaled values followed by one scaling factor. *)
Theorem posterior_is_forward_plus_backward :
  forall (FState BState : Type)
         (cell : vec -> FState -> bool -> vec * FState)
         (reverse_cell : vec -> BState -> bool -> vec * BState)
         (initial_state : FState) (rev_initial_state : BState)
         (loglik_of : FState -> R) (q : nat)
         (emission_probs : list vec) (no_loglik : bool),
    (forall x s i, length x = q -> length (fst (cell x s i)) = S q) ->
    (forall x s i, length x = q -> length (fst (reverse_cell x s i)) = S q) ->
    (2 <= length emission_probs)%nat ->
    Forall (fun x => length x = q) emission_probs ->
    exists (forward backward : list vec) (loglik : R),
      LayerRows.forward_row cell initial_state loglik_of emission_probs
        = Layer.Ok (forward, loglik)
      /\ LayerRows.backward_row reverse_cell rev_initial_state emission_probs
         = Layer.Ok backward
      /\ Layer.state_posterior_row cell reverse_cell initial_state rev_initial_state
           loglik_of emission_probs no_loglik
         = Layer.Ok (if no_loglik then mat_add forward backward
                     else map (map (fun x => x - loglik)) (mat_add forward backward))
      /\ length forward = length emission_probs
      /\ length backward = length emission_probs.
Proof.
  intros FState BState cell reverse_cell initial_state rev_initial_state loglik_of q
         emission_probs no_loglik Hcw Hrw HL Hall.
  destruct emission_probs as [| first rest]; [simpl in HL; lia |].
  assert (Hne : rest <> []) by (intros ->; simpl in HL; lia).
  destruct (exists_last Hne) as (middle & lastp & ->).
  apply Forall_cons_iff in Hall. destruct Hall as [Hfirst Hrest].
  apply Forall_app in Hrest. destruct Hrest as [Hmid Hlast].
  apply Forall_cons_iff in Hlast. destruct Hlast as [Hlast _].
  exact (passes_agree FState BState cell reverse_cell initial_state rev_initial_state
           loglik_of q Hcw Hrw first lastp middle no_loglik Hfirst Hlast Hmid).
Qed.

Lemma posterior_is_forward_plus_backward_witness :
  exists (forward backward : list vec) (loglik : R),
    LayerRows.forward_row copy_cell tt (fun _ => 0) [[1; 0]; [0; 1]; [1; 0]]
      = Layer.Ok (forward, loglik)
    /\ LayerRows.backward_row copy_cell tt [[1; 0]; [0; 1]; [1; 0]] = Layer.Ok backward
    /\ Layer.state_posterior_row copy_cell copy_cell tt tt (fun _ => 0)
         [[1; 0]; [0; 1]; [1; 0]] false
       = Layer.Ok (if false then mat_add forward backward
                   else map (map (fun x => x - loglik)) (mat_add forward backward))
    /\ length forward = length [[1; 0]; [0; 1]; [1; 0]]
    /\ length backward = length [[1; 0]; [0; 1]; [1; 0]].
Proof.
  apply (posterior_is_forward_plus_backward unit unit copy_cell copy_cell tt tt
           (fun _ => 0) 2 [[1; 0]; [0; 1]; [1; 0]] false
           copy_cell_width copy_cell_width).
  - simpl. lia.
  - repeat constructor.
Defined.

(** ** Batches and datasets ([Training.py]) *)

Lemma In_le_list_max (l : list nat) (x : nat) : In x l -> (x <= list_max l)%nat.
Proof.
  intros Hx. pose proof (proj1 (list_max_le l (list_max l)) (Nat.le_refl _)) as H.
  rewrite Forall_forall in H. apply H. exact Hx.
Qed.

Section BatchGenerator.

Import Training.

Variable fasta_file : FastaFile.
Variable alphabet_size : nat.

Let raw := get_raw_seq fasta_file.

(** The dataset knows index [j], and the recorded length of its sequence is
    the number of its symbols. *)
Let known (j : nat) : Prop :=
  nth_error (seq_lens fasta_file) j = Some (length (raw j)).

(** Row of the batch for index [j], at width [w]. *)
Let padded_row (w j : nat) : list nat :=
  map to_uint8 (raw j) ++ repeat alphabet_size (w - length (raw j)).

Lemma skipn_repeat {A : Type} (x : A) (n m : nat) :
  skipn n (repeat x m) = repeat x (m - n).
Proof.
  revert n. induction m as [| m IH]; intros n.
  - destruct n; reflexivity.
  - destruct n as [| n]; [reflexivity |]. cbn [repeat skipn]. rewrite IH. reflexivity.
Qed.

Lemma assign_slice_row (w j : nat) :
  (length (raw j) <= w)%nat ->
  assign_slice (repeat alphabet_size w) (length (raw j)) (raw j) = Some (padded_row w j).
Proof.
  intros Hle. unfold assign_slice. rewrite repeat_length.
  rewrite Nat.min_l by exact Hle. rewrite Nat.eqb_refl.
  rewrite skipn_repeat. reflexivity.
Qed.

Lemma fill_rows_rows (w : nat) (indices : list nat) :
  forall (done : list (list nat)),
    Forall known indices ->
    Forall (fun j => (length (raw j) <= w)%nat) indices ->
    fill_rows fasta_file (done ++ repeat (repeat alphabet_size w) (length indices))
      (length done) indices
    = Some (done ++ map (padded_row w) indices).
Proof.
  induction indices as [| j rest IH]; intros done Hknown Hle.
  - cbn. reflexivity.
  - apply Forall_cons_iff in Hknown. destruct Hknown as [Hj Hknown].
    apply Forall_cons_iff in Hle. destruct Hle as [Hlej Hle].
    cbn [fill_rows length repeat].
    unfold known in Hj. rewrite Hj. cbn [bind].
    rewrite nth_error_app2 by lia. rewrite Nat.sub_diag. cbn [nth_error bind].
    fold raw. rewrite (assign_slice_row w j Hlej). cbn [bind].
    unfold Tensor.set_nth.
    rewrite length_app. cbn [length].
    destruct (Nat.ltb_spec (length done) (length done + S (length (repeat (repeat alphabet_size w) (length rest)))));
      [| lia].
    cbn [bind].
    rewrite firstn_app, firstn_all, Nat.sub_diag, firstn_O, app_nil_r.
    replace (S (length done)) with (length done + 1)%nat by lia.
    rewrite skipn_app, skipn_all2 by lia.
    replace (length done + 1 - length done)%nat with 1%nat by lia.
    cbn [skipn app].
    specialize (IH (done ++ [padded_row w j]) Hknown Hle).
    rewrite length_app in IH. cbn [length] in IH.
    rewrite <- app_assoc in IH. cbn [app] in IH.
    rewrite IH. rewrite <- app_assoc. reflexivity.
Qed.

Lemma generator_returns (indices : list nat) :
  indices <> [] ->
  (alphabet_size <= 255)%nat ->
  Forall known indices ->
  DefaultBatchGenerator fasta_file alphabet_size indices
  = Some (map (padded_row (list_max (map (fun j => length (raw j)) indices) + 1)) indices,
          indices).
Proof.
  intros Hne Ha Hknown. unfold DefaultBatchGenerator, fancy_index.
  rewrite (traverse_total _ (fun j => length (raw j))).
  2:{ intros j Hj. rewrite Forall_forall in Hknown. exact (Hknown j Hj). }
  cbn [bind].
  assert (Hmax : np_max (map (fun j => length (raw j)) indices)
                 = Some (list_max (map (fun j => length (raw j)) indices))).
  { destruct indices; [congruence | reflexivity]. }
  rewrite Hmax. cbn [bind].
  destruct (Nat.ltb_spec 255 alphabet_size) as [Hgt | _]; [lia |].
  set (w := (list_max (map (fun j => length (raw j)) indices) + 1)%nat).
  pose proof (fill_rows_rows w indices [] Hknown) as Hfill.
  cbn [app length] in Hfill. rewrite Hfill; [reflexivity |].
  apply Forall_forall. intros j Hj. unfold w.
  assert (length (raw j) <= list_max (map (fun j => length (raw j)) indices))%nat; [| lia].
  apply In_le_list_max. apply (in_map (fun j => length (raw j))). exact Hj.
Qed.

Lemma last_one_hot (c a : nat) :
  last (one_hot c (a + 1)) 0 = if Nat.eqb a c then 1 else 0.
Proof.
  unfold one_hot. rewrite Nat.add_1_r, seq_S, map_app. cbn [map Nat.add].
  apply last_last.
Qed.

Lemma seq_lens_padded (symbols : list nat) (k : nat) :
  Forall (fun c => c <> alphabet_size) symbols ->
  Viterbi.seq_lens
    (map (fun c => one_hot c (alphabet_size + 1)) (symbols ++ repeat alphabet_size k))
  = length symbols.
Proof.
  intros Hsym. unfold Viterbi.seq_lens. rewrite map_app, filter_app, length_app.
  assert (Hreal : filter (fun row => if Req_dec_T (last row 0) 0 then true else false)
                    (map (fun c => one_hot c (alphabet_size + 1)) symbols)
                  = map (fun c => one_hot c (alphabet_size + 1)) symbols).
  { induction Hsym as [| c symbols Hc _ IH]; [reflexivity |].
    cbn [map filter]. rewrite last_one_hot.
    destruct (Nat.eqb_spec alphabet_size c) as [Heq | _]; [congruence |].
    destruct (Req_dec_T 0 0) as [_ | Hn]; [| contradiction].
    now rewrite IH. }
  assert (Hpad : filter (fun row => if Req_dec_T (last row 0) 0 then true else false)
                   (map (fun c => one_hot c (alphabet_size + 1)) (repeat alphabet_size k))
                 = []).
  { induction k as [| k IH]; [reflexivity |].
    cbn [repeat map filter]. rewrite last_one_hot, Nat.eqb_refl.
    destruct (Req_dec_T 1 0) as [H10 | _]; [lra |]. exact IH. }
  rewrite Hreal, Hpad, length_map. cbn [length]. lia.
Qed.

End BatchGenerator.

(** X22: [DefaultBatchGenerator] pads with the terminal symbol.  For a
    non-empty list of indices that the dataset knows (the recorded length of
    every sequence being the number of its symbols) and an alphabet that fits
    [uint8], the generator returns the indices unchanged and one row per
    index, of the width of the longest sequence plus one: the symbols of the
    sequence (stored as [uint8]) followed by the terminal symbol
    [alphabet_size] up to that width, so that every row ends with at least
    one terminal symbol. *)
Theorem batch_generator_pads :
  forall (fasta_file : Training.FastaFile) (alphabet_size : nat) (indices : list nat),
    indices <> [] ->
    (alphabet_size <= 255)%nat ->
    Forall (fun j => nth_error (Training.seq_lens fasta_file) j
                     = Some (length (Training.get_raw_seq fasta_file j))) indices ->
    let max_len :=
      list_max (map (fun j => length (Training.get_raw_seq fasta_file j)) indices) in
    Training.DefaultBatchGenerator fasta_file alphabet_size indices
    = Some (map (fun j =>
                   map Training.to_uint8 (Training.get_raw_seq fasta_file j)
                   ++ repeat alphabet_size
                        (max_len + 1 - length (Training.get_raw_seq fasta_file j)))
                indices,
            indices)
    /\ Forall (fun j => (1 <= max_len + 1 - length (Training.get_raw_seq fasta_file j))%nat)
              indices.
Proof.
  intros fasta_file alphabet_size indices Hne Ha Hknown max_len. split.
  - exact (generator_returns fasta_file alphabet_size indices Hne Ha Hknown).
  - apply Forall_forall. intros j Hj.
    assert (length (Training.get_raw_seq fasta_file j) <= max_len)%nat; [| lia].
    unfold max_len. apply In_le_list_max.
    apply (in_map (fun j => length (Training.get_raw_seq fasta_file j))). exact Hj.
Qed.

Lemma batch_generator_pads_witness :
  let fasta_file :=
    {| Training.seq_lens := [2%nat; 0%nat; 1%nat];
       Training.get_raw_seq := fun j => nth j [[3%nat; 4%nat]; []; [7%nat]] [] |} in
  let max_len :=
    list_max (map (fun j => length (Training.get_raw_seq fasta_file j)) [2%nat; 0%nat]) in
  Training.DefaultBatchGenerator fasta_file 25 [2%nat; 0%nat]
  = Some (map (fun j =>
                 map Training.to_uint8 (Training.get_raw_seq fasta_file j)
                 ++ repeat 25%nat
                      (max_len + 1 - length (Training.get_raw_seq fasta_file j)))
              [2%nat; 0%nat],
          [2%nat; 0%nat])
  /\ Forall (fun j => (1 <= max_len + 1 - length (Training.get_raw_seq fasta_file j))%nat)
            [2%nat; 0%nat].
Proof.
  apply (batch_generator_pads
           {| Training.seq_lens := [2%nat; 0%nat; 1%nat];
              Training.get_raw_seq := fun j => nth j [[3%nat; 4%nat]; []; [7%nat]] [] |}
           25 [2%nat; 0%nat]).
  - discriminate.
  - lia.
  - repeat constructor.
Defined.

(** X23: the sequence length that [viterbi] computes from a batch row is the
    true length of the sequence.  For a row made by [DefaultBatchGenerator]
    from a sequence that holds no terminal symbol, one-hot encoded over
    [alphabet_size + 1] symbols, [seq_lens] (the number of positions whose
    terminal channel is 0, handed to the mask function) is the number of
    symbols of the sequence. *)
Theorem batch_row_seq_lens :
  forall (fasta_file : Training.FastaFile) (alphabet_size : nat) (indices : list nat)
         (hmm_cell : Viterbi.HmmCell),
    indices <> [] ->
    (alphabet_size <= 255)%nat ->
    Forall (fun j => nth_error (Training.seq_lens fasta_file) j
                     = Some (length (Training.get_raw_seq fasta_file j))) indices ->
    Forall (fun j => Forall (fun c => Training.to_uint8 c <> alphabet_size)
                       (Training.get_raw_seq fasta_file j)) indices ->
    Viterbi.dim hmm_cell = (alphabet_size + 1)%nat ->
    exists batch : list (list nat),
      Training.DefaultBatchGenerator fasta_file alphabet_size indices = Some (batch, indices)
      /\ length batch = length indices
      /\ forall i j, nth_error indices i = Some j ->
           Viterbi.seq_lens (Viterbi.encode (Viterbi.Indices (nth i batch [])) hmm_cell)
           = length (Training.get_raw_seq fasta_file j).
Proof.
  intros fasta_file alphabet_size indices hmm_cell Hne Ha Hknown Hsym Hdim.
  eexists. split; [exact (generator_returns fasta_file alphabet_size indices Hne Ha Hknown) |].
  split; [apply length_map |].
  intros i j Hij.
  assert (Hi : (i < length indices)%nat) by (apply nth_error_Some; rewrite Hij; discriminate).
  rewrite (nth_map_lt _ indices i 0%nat []) by exact Hi.
  rewrite (nth_error_nth indices i 0%nat Hij).
  cbn [Viterbi.encode]. rewrite Hdim.
  rewrite seq_lens_padded; [apply length_map |].
  rewrite Forall_forall in Hsym. specialize (Hsym j (nth_error_In _ _ Hij)).
  apply Forall_map. exact Hsym.
Qed.

Lemma batch_row_seq_lens_witness :
  exists batch : list (list nat),
    Training.DefaultBatchGenerator
      {| Training.seq_lens := [2%nat; 0%nat]; 
         Training.get_raw_seq := fun j => nth j [[0%nat; 0%nat]; []] [] |}
      1 [0%nat; 1%nat] = Some (batch, [0%nat; 1%nat])
    /\ length batch = length [0%nat; 1%nat]
    /\ forall i j, nth_error [0%nat; 1%nat] i = Some j ->
         Viterbi.seq_lens (Viterbi.encode (Viterbi.Indices (nth i batch [])) absorbing_cell)
         = length (Training.get_raw_seq
                     {| Training.seq_lens := [2%nat; 0%nat];
                        Training.get_raw_seq := fun j => nth j [[0%nat; 0%nat]; []] [] |} j).
Proof.
  apply (batch_row_seq_lens
           {| Training.seq_lens := [2%nat; 0%nat];
              Training.get_raw_seq := fun j => nth j [[0%nat; 0%nat]; []] [] |}
           1 [0%nat; 1%nat] absorbing_cell).
  - discriminate.
  - lia.
  - repeat constructor.
  - repeat constructor; discriminate.
  - reflexivity.
Defined.

(** ** The dataset without shuffling ([Training.py], [make_dataset]) *)

Lemma traverse_Forall2 {A B : Type} (f : A -> option B) (l : list A) :
  forall r, traverse f l = Some r -> Forall2 (fun a b => f a = Some b) l r.
Proof.
  induction l as [| a l IH]; intros r H.
  - simpl in H. injection H as <-. constructor.
  - cbn [traverse] in H. destruct (f a) as [b |] eqn:Hfa; [| discriminate].
    cbn [bind] in H. destruct (traverse f l) as [r' |]; [| discriminate].
    cbn [bind] in H. injection H as <-. constructor; [exact Hfa | apply IH; reflexivity].
Qed.

Section Batching.

Import Training.

Variable A : Type.
Variable batch_size : nat.
Hypothesis Hsize : (1 <= batch_size)%nat.

Lemma batch_loop_nil (fuel : nat) : batch_loop fuel batch_size (@nil A) = [].
Proof. destruct fuel; reflexivity. Qed.

Lemma batch_loop_concat (fuel : nat) : forall l : list A,
  (length l <= fuel)%nat -> concat (batch_loop fuel batch_size l) = l.
Proof.
  induction fuel as [| fuel IH]; intros l Hl.
  - destruct l; [reflexivity | simpl in Hl; lia].
  - destruct l as [| x t]; [reflexivity |].
    cbn [batch_loop concat]. rewrite IH; [apply firstn_skipn |].
    rewrite length_skipn. cbn [length] in Hl |- *. lia.
Qed.

Lemma batch_loop_sizes (fuel : nat) : forall l : list A,
  Forall (fun b => (1 <= length b <= batch_size)%nat) (batch_loop fuel batch_size l).
Proof.
  induction fuel as [| fuel IH]; intros l; [constructor |].
  destruct l as [| x t]; [constructor |].
  cbn [batch_loop]. constructor; [| apply IH].
  rewrite length_firstn. cbn [length]. lia.
Qed.

Lemma batch_loop_full (fuel : nat) : forall (l : list A) (i : nat),
  (S i < length (batch_loop fuel batch_size l))%nat ->
  length (nth i (batch_loop fuel batch_size l) []) = batch_size.
Proof.
  induction fuel as [| fuel IH]; intros l i Hi; [simpl in Hi; lia |].
  destruct l as [| x t]; [simpl in Hi; lia |].
  cbn [batch_loop] in Hi |- *. cbn [length] in Hi.
  destruct i as [| i].
  - cbn [nth]. rewrite length_firstn.
    destruct (Nat.le_gt_cases batch_size (length (x :: t))) as [Hle | Hgt]; [lia |].
    exfalso. rewrite skipn_all2 in Hi by lia. rewrite batch_loop_nil in Hi.
    simpl in Hi. lia.
  - cbn [nth]. apply IH. lia.
Qed.

End Batching.

(** X24: without shuffling, the dataset visits every index once and in
    order.  Whenever [make_dataset] yields its elements, they come from
    consecutive batches of the indices: the batches concatenate to the list
    of indices, every batch holds between one and [batch_size] indices, every
    batch but the last holds exactly [batch_size], and every element pairs
    what the batch generator returns for its batch with the target [[0.]]. *)
Theorem make_dataset_covers_indices :
  forall (X : Type) (indices : list nat) (batch_generator : list nat -> option X)
         (batch_size : nat) (elements : list (X * list R)),
    Training.make_dataset indices batch_generator batch_size = Some elements ->
    exists batches : list (list nat),
      concat batches = indices
      /\ Forall (fun b => (1 <= length b <= batch_size)%nat) batches
      /\ (forall i, (S i < length batches)%nat -> length (nth i batches []) = batch_size)
      /\ Forall2 (fun b e => batch_generator b = Some (fst e) /\ snd e = [0])
                 batches elements.
Proof.
  intros X indices batch_generator batch_size elements.
  unfold Training.make_dataset, Training.ds_batch.
  destruct (Nat.eqb_spec batch_size 0) as [| Hne]; [discriminate |].
  cbn [bind]. intros Hrun.
  assert (Hsize : (1 <= batch_size)%nat) by lia.
  exists (Training.batch_loop (length indices) batch_size indices).
  split; [apply batch_loop_concat; [exact Hsize | lia] |].
  split; [apply batch_loop_sizes; exact Hsize |].
  split; [intros i Hi; apply batch_loop_full; assumption |].
  pose proof (traverse_Forall2 _ _ _ Hrun) as H2.
  eapply Forall2_impl; [| exact H2].
  intros b e Hbe. cbn beta in Hbe.
  destruct (batch_generator b) as [x |]; [| discriminate].
  cbn [bind] in Hbe. injection Hbe as <-. split; reflexivity.
Qed.

Lemma make_dataset_covers_indices_witness :
  exists batches : list (list nat),
    concat batches = [4%nat; 2%nat; 7%nat]
    /\ Forall (fun b => (1 <= length b <= 2)%nat) batches
    /\ (forall i, (S i < length batches)%nat -> length (nth i batches []) = 2%nat)
    /\ Forall2 (fun b e => (fun i : list nat => Some (length i)) b = Some (fst e)
                           /\ snd e = [0])
               batches [(2%nat, [0]); (1%nat, [0])].
Proof.
  apply (make_dataset_covers_indices nat [4%nat; 2%nat; 7%nat]
           (fun i => Some (length i)) 2 [(2%nat, [0]); (1%nat, [0])]).
  reflexivity.
Defined.

(** ** The frames kept by [make_logo_gif] *)

Section Frames.

Import Visualize.

Variable A : Type.
Variable step : nat.
Hypothesis Hstep : (1 <= step)%nat.

(** The number of elements of [l[::step]], bounded from both sides. *)
Lemma every_nth_length (fuel : nat) : forall l : list A,
  (length l <= fuel)%nat ->
  (length l <= step * length (every_nth fuel step l)
   /\ (l <> [] -> step * length (every_nth fuel step l) < length l + step))%nat.
Proof.
  induction fuel as [| fuel IH]; intros l Hl.
  - destruct l; [| simpl in Hl; lia]. cbn. split; [lia | congruence].
  - destruct l as [| x t]; [cbn; split; [lia | congruence] |].
    cbn [every_nth].
    assert (Hsk : (length (skipn step (x :: t)) <= fuel)%nat).
    { rewrite length_skipn. cbn [length] in Hl |- *. lia. }
    destruct (IH (skipn step (x :: t)) Hsk) as [Hlow Hup].
    rewrite length_skipn in Hlow.
    cbn [length] in Hlow |- *. split; [nia |].
    intros _.
    destruct (skipn step (x :: t)) as [| y r] eqn:E.
    + assert (Hlen : length (skipn step (x :: t)) = 0%nat) by (rewrite E; reflexivity).
      rewrite length_skipn in Hlen. cbn [length] in Hlen.
      destruct fuel; cbn; nia.
    + specialize (Hup ltac:(discriminate)).
      assert (Hlen : length (skipn step (x :: t)) = length (y :: r)) by (rewrite E; reflexivity).
      rewrite length_skipn in Hlen. cbn [length] in Hlen, Hup. nia.
Qed.

Lemma every_nth_incl (fuel : nat) : forall l : list A, incl (every_nth fuel step l) l.
Proof.
  induction fuel as [| fuel IH]; intros l; [intros a [] |].
  destruct l as [| x t]; [intros a [] |].
  cbn [every_nth]. intros a [<- | Ha]; [left; reflexivity |].
  specialize (IH _ a Ha).
  rewrite <- (firstn_skipn step (x :: t)). apply in_or_app. right. exact IH.
Qed.

End Frames.

(** X25: [make_logo_gif] keeps a bounded number of frames.  With at most 201
    frames every frame is kept; with more, between 100 and 199 frames are
    kept, all of them from the first half of the (sorted) frames.  In no
    case are more than 201 frames written. *)
Theorem select_frames_bounds :
  forall (A : Type) (filenames : list A),
    exists frames : list A,
      Visualize.select_frames filenames = Some frames
      /\ (length frames <= 201)%nat
      /\ ((length filenames <= 201)%nat -> frames = filenames)
      /\ ((202 <= length filenames)%nat ->
          (100 <= length frames <= 199)%nat
          /\ incl frames (firstn (length filenames / 2) filenames)).
Proof.
  intros A filenames. unfold Visualize.select_frames.
  set (n := length filenames).
  pose proof (Nat.div_mod_eq n 2) as H2.
  pose proof (Nat.mod_upper_bound n 2 ltac:(lia)) as H2b.
  pose proof (Nat.div_mod_eq n 200) as H200.
  pose proof (Nat.mod_upper_bound n 200 ltac:(lia)) as H200b.
  destruct (Nat.ltb_spec 100 (n / 2)) as [Hbig | Hsmall].
  - unfold Visualize.slice_step.
    destruct (Nat.eqb_spec (n / 200) 0) as [Hz | Hnz]; [lia |].
    eexists. split; [reflexivity |].
    remember (firstn (n / 2) filenames) as half eqn:Ehalf.
    assert (Hhalf : length half = (n / 2)%nat).
    { rewrite Ehalf, length_firstn. fold n. lia. }
    destruct (every_nth_length A (n / 200) ltac:(lia) (length half) half (Nat.le_refl _))
      as [Hlow Hup].
    assert (Hne : half <> []).
    { intros E. rewrite E in Hhalf. cbn [length] in Hhalf. lia. }
    specialize (Hup Hne).
    remember (length (Visualize.every_nth (length half) (n / 200) half)) as c eqn:Ec.
    rewrite Hhalf in Hlow, Hup.
    remember (n / 200)%nat as s eqn:Es.
    remember (n / 2)%nat as m eqn:Em.
    assert (Hm1 : (100 * s <= m)%nat) by lia.
    assert (Hm2 : (m < 100 * s + 100)%nat) by lia.
    assert (Hc : (100 <= c <= 199)%nat).
    { split.
      - destruct (Nat.le_gt_cases 100 c) as [H | H]; [exact H |].
        assert (s * c <= s * 99)%nat by (apply Nat.mul_le_mono_l; lia). lia.
      - destruct (Nat.le_gt_cases c 199) as [H | H]; [exact H |].
        assert (s * 200 <= s * c)%nat by (apply Nat.mul_le_mono_l; lia).
        assert (s = 1)%nat by lia. subst s. lia. }
    split; [lia |]. split; [intros Hle; lia |].
    intros _. split; [exact Hc |].
    apply every_nth_incl.
  - eexists. split; [reflexivity |].
    split; [fold n; lia |]. split; [reflexivity |].
    intros Hge. fold n in Hge. lia.
Qed.

(** ** The re-normalised leaves of [get_aux_loss] *)

Lemma min_mass_pos : 0 < TreeEmitter.min_mass.
Proof.
  unfold TreeEmitter.min_mass. apply Rinv_0_lt_compat. apply pow_lt. lra.
Qed.

Lemma map_zeros (f : R -> R) (l : vec) :
  Forall (fun x => x = 0) l -> f 0 = 0 -> map f l = l.
Proof.
  intros Hl Hf. induction Hl as [| x l Hx _ IH]; [reflexivity |].
  cbn [map]. subst x. now rewrite Hf, IH.
Qed.

(** X26: the re-normalisation of [get_aux_loss] is safe for states without
    mass.  A row whose first 20 entries carry a mass of at least [1e-16] is
    turned into a distribution (its 20 entries sum to 1); a row whose first
    20 entries are all zero, as for a padding state or the end state, stays
    zero instead of dividing by zero. *)
Theorem renormalize_rows :
  forall row : vec,
    (TreeEmitter.min_mass <= vec_sum (firstn 20 row) ->
     vec_sum (TreeEmitter.renormalize row) = 1)
    /\ (Forall (fun x => x = 0) (firstn 20 row) ->
        TreeEmitter.renormalize row = firstn 20 row).
Proof.
  intros row. unfold TreeEmitter.renormalize. cbv zeta.
  pose proof min_mass_pos as Hpos. split.
  - intros Hmass. rewrite Rmax_left by exact Hmass.
    rewrite (vec_sum_map_div (fun x => x)), map_id.
    apply Rinv_r. lra.
  - intros Hzero. apply map_zeros; [exact Hzero |]. unfold Rdiv. ring.
Qed.
